(** * LAMC-TNN imputer: a shallow embedding of [imputer/LAMC-TNN.ipynb]

    The notebook defines, on top of NumPy and SciPy,
    - [ten2mat] / [mat2ten]   (mode-wise unfolding and folding of a tensor),
    - [svt_tnn]               (truncated singular value thresholding),
    - [generate_Psi]          (the sparse lag operators),
    - [imputer]               (the ADMM loop of the LAMC imputer),
    - [compute_mae] / [compute_rmse] / [evaluate]   (error measures),
    and ends with a cell that prepares the data and calls [imputer]
    (module [Notebook]).  [read_raw_data], which reads a file and rescales
    it with scikit-learn, is not embedded.

    Conventions of the embedding.
    - A NumPy [ndarray] of arbitrary order is a shape together with its
      elements listed in row-major order (module [Tensor]).
    - A two-dimensional float array is a [matrix]: its shape and its entry
      function; a one-dimensional one is a [vector].  Floats are read as real
      numbers, so every statement below is a statement of exact arithmetic.
    - Python integers are [Z]; lengths and in-range indices are [nat].
    - Library routines whose result is only known through a contract
      ([np.linalg.svd], [spsolve], [np.linalg.pinv], [np.random.rand]) are
      variables of the section that embeds their callers.
    - Exceptions raised by the library calls that the code relies on for
      rejecting inputs are values of [error].
    - Division is the total division of the real numbers: rounding, the
      infinities and the NaN of floating-point arithmetic are outside the
      model, and the mean of an empty selection is the variable [nan]. *)

From Stdlib Require Import List Arith ZArith Bool Lia Reals Lra.
From Equations Require Import Equations.
Import ListNotations.

Set Implicit Arguments.


(** ** Outcomes *)

Inductive error : Type :=
| ValueError
| IndexError
| AxisError
| UnboundLocalError.

Inductive result (A : Type) : Type :=
| Ok (a : A)
| Error (e : error).

Arguments Ok {A} a.
Arguments Error {A} e.

Definition bind {A B : Type} (r : result A) (f : A -> result B) : result B :=
  match r with
  | Ok a => f a
  | Error e => Error e
  end.

Notation "x <- r ;; k" := (bind r (fun x => k))
  (at level 61, r at next level, right associativity).

Definition of_option {A : Type} (e : error) (o : option A) : result A :=
  match o with
  | Some a => Ok a
  | None => Error e
  end.

Fixpoint mapM {A B : Type} (f : A -> result B) (l : list A) : result (list B) :=
  match l with
  | [] => Ok []
  | a :: l' => b <- f a ;; bs <- mapM f l' ;; Ok (b :: bs)
  end.

(** ** Multi-indices and flat positions *)

Module Index.

  (** Number of elements of an array of shape [sh]. *)
Definition size_of (sh : list nat) : nat := fold_right Nat.mul 1 sh.

  (** [idx] is a position of an array of shape [sh]. *)
Definition valid (idx sh : list nat) : Prop := Forall2 lt idx sh.

  (** Column-major ("Fortran") numbering: the first index runs fastest. *)
Fixpoint ravel_F (sh idx : list nat) : nat :=
    match sh, idx with
    | s :: sh', i :: idx' => i + s * ravel_F sh' idx'
    | _, _ => 0
    end.

Fixpoint unravel_F (sh : list nat) (p : nat) : list nat :=
    match sh with
    | [] => []
    | s :: sh' => (p mod s) :: unravel_F sh' (p / s)
    end.

  (** Row-major ("C") numbering: the last index runs fastest. *)
Definition ravel_C (sh idx : list nat) : nat := ravel_F (rev sh) (rev idx).
Definition unravel_C (sh : list nat) (p : nat) : list nat :=
    rev (unravel_F (rev sh) p).

Definition remove_at {A : Type} (n : nat) (l : list A) : list A :=
    firstn n l ++ skipn (S n) l.

Definition insert_at {A : Type} (n : nat) (a : A) (l : list A) : list A :=
    firstn n l ++ a :: skipn n l.

Lemma size_of_app sh1 sh2 : size_of (sh1 ++ sh2) = size_of sh1 * size_of sh2.
Proof.
    induction sh1 as [|s sh1 IH]; simpl; [lia|]. rewrite IH. lia.
Qed.

Lemma size_of_rev sh : size_of (rev sh) = size_of sh.
Proof.
    induction sh as [|s sh IH]; simpl; [reflexivity|].
    rewrite size_of_app, IH. simpl. lia.
Qed.

Lemma valid_length idx sh : valid idx sh -> length idx = length sh.
Proof. induction 1; simpl; congruence. Qed.

Lemma valid_app i1 s1 i2 s2 :
    valid i1 s1 -> valid i2 s2 -> valid (i1 ++ i2) (s1 ++ s2).
Proof.
    induction 1 as [|i s l l' Hi Hl IH]; simpl; intros H2; [assumption|].
    constructor; [assumption|]. apply IH, H2.
Qed.

Lemma valid_rev idx sh : valid idx sh -> valid (rev idx) (rev sh).
Proof.
    induction 1; simpl; [constructor|].
    apply valid_app; [assumption|]. constructor; [assumption|constructor].
Qed.

Lemma valid_rev_inv idx sh : valid (rev idx) (rev sh) -> valid idx sh.
Proof.
    intros H. apply valid_rev in H. now rewrite !rev_involutive in H.
Qed.

Lemma ravel_F_lt sh : forall idx, valid idx sh -> ravel_F sh idx < size_of sh.
Proof.
    induction sh as [|s sh IH]; intros idx H; inversion H; subst; simpl.
    - lia.
    - match goal with Hv : Forall2 lt _ sh |- _ => specialize (IH _ Hv) end.
      nia.
Qed.

Lemma unravel_ravel_F sh :
    forall idx, valid idx sh -> unravel_F sh (ravel_F sh idx) = idx.
Proof.
    induction sh as [|s sh IH]; intros idx H; inversion H; subst; simpl.
    - reflexivity.
    - match goal with Hv : Forall2 lt _ sh |- _ => specialize (IH _ Hv) end.
      assert (Hs : s <> 0) by lia.
      f_equal.
      + rewrite (Nat.mul_comm s), Nat.Div0.mod_add. now apply Nat.mod_small.
      + rewrite (Nat.mul_comm s), Nat.div_add by exact Hs.
        rewrite Nat.div_small by assumption. exact IH.
Qed.

Lemma ravel_unravel_F sh :
    forall p, p < size_of sh -> ravel_F sh (unravel_F sh p) = p.
Proof.
    induction sh as [|s sh IH]; intros p H; simpl in *.
    - lia.
    - assert (s <> 0) by (intros ->; simpl in H; lia).
      rewrite IH.
      + symmetry. rewrite Nat.add_comm. apply Nat.div_mod_eq.
      + apply Nat.Div0.div_lt_upper_bound. lia.
Qed.

Lemma unravel_F_valid sh :
    forall p, p < size_of sh -> valid (unravel_F sh p) sh.
Proof.
    induction sh as [|s sh IH]; intros p H; simpl in *.
    - constructor.
    - assert (s <> 0) by (intros ->; simpl in H; lia).
      constructor.
      + now apply Nat.mod_upper_bound.
      + apply IH. apply Nat.Div0.div_lt_upper_bound. lia.
Qed.

Lemma ravel_C_lt sh idx : valid idx sh -> ravel_C sh idx < size_of sh.
Proof.
    intros H. unfold ravel_C. rewrite <- (size_of_rev sh).
    apply ravel_F_lt. now apply valid_rev.
Qed.

Lemma unravel_ravel_C sh idx :
    valid idx sh -> unravel_C sh (ravel_C sh idx) = idx.
Proof.
    intros H. unfold unravel_C, ravel_C.
    rewrite unravel_ravel_F by now apply valid_rev.
    apply rev_involutive.
Qed.

Lemma ravel_unravel_C sh p :
    p < size_of sh -> ravel_C sh (unravel_C sh p) = p.
Proof.
    intros H. unfold unravel_C, ravel_C. rewrite rev_involutive.
    apply ravel_unravel_F. now rewrite size_of_rev.
Qed.

Lemma unravel_C_valid sh p : p < size_of sh -> valid (unravel_C sh p) sh.
Proof.
    intros H. apply valid_rev_inv. unfold unravel_C. rewrite rev_involutive.
    apply unravel_F_valid. now rewrite size_of_rev.
Qed.

Lemma remove_at_S {A : Type} n (a : A) l :
    remove_at (S n) (a :: l) = a :: remove_at n l.
Proof. reflexivity. Qed.

Lemma insert_at_S {A : Type} n (a b : A) l :
    insert_at (S n) a (b :: l) = b :: insert_at n a l.
Proof. reflexivity. Qed.

Lemma insert_remove_at {A : Type} (d : A) n (l : list A) :
    n < length l -> insert_at n (nth n l d) (remove_at n l) = l.
Proof.
    revert l. induction n as [|n IH]; intros [|a l] H; simpl in *; try lia.
    - reflexivity.
    - unfold insert_at, remove_at in *. simpl. f_equal. apply IH. lia.
Qed.

Lemma remove_insert_at {A : Type} (a : A) n (l : list A) :
    n <= length l -> remove_at n (insert_at n a l) = l.
Proof.
    revert l. induction n as [|n IH]; intros l H.
    - reflexivity.
    - destruct l as [|b l]; simpl in H; [lia|].
      unfold insert_at, remove_at in *. simpl. f_equal. apply IH. lia.
Qed.

Lemma nth_insert_at {A : Type} (d a : A) n (l : list A) :
    n <= length l -> nth n (insert_at n a l) d = a.
Proof.
    revert l. induction n as [|n IH]; intros l H.
    - reflexivity.
    - destruct l as [|b l]; simpl in H; [lia|].
      unfold insert_at in *. simpl. apply IH. lia.
Qed.

Lemma size_of_remove_at n sh :
    n < length sh -> size_of sh = nth n sh 0 * size_of (remove_at n sh).
Proof.
    revert sh. induction n as [|n IH]; intros [|s sh] H; simpl in H; try lia.
    - reflexivity.
    - rewrite remove_at_S. cbn [nth size_of fold_right].
      fold (size_of sh) (size_of (remove_at n sh)).
      rewrite (IH sh) by lia. nia.
Qed.

Lemma valid_nth idx sh n :
    valid idx sh -> n < length sh -> nth n idx 0 < nth n sh 0.
Proof.
    intros H. revert n.
    induction H as [|i s idx sh Hi Hv IH]; intros [|n] Hn; simpl in *; try lia.
    apply IH. lia.
Qed.

Lemma valid_remove_at idx sh n :
    valid idx sh -> valid (remove_at n idx) (remove_at n sh).
Proof.
    intros H. revert n.
    induction H as [|i s idx sh Hi Hv IH]; intros [|n].
    - constructor.
    - constructor.
    - exact Hv.
    - rewrite !remove_at_S. constructor; [assumption|]. apply IH.
Qed.

Lemma valid_insert_at idx sh n i s :
    valid idx sh -> i < s -> valid (insert_at n i idx) (insert_at n s sh).
Proof.
    intros H Hi. revert n.
    induction H as [|j t idx sh Hj Hv IH]; intros [|n].
    - constructor; [assumption|constructor].
    - constructor; [assumption|constructor].
    - constructor; [assumption|]. constructor; assumption.
    - rewrite !insert_at_S. constructor; [assumption|]. apply IH.
Qed.

End Index.

(** ** Tensors: [ten2mat] and [mat2ten] *)

Module Tensor.
Import Index.

Section Ndarray.
Variable A : Type.
  (** Filler returned by a read outside the array; never observed on a
      well-formed array at a valid position. *)
Variable dflt : A.

Record ndarray : Type := mk_ndarray { shape : list nat; data : list A }.

Definition wf (T : ndarray) : Prop := length (data T) = size_of (shape T).

Definition get (T : ndarray) (idx : list nat) : A :=
    nth (ravel_C (shape T) idx) (data T) dflt.

  (** The array of shape [sh] whose element at [idx] is [f idx]. *)
Definition build (sh : list nat) (f : list nat -> A) : ndarray :=
    mk_ndarray sh (map (fun p => f (unravel_C sh p)) (seq 0 (size_of sh))).

  (** [np.moveaxis(T, src, dst)] for a single axis. *)
Definition moveaxis (T : ndarray) (src dst : nat) : result ndarray :=
    let ndim := length (shape T) in
    if (src <? ndim) && (dst <? ndim) then
      Ok (build (insert_at dst (nth src (shape T) 0) (remove_at src (shape T)))
                (fun j => get T (insert_at src (nth dst j 0) (remove_at dst j))))
    else Error AxisError.

  (** Resolution of a requested shape against the number of elements: a
      negative entry stands for the one dimension to be inferred. *)
Definition known_size (newshape : list Z) : nat :=
    fold_right (fun d acc => if (d <? 0)%Z then acc else Z.to_nat d * acc) 1 newshape.

Definition unknowns (newshape : list Z) : nat :=
    length (filter (fun d => (d <? 0)%Z) newshape).

Definition fix_unknown_dimension (newshape : list Z) (size : nat)
    : result (list nat) :=
    let known := known_size newshape in
    match unknowns newshape with
    | 0 => if size =? known then Ok (map Z.to_nat newshape) else Error ValueError
    | 1 => if (known =? 0) || negb (size mod known =? 0) then Error ValueError
           else Ok (map (fun d => if (d <? 0)%Z then size / known else Z.to_nat d)
                        newshape)
    | _ => Error ValueError
    end.

  (** [np.reshape(T, newshape, order = 'F')]. *)
Definition reshape_F (T : ndarray) (newshape : list Z) : result ndarray :=
    sh <- fix_unknown_dimension newshape (size_of (shape T)) ;;
    Ok (build sh (fun j => get T (unravel_F (shape T) (ravel_F sh j)))).

Definition ten2mat (tensor : ndarray) (mode : nat) : result ndarray :=
    moved <- moveaxis tensor mode 0 ;;
    s <- of_option IndexError (nth_error (shape tensor) mode) ;;
    reshape_F moved [Z.of_nat s; (-1)%Z].

Definition mat2ten (mat : ndarray) (dim : list nat) (mode : nat)
    : result ndarray :=
    let index := mode :: filter (fun i => negb (i =? mode)) (seq 0 (length dim)) in
    dims <- mapM (fun i => of_option IndexError (nth_error dim i)) index ;;
    reshaped <- reshape_F mat (map Z.of_nat dims) ;;
    moveaxis reshaped 0 mode.


  (** *** Reading what [build] wrote *)

Lemma get_build sh f idx : valid idx sh -> get (build sh f) idx = f idx.
Proof.
    intros H. unfold get, build. cbn [shape data].
    pose proof (ravel_C_lt H) as Hp.
    rewrite (nth_indep _ dflt (f (unravel_C sh 0)))
      by (rewrite length_map, length_seq; exact Hp).
    rewrite (map_nth (fun p => f (unravel_C sh p)) (seq 0 (size_of sh)) 0).
    rewrite seq_nth by exact Hp. cbn [Nat.add].
    now rewrite unravel_ravel_C.
Qed.

Lemma build_ext sh f g :
    (forall idx, valid idx sh -> f idx = g idx) -> build sh f = build sh g.
Proof.
    intros H. unfold build. f_equal. apply map_ext_in.
    intros p Hp. apply in_seq in Hp. apply H, unravel_C_valid. lia.
Qed.

Lemma build_get T : wf T -> build (shape T) (get T) = T.
Proof.
    destruct T as [sh dat]. unfold wf, build, get. cbn [shape data].
    intros Hwf. f_equal.
    apply (nth_ext _ _ dflt dflt).
    - now rewrite length_map, length_seq.
    - intros p Hp. rewrite length_map, length_seq in Hp.
      rewrite (nth_indep _ dflt (nth (ravel_C sh (unravel_C sh 0)) dat dflt))
        by (rewrite length_map, length_seq; exact Hp).
      rewrite (map_nth (fun q => nth (ravel_C sh (unravel_C sh q)) dat dflt)
                       (seq 0 (size_of sh)) 0).
      rewrite seq_nth by exact Hp. cbn [Nat.add].
      now rewrite ravel_unravel_C.
Qed.

Lemma wf_build sh f : wf (build sh f).
Proof. unfold wf, build. cbn [shape data]. now rewrite length_map, length_seq. Qed.

  (** *** The inferred dimension of [ten2mat] and the explicit one of [mat2ten] *)

Lemma known_size_of_nat sh : known_size (map Z.of_nat sh) = size_of sh.
Proof.
    induction sh as [|s sh IH]; [reflexivity|].
    cbn [map known_size fold_right]. fold (known_size (map Z.of_nat sh)).
    destruct (Z.ltb_spec (Z.of_nat s) 0); [lia|].
    rewrite Nat2Z.id, IH. reflexivity.
Qed.

Lemma unknowns_of_nat sh : unknowns (map Z.of_nat sh) = 0.
Proof.
    unfold unknowns. induction sh as [|s sh IH]; [reflexivity|].
    cbn [map filter]. destruct (Z.ltb_spec (Z.of_nat s) 0); [lia|exact IH].
Qed.

Lemma fix_explicit sh n :
    size_of sh = n -> fix_unknown_dimension (map Z.of_nat sh) n = Ok sh.
Proof.
    intros <-. unfold fix_unknown_dimension.
    rewrite unknowns_of_nat, known_size_of_nat, Nat.eqb_refl.
    f_equal. rewrite map_map. rewrite <- (map_id sh) at 2.
    apply map_ext. intros a. apply Nat2Z.id.
Qed.

Lemma fix_inferred s P :
    s <> 0 -> fix_unknown_dimension [Z.of_nat s; (-1)%Z] (s * P) = Ok [s; P].
Proof.
    intros Hs. unfold fix_unknown_dimension, unknowns, known_size.
    cbn [filter fold_right map length].
    destruct (Z.ltb_spec (Z.of_nat s) 0); [lia|].
    change (-1 <? 0)%Z with true. cbn [length].
    rewrite Nat2Z.id, Nat.mul_1_r.
    destruct (Nat.eqb_spec s 0); [contradiction|]. cbn [orb].
    rewrite (Nat.mul_comm s P), Nat.Div0.mod_mul. cbn [Nat.eqb negb].
    now rewrite Nat.div_mul.
Qed.

Lemma map_nth_seq (l : list nat) : map (fun i => nth i l 0) (seq 0 (length l)) = l.
Proof.
    induction l as [|a l IH]; [reflexivity|].
    cbn [length seq map nth]. f_equal.
    rewrite <- seq_shift, map_map. exact IH.
Qed.

Lemma map_nth_others (l : list nat) mode :
    map (fun i => nth i l 0) (filter (fun i => negb (i =? mode)) (seq 0 (length l)))
    = remove_at mode l.
Proof.
    revert mode. induction l as [|a l IH]; intros mode.
    - now destruct mode.
    - cbn [length seq]. rewrite <- seq_shift. cbn [filter].
      destruct mode as [|m]; cbn [Nat.eqb negb map nth].
      + rewrite (filter_ext_in _ (fun _ => true)).
        * rewrite filter_true, map_map. apply map_nth_seq.
        * intros i Hi. apply in_map_iff in Hi. now destruct Hi as [j [<- _]].
      + rewrite remove_at_S. f_equal.
        rewrite <- (IH m). clear IH.
        induction (seq 0 (length l)) as [|j js IHj]; [reflexivity|].
        cbn [map filter Nat.eqb]. destruct (negb (j =? m)); cbn [map nth].
        * now rewrite IHj.
        * exact IHj.
Qed.

Lemma mapM_nth_error (dim idxs : list nat) :
    Forall (fun i => i < length dim) idxs ->
    mapM (fun i => of_option IndexError (nth_error dim i)) idxs
    = Ok (map (fun i => nth i dim 0) idxs).
Proof.
    induction 1 as [|i idxs Hi _ IH]; [reflexivity|].
    cbn [mapM map]. rewrite (nth_error_nth' dim 0 Hi). cbn [of_option bind].
    now rewrite IH.
Qed.

Lemma index_dims (dim : list nat) mode :
    mode < length dim ->
    mapM (fun i => of_option IndexError (nth_error dim i))
         (mode :: filter (fun i => negb (i =? mode)) (seq 0 (length dim)))
    = Ok (nth mode dim 0 :: remove_at mode dim).
Proof.
    intros Hm. rewrite mapM_nth_error.
    - cbn [map]. now rewrite map_nth_others.
    - constructor; [exact Hm|]. apply Forall_forall. intros i Hi.
      apply filter_In in Hi. destruct Hi as [Hi _]. apply in_seq in Hi. lia.
Qed.

  (** *** Round trip *)

(** C9 (amended): for every well-formed tensor [T] and every valid mode [mode]
    along which [T] has at least one index, unfolding succeeds and folding the
    unfolding with the shape of [T] gives back [T] itself. *)
Theorem mat2ten_ten2mat_nonempty_mode (T : ndarray) (mode : nat) :
    wf T -> mode < length (shape T) -> nth mode (shape T) 0 <> 0 ->
    exists M, ten2mat T mode = Ok M /\ mat2ten M (shape T) mode = Ok T.
Proof.
    intros Hwf Hm Hs.
    set (sh := shape T) in *. set (s := nth mode sh 0) in *.
    set (rest := remove_at mode sh).
    set (moved := build (s :: rest)
      (fun j => get T (insert_at mode (nth 0 j 0) (remove_at 0 j)))).
    set (M := build [s; size_of rest]
      (fun j => get moved (unravel_F (s :: rest) (ravel_F [s; size_of rest] j)))).
    assert (Hmv : moveaxis T mode 0 = Ok moved).
    { unfold moveaxis. fold sh.
      destruct (Nat.ltb_spec mode (length sh)); [|lia].
      destruct (Nat.ltb_spec 0 (length sh)); [|lia]. reflexivity. }
    assert (HM : ten2mat T mode = Ok M).
    { unfold ten2mat. rewrite Hmv. cbn [bind]. fold sh.
      rewrite (nth_error_nth' sh 0 Hm). cbn [of_option bind]. fold s.
      unfold reshape_F. cbn [shape moved build].
      change (size_of (s :: rest)) with (s * size_of rest).
      rewrite (fix_inferred (size_of rest) Hs). reflexivity. }
    exists M. split; [exact HM|].
    unfold mat2ten. rewrite (index_dims sh Hm). cbn [bind]. fold s rest.
    unfold reshape_F. cbn [shape M build].
    rewrite (@fix_explicit (s :: rest) (size_of [s; size_of rest])) by (unfold size_of; cbn [fold_right]; lia).

    cbn [bind]. unfold moveaxis. cbn [shape build length].
    destruct (Nat.ltb_spec 0 (S (length rest))); [|lia].
    assert (Hlen : length rest = length sh - 1).
    { unfold rest, remove_at. rewrite length_app, length_firstn, length_skipn. lia. }
    destruct (Nat.ltb_spec mode (S (length rest))); [|lia].
    cbn [andb nth]. unfold remove_at at 1. cbn [firstn skipn app].
    unfold s, rest. rewrite (insert_remove_at 0 sh Hm).
    f_equal. transitivity (build sh (get T)); [|exact (build_get Hwf)].
    apply build_ext. intros idx Hidx.
    assert (Hj : valid (nth mode idx 0 :: remove_at mode idx) (s :: rest)).
    { constructor; [now apply valid_nth|now apply valid_remove_at]. }
    change (insert_at 0 (nth mode idx 0) (remove_at mode idx))
      with (nth mode idx 0 :: remove_at mode idx).
    fold s rest. rewrite (get_build _ Hj).
    pose proof (ravel_F_lt Hj) as Hq.
    assert (Hq2 : ravel_F (s :: rest) (nth mode idx 0 :: remove_at mode idx)
                  < size_of [s; size_of rest])
      by (unfold size_of in *; cbn [fold_right] in *; lia).
    unfold M. rewrite (get_build _ (unravel_F_valid _ Hq2)).
    rewrite (ravel_unravel_F _ Hq2), (unravel_ravel_F Hj).
    unfold moved. rewrite (get_build _ Hj).
    cbn [nth]. unfold remove_at at 1. cbn [firstn skipn app].
    rewrite insert_remove_at; [reflexivity|].
    rewrite (valid_length Hidx). exact Hm.
Qed.

  (** *** The unfolding, entry by entry *)

(** The two arrays that [ten2mat] goes through: the tensor with axis
    [mode] moved to the front, and its column-major reading as a matrix. *)
Lemma ten2mat_value (T : ndarray) (mode : nat) :
    mode < length (shape T) -> nth mode (shape T) 0 <> 0 ->
    let s := nth mode (shape T) 0 in
    let rest := remove_at mode (shape T) in
    let moved := build (s :: rest)
      (fun j => get T (insert_at mode (nth 0 j 0) (remove_at 0 j))) in
    ten2mat T mode
    = Ok (build [s; size_of rest]
            (fun j => get moved (unravel_F (s :: rest) (ravel_F [s; size_of rest] j)))).
Proof.
    intros Hm Hs s rest moved.
    assert (Hmv : moveaxis T mode 0 = Ok moved).
    { unfold moveaxis.
      destruct (Nat.ltb_spec mode (length (shape T))); [|lia].
      destruct (Nat.ltb_spec 0 (length (shape T))); [|lia]. reflexivity. }
    unfold ten2mat. rewrite Hmv. cbn [bind].
    rewrite (nth_error_nth' (shape T) 0 Hm). cbn [of_option bind]. fold s.
    unfold reshape_F. cbn [shape moved build].
    change (size_of (s :: rest)) with (s * size_of rest).
    rewrite (@fix_inferred s (size_of rest) Hs). reflexivity.
Qed.

Lemma ravel_F_pair s P i j : ravel_F [s; P] [i; j] = i + s * j.
Proof. cbn [ravel_F]. lia. Qed.

Lemma valid_pair s P i j : i < s -> j < P -> valid [i; j] [s; P].
Proof. intros Hi Hj. repeat constructor; assumption. Qed.

(** X1: on a well-formed tensor with a valid mode along which it is not
    empty, [ten2mat] returns a well-formed matrix with [shape[mode]] rows
    and one column for every position of the other axes; the element of
    the tensor at [idx] sits in row [idx[mode]] and in the column whose
    number is the column-major rank of the other indices, taken in their
    original order. *)
Theorem ten2mat_places_entries (T : ndarray) (mode : nat) :
    wf T -> mode < length (shape T) -> nth mode (shape T) 0 <> 0 ->
    exists M,
      ten2mat T mode = Ok M /\
      shape M = [nth mode (shape T) 0; size_of (remove_at mode (shape T))] /\
      wf M /\
      forall idx, valid idx (shape T) ->
        get M [nth mode idx 0;
               ravel_F (remove_at mode (shape T)) (remove_at mode idx)]
        = get T idx.
Proof.
    intros Hwf Hm Hs. eexists. split; [exact (@ten2mat_value T mode Hm Hs)|].
    split; [reflexivity|]. split; [apply wf_build|].
    intros idx Hidx.
    set (s := nth mode (shape T) 0). set (rest := remove_at mode (shape T)).
    assert (Hi : nth mode idx 0 < s) by (now apply valid_nth).
    assert (Hr : valid (remove_at mode idx) rest) by (now apply valid_remove_at).
    assert (Hj : valid (nth mode idx 0 :: remove_at mode idx) (s :: rest))
      by (constructor; assumption).
    pose proof (ravel_F_lt Hr) as Hlt.
    rewrite (get_build _ (valid_pair Hi Hlt)).
    rewrite ravel_F_pair.
    change (nth mode idx 0 + s * ravel_F rest (remove_at mode idx))
      with (ravel_F (s :: rest) (nth mode idx 0 :: remove_at mode idx)).
    rewrite (unravel_ravel_F Hj), (get_build _ Hj).
    cbn [nth]. unfold remove_at at 1. cbn [firstn skipn app].
    rewrite insert_remove_at; [reflexivity|].
    rewrite (valid_length Hidx). exact Hm.
Qed.

  (** *** Folding, then unfolding *)

Lemma mat2ten_value (M : ndarray) (dim : list nat) (mode : nat) :
    mode < length dim -> size_of (shape M) = size_of dim ->
    let s := nth mode dim 0 in
    let rest := remove_at mode dim in
    let reshaped := build (s :: rest)
      (fun j => get M (unravel_F (shape M) (ravel_F (s :: rest) j))) in
    mat2ten M dim mode
    = Ok (build dim
            (fun j => get reshaped (insert_at 0 (nth mode j 0) (remove_at mode j)))).
Proof.
    intros Hm Hsize s rest reshaped.
    assert (Hsz : size_of (s :: rest) = size_of (shape M)).
    { rewrite Hsize. change (size_of (s :: rest)) with (s * size_of rest).
      unfold s, rest. rewrite <- (insert_remove_at 0 dim Hm) at 3.
      unfold insert_at. rewrite size_of_app.
      change (size_of (nth mode dim 0 :: skipn mode (remove_at mode dim)))
        with (nth mode dim 0 * size_of (skipn mode (remove_at mode dim))).
      rewrite <- (firstn_skipn mode (remove_at mode dim)) at 1.
      rewrite size_of_app. lia. }
    unfold mat2ten. rewrite (index_dims dim Hm). cbn [bind]. fold s rest.
    unfold reshape_F. rewrite (@fix_explicit (s :: rest) _ Hsz). cbn [bind].
    fold reshaped. unfold moveaxis. cbn [reshaped shape build length].
    assert (Hlen : length rest = length dim - 1).
    { unfold rest, remove_at. rewrite length_app, length_firstn, length_skipn. lia. }
    destruct (Nat.ltb_spec 0 (S (length rest))); [|lia].
    destruct (Nat.ltb_spec mode (S (length rest))); [|lia].
    cbn [andb nth]. unfold remove_at at 1. cbn [firstn skipn app].
    unfold s, rest. rewrite (insert_remove_at 0 dim Hm). reflexivity.
Qed.

(** X2: a well-formed matrix whose shape is that of a mode-[mode] unfolding
    of a tensor of shape [dim] (with [dim[mode]] not zero) is folded by
    [mat2ten] into a well-formed tensor of shape [dim], and unfolding that
    tensor along [mode] gives the matrix back. *)
Theorem ten2mat_mat2ten (M : ndarray) (dim : list nat) (mode : nat) :
    wf M -> mode < length dim -> nth mode dim 0 <> 0 ->
    shape M = [nth mode dim 0; size_of (remove_at mode dim)] ->
    exists T,
      mat2ten M dim mode = Ok T /\ shape T = dim /\ wf T /\ ten2mat T mode = Ok M.
Proof.
    intros Hwf Hm Hs Hsh.
    set (s := nth mode dim 0) in *. set (rest := remove_at mode dim) in *.
    assert (Hsize : size_of (shape M) = size_of dim).
    { rewrite Hsh. unfold s, rest. rewrite <- (insert_remove_at 0 dim Hm) at 3.
      unfold insert_at. rewrite size_of_app.
      change (size_of (nth mode dim 0 :: skipn mode (remove_at mode dim)))
        with (nth mode dim 0 * size_of (skipn mode (remove_at mode dim))).
      rewrite <- (firstn_skipn mode (remove_at mode dim)) at 1.
      rewrite size_of_app. unfold size_of. cbn [fold_right]. lia. }
    eexists. split; [exact (@mat2ten_value M dim mode Hm Hsize)|].
    split; [reflexivity|]. split; [apply wf_build|].
    match goal with |- ten2mat ?T _ = _ => set (T0 := T) end.
    assert (HshT : shape T0 = dim) by reflexivity.
    assert (HgetT : forall i ridx, valid (i :: ridx) (s :: rest) ->
              get T0 (insert_at mode i ridx)
              = get M (unravel_F [s; size_of rest] (ravel_F (s :: rest) (i :: ridx)))).
    { intros i ridx Hv.
      assert (Hlen : length rest = length dim - 1).
      { unfold rest, remove_at. rewrite length_app, length_firstn, length_skipn. lia. }
      assert (Hlr : length ridx = length rest).
      { apply valid_length in Hv. cbn [length] in Hv. lia. }
      assert (Hins : valid (insert_at mode i ridx) dim).
      { assert (Hp : i < s /\ valid ridx rest) by (inversion Hv; split; assumption).
        rewrite <- (insert_remove_at 0 dim Hm).
        apply valid_insert_at; [exact (proj2 Hp)|exact (proj1 Hp)]. }
      unfold T0. rewrite (get_build _ Hins).
      rewrite (nth_insert_at 0 i) by lia.
      rewrite remove_insert_at by lia.
      change (insert_at 0 i ridx) with (i :: ridx).
      rewrite (get_build _ Hv). now rewrite Hsh. }
    clearbody T0.
    rewrite (@ten2mat_value T0 mode); [|now rewrite HshT|now rewrite HshT].
    rewrite HshT. fold s rest. f_equal.
    transitivity (build [s; size_of rest] (get M));
      [|rewrite <- Hsh; exact (build_get Hwf)].
    apply build_ext. intros j Hj.
    pose proof (ravel_F_lt Hj) as Hq.
    assert (Hq' : ravel_F [s; size_of rest] j < size_of (s :: rest))
      by (unfold size_of in *; cbn [fold_right] in *; lia).
    pose proof (unravel_F_valid _ Hq') as Hv.
    rewrite (get_build _ Hv).
    destruct (unravel_F (s :: rest) (ravel_F [s; size_of rest] j))
      as [|i ridx] eqn:Ei; [inversion Hv|].
    cbn [nth]. unfold remove_at at 1. cbn [firstn skipn app].
    rewrite (HgetT i ridx Hv). rewrite <- Ei.
    rewrite (ravel_unravel_F _ Hq').
    now rewrite (unravel_ravel_F Hj).
Qed.

  (** *** Rejected arguments *)

(** X3: [ten2mat] raises [AxisError] for a mode that is not an axis of the
    tensor, and [ValueError] for an axis along which the tensor is empty
    (the dimension left to the reshape cannot be inferred). *)
Theorem ten2mat_errors (T : ndarray) (mode : nat) :
    (length (shape T) <= mode -> ten2mat T mode = Error AxisError) /\
    (mode < length (shape T) -> nth mode (shape T) 0 = 0 ->
     ten2mat T mode = Error ValueError).
Proof.
    split.
    - intros Hm. unfold ten2mat, moveaxis.
      destruct (Nat.ltb_spec mode (length (shape T))); [lia|]. reflexivity.
    - intros Hm Hs. unfold ten2mat, moveaxis.
      destruct (Nat.ltb_spec mode (length (shape T))); [|lia].
      destruct (Nat.ltb_spec 0 (length (shape T))); [|lia].
      cbn [andb bind]. rewrite (nth_error_nth' (shape T) 0 Hm).
      cbn [of_option bind]. rewrite Hs.
      unfold reshape_F, fix_unknown_dimension, unknowns, known_size.
      reflexivity.
Qed.

(** X4: [mat2ten] raises [IndexError] for a mode that is not a position of
    [dim], and [ValueError] when the array does not hold as many elements
    as a tensor of shape [dim]. *)
Theorem mat2ten_errors (M : ndarray) (dim : list nat) (mode : nat) :
    (length dim <= mode -> mat2ten M dim mode = Error IndexError) /\
    (mode < length dim -> size_of (shape M) <> size_of dim ->
     mat2ten M dim mode = Error ValueError).
Proof.
    split.
    - intros Hm. unfold mat2ten. cbn [mapM].
      assert (E : nth_error dim mode = None) by (now apply nth_error_None).
      rewrite E. reflexivity.
    - intros Hm Hsize. unfold mat2ten. rewrite (index_dims dim Hm). cbn [bind].
      unfold reshape_F, fix_unknown_dimension.
      rewrite unknowns_of_nat, known_size_of_nat.
      assert (Hsz : size_of (nth mode dim 0 :: remove_at mode dim) = size_of dim).
      { rewrite <- (insert_remove_at 0 dim Hm) at 3.
        unfold insert_at. rewrite size_of_app.
        change (size_of (nth mode dim 0 :: remove_at mode dim))
          with (nth mode dim 0 * size_of (remove_at mode dim)).
        change (size_of (nth mode dim 0 :: skipn mode (remove_at mode dim)))
          with (nth mode dim 0 * size_of (skipn mode (remove_at mode dim))).
        rewrite <- (firstn_skipn mode (remove_at mode dim)) at 1.
        rewrite size_of_app. lia. }
      rewrite Hsz.
      destruct (Nat.eqb_spec (size_of (shape M)) (size_of dim)); [contradiction|].
      reflexivity.
Qed.

  (** *** The unfoldings of a matrix *)

(** X5: for a well-formed two-dimensional array without an empty axis, the
    mode-0 unfolding is the array itself and the mode-1 unfolding is its
    transpose. *)
Theorem ten2mat_of_matrix (T : ndarray) (r c : nat) :
    wf T -> shape T = [r; c] -> r <> 0 -> c <> 0 ->
    ten2mat T 0 = Ok T /\
    ten2mat T 1 = Ok (build [c; r] (fun j => get T [nth 1 j 0; nth 0 j 0])).
Proof.
    intros Hwf Hsh Hr Hc. split.
    - rewrite (@ten2mat_value T 0) by (rewrite Hsh; cbn; lia).
      rewrite Hsh. cbn [nth remove_at firstn skipn app].
      change (size_of [c]) with (c * 1). rewrite Nat.mul_1_r. f_equal.
      transitivity (build [r; c] (get T)); [|rewrite <- Hsh; exact (build_get Hwf)].
      apply build_ext. intros j Hj.
      rewrite (unravel_ravel_F Hj), (get_build _ Hj).
      inversion Hj as [|i0 s0 l0 sh0 Hi0 Hrest]; subst.
      inversion Hrest as [|i1 s1 l1 sh1 Hi1 Hnil]; subst.
      inversion Hnil; subst. reflexivity.
    - rewrite (@ten2mat_value T 1) by (rewrite Hsh; cbn; lia).
      rewrite Hsh. cbn [nth remove_at firstn skipn app].
      change (size_of [r]) with (r * 1). rewrite Nat.mul_1_r. f_equal.
      apply build_ext. intros j Hj.
      rewrite (unravel_ravel_F Hj), (get_build _ Hj).
      inversion Hj as [|i0 s0 l0 sh0 Hi0 Hrest]; subst.
      inversion Hrest as [|i1 s1 l1 sh1 Hi1 Hnil]; subst.
      inversion Hnil; subst. reflexivity.
Qed.

End Ndarray.

Arguments mk_ndarray {A} shape data.

End Tensor.

(** ** Finite sums of reals *)

Module RSum.

Local Open Scope R_scope.

(** [sum_n n f] is [f 0 + ... + f (n-1)]. *)
Fixpoint sum_n (n : nat) (f : nat -> R) : R :=
  match n with
  | O => 0
  | S k => sum_n k f + f k
  end.

(** Kronecker's delta. *)
Definition delta (i j : nat) : R := if Nat.eqb i j then 1 else 0.

Lemma sum_n_ext n f g :
  (forall i, (i < n)%nat -> f i = g i) -> sum_n n f = sum_n n g.
Proof.
  induction n as [|n IH]; intros H; simpl; [reflexivity|].
  rewrite IH by (intros; apply H; lia). rewrite H by lia. reflexivity.
Qed.

Lemma sum_n_zero n f : (forall i, (i < n)%nat -> f i = 0) -> sum_n n f = 0.
Proof.
  induction n as [|n IH]; intros H; simpl; [reflexivity|].
  rewrite IH by (intros; apply H; lia). rewrite H by lia. lra.
Qed.

Lemma sum_n_plus n f g :
  sum_n n (fun i => f i + g i) = sum_n n f + sum_n n g.
Proof. induction n as [|n IH]; simpl; [lra|rewrite IH; lra]. Qed.

Lemma sum_n_minus n f g :
  sum_n n (fun i => f i - g i) = sum_n n f - sum_n n g.
Proof. induction n as [|n IH]; simpl; [lra|rewrite IH; lra]. Qed.

Lemma sum_n_scal_l n c f : sum_n n (fun i => c * f i) = c * sum_n n f.
Proof. induction n as [|n IH]; simpl; [lra|rewrite IH; lra]. Qed.

Lemma sum_n_scal_r n c f : sum_n n (fun i => f i * c) = sum_n n f * c.
Proof. induction n as [|n IH]; simpl; [lra|rewrite IH; lra]. Qed.

Lemma sum_n_swap n m (f : nat -> nat -> R) :
  sum_n n (fun i => sum_n m (fun j => f i j))
  = sum_n m (fun j => sum_n n (fun i => f i j)).
Proof.
  induction n as [|n IH]; simpl.
  - symmetry. now apply sum_n_zero.
  - rewrite IH, <- sum_n_plus. reflexivity.
Qed.

Lemma sum_n_delta_r n j f :
  sum_n n (fun i => f i * delta i j) = if (j <? n)%nat then f j else 0.
Proof.
  induction n as [|n IH]; simpl; [reflexivity|].
  rewrite IH. unfold delta.
  destruct (Nat.eqb_spec n j) as [->|Hne].
  - rewrite Nat.ltb_irrefl.
    destruct (Nat.ltb_spec j (S j)); [lra|lia].
  - destruct (Nat.ltb_spec j n), (Nat.ltb_spec j (S n)); try lia; lra.
Qed.

Lemma sum_n_delta_l n j f :
  sum_n n (fun i => delta i j * f i) = if (j <? n)%nat then f j else 0.
Proof.
  rewrite <- sum_n_delta_r. apply sum_n_ext. intros. lra.
Qed.

Lemma sum_n_nonneg n f : (forall i, (i < n)%nat -> 0 <= f i) -> 0 <= sum_n n f.
Proof.
  induction n as [|n IH]; intros H; simpl; [lra|].
  assert (0 <= sum_n n f) by (apply IH; intros; apply H; lia).
  assert (0 <= f n) by (apply H; lia). lra.
Qed.

Lemma sum_n_nonneg_zero n f :
  (forall i, (i < n)%nat -> 0 <= f i) -> sum_n n f = 0 ->
  forall i, (i < n)%nat -> f i = 0.
Proof.
  induction n as [|n IH]; intros Hpos Hsum i Hi; [lia|].
  simpl in Hsum.
  assert (0 <= sum_n n f) by (apply sum_n_nonneg; intros; apply Hpos; lia).
  assert (0 <= f n) by (apply Hpos; lia).
  destruct (Nat.eq_dec i n) as [->|Hne]; [lra|].
  apply IH; [intros; apply Hpos; lia|lra|lia].
Qed.


End RSum.

(** ** Dense arrays of reals *)

Module Dense.

Import RSum.
Local Open Scope R_scope.

(** A one-dimensional float array. *)
Record vector : Type := mk_vector { vlen : nat; vget : nat -> R }.

(** A two-dimensional float array: [mat.shape = (nrows, ncols)] and
    [mat[i, j] = entry i j]. *)
Record matrix : Type := mk_matrix { nrows : nat; ncols : nat; entry : nat -> nat -> R }.

(** A two-dimensional boolean array, as used for boolean-mask indexing. *)
Record mask : Type := mk_mask { mrows : nat; mcols : nat; mentry : nat -> nat -> bool }.

(** Equality of arrays: same shape, same entries. *)
Definition mat_eq (A B : matrix) : Prop :=
  nrows A = nrows B /\ ncols A = ncols B /\
  forall i j, (i < nrows A)%nat -> (j < ncols A)%nat -> entry A i j = entry B i j.

Definition vec_eq (u v : vector) : Prop :=
  vlen u = vlen v /\ forall i, (i < vlen u)%nat -> vget u i = vget v i.

(** Nested-list view of an array ([mat.tolist()]). *)
Definition to_lists (A : matrix) : list (list R) :=
  map (fun i => map (fun j => entry A i j) (seq 0 (ncols A))) (seq 0 (nrows A)).

Definition to_list (v : vector) : list R := map (vget v) (seq 0 (vlen v)).

Definition of_lists (r c : nat) (l : list (list R)) : matrix :=
  mk_matrix r c (fun i j => nth j (nth i l []) 0).

Definition of_list (l : list R) : vector :=
  mk_vector (length l) (fun i => nth i l 0).

(** [mat.T] *)
Definition transpose (A : matrix) : matrix :=
  mk_matrix (ncols A) (nrows A) (fun i j => entry A j i).

(** [A @ B] *)
Definition matmul (A B : matrix) : matrix :=
  mk_matrix (nrows A) (ncols B)
    (fun i j => sum_n (ncols A) (fun l => entry A i l * entry B l j)).

(** [A @ v] for a one-dimensional [v]. *)
Definition matvec (A : matrix) (v : vector) : vector :=
  mk_vector (nrows A) (fun i => sum_n (ncols A) (fun l => entry A i l * vget v l)).

(** [A + B], [A - B], [c * A], [A / c] *)
Definition mat_add (A B : matrix) : matrix :=
  mk_matrix (nrows A) (ncols A) (fun i j => entry A i j + entry B i j).

Definition mat_sub (A B : matrix) : matrix :=
  mk_matrix (nrows A) (ncols A) (fun i j => entry A i j - entry B i j).

Definition mat_scale (c : R) (A : matrix) : matrix :=
  mk_matrix (nrows A) (ncols A) (fun i j => c * entry A i j).

Definition mat_div (A : matrix) (c : R) : matrix :=
  mk_matrix (nrows A) (ncols A) (fun i j => entry A i j / c).

(** [np.zeros((r, c))] *)
Definition zeros (r c : nat) : matrix := mk_matrix r c (fun _ _ => 0).

(** [np.diag(v)] for a one-dimensional [v]. *)
Definition diag (v : vector) : matrix :=
  mk_matrix (vlen v) (vlen v) (fun i j => if Nat.eqb i j then vget v i else 0).

(** [A[:, :k]] and [A[:k, :]] *)
Definition cols_upto (A : matrix) (k : nat) : matrix :=
  mk_matrix (nrows A) (Nat.min k (ncols A)) (entry A).

Definition rows_upto (A : matrix) (k : nat) : matrix :=
  mk_matrix (Nat.min k (nrows A)) (ncols A) (entry A).

(** [A[m, :]] and [v[k:]] *)
Definition row (A : matrix) (m : nat) : vector :=
  mk_vector (ncols A) (fun j => entry A m j).

Definition vec_from (v : vector) (k : nat) : vector :=
  mk_vector (vlen v - k) (fun i => vget v (k + i)).

(** The matrix whose rows are the vectors [f 0 .. f (r-1)]. *)
Definition of_rows (r c : nat) (f : nat -> vector) : matrix :=
  mk_matrix r c (fun i j => vget (f i) j).

(** [np.linalg.norm(A, 'fro')] *)
Definition frobenius (A : matrix) : R :=
  sqrt (sum_n (nrows A) (fun i => sum_n (ncols A) (fun j => entry A i j * entry A i j))).

(** The entries of [A] in row-major order. *)
Definition flatten (A : matrix) : list R := concat (to_lists A).

(** [x != 0] on floats. *)
Definition nonzero (x : R) : bool := if Req_dec_T x 0 then false else true.

(** [A[A != 0]]: the nonzero entries, in row-major order. *)
Definition select_nonzero (A : matrix) : list R := filter nonzero (flatten A).

Definition list_sum (l : list R) : R := fold_right Rplus 0 l.

(** A boolean index must have the shape of the array it indexes. *)
Definition same_shape (A : matrix) (m : mask) : bool :=
  Nat.eqb (mrows m) (nrows A) && Nat.eqb (mcols m) (ncols A).

(** [A[m] = c] and [A[m] = B[m]] for a boolean mask [m]: the entries where
    the mask holds are replaced, the others are kept. *)
Definition mask_fill (A : matrix) (m : mask) (c : R) : matrix :=
  mk_matrix (nrows A) (ncols A) (fun i j => if mentry m i j then c else entry A i j).

Definition mask_assign (A : matrix) (m : mask) (B : matrix) : matrix :=
  mk_matrix (nrows A) (ncols A)
    (fun i j => if mentry m i j then entry B i j else entry A i j).

(** *** Sums over the entries of an array *)

Lemma list_sum_app l1 l2 : list_sum (l1 ++ l2) = list_sum l1 + list_sum l2.
Proof.
  induction l1 as [|x l1 IH]; simpl; [lra|]. rewrite IH. lra.
Qed.

Lemma list_sum_map_seq (f : nat -> R) n : list_sum (map f (seq 0 n)) = sum_n n f.
Proof.
  induction n as [|n IH]; [reflexivity|].
  rewrite seq_S, map_app, list_sum_app, IH. simpl. lra.
Qed.

Lemma list_sum_map_concat (g : R -> R) (ls : list (list R)) :
  list_sum (map g (concat ls)) = list_sum (map (fun l => list_sum (map g l)) ls).
Proof.
  induction ls as [|l ls IH]; [reflexivity|].
  simpl. rewrite map_app, list_sum_app, IH. reflexivity.
Qed.

Lemma flatten_sum (g : R -> R) (A : matrix) :
  list_sum (map g (flatten A))
  = sum_n (nrows A) (fun i => sum_n (ncols A) (fun j => g (entry A i j))).
Proof.
  unfold flatten, to_lists. rewrite list_sum_map_concat, map_map.
  rewrite list_sum_map_seq. apply sum_n_ext. intros i Hi.
  rewrite map_map. apply list_sum_map_seq.
Qed.

Lemma in_flatten (A : matrix) x :
  In x (flatten A) ->
  exists i j, (i < nrows A)%nat /\ (j < ncols A)%nat /\ x = entry A i j.
Proof.
  unfold flatten, to_lists. intros H. apply in_concat in H.
  destruct H as [l [Hl Hx]]. apply in_map_iff in Hl. destruct Hl as [i [<- Hi]].
  apply in_map_iff in Hx. destruct Hx as [j [<- Hj]].
  apply in_seq in Hi. apply in_seq in Hj. exists i, j. repeat split; lia.
Qed.

Lemma nonzero_false x : nonzero x = false -> x = 0.
Proof. unfold nonzero. now destruct (Req_dec_T x 0). Qed.

Lemma nonzero_true x : nonzero x = true -> x <> 0.
Proof. unfold nonzero. now destruct (Req_dec_T x 0). Qed.

Lemma filter_nonzero_sum l : list_sum (filter nonzero l) = list_sum (map (fun x => x) l).
Proof.
  induction l as [|x l IH]; [reflexivity|].
  simpl. destruct (nonzero x) eqn:E; simpl; rewrite IH; [reflexivity|].
  rewrite (nonzero_false _ E). lra.
Qed.

Lemma filter_nonzero_length l :
  INR (length (filter nonzero l))
  = list_sum (map (fun x => if nonzero x then 1 else 0) l).
Proof.
  induction l as [|x l IH]; [reflexivity|].
  cbn [filter map list_sum fold_right]. destruct (nonzero x).
  - cbn [length]. rewrite S_INR. fold (list_sum (map (fun x => if nonzero x then 1 else 0) l)).
    rewrite IH. lra.
  - fold (list_sum (map (fun x => if nonzero x then 1 else 0) l)). rewrite IH. lra.
Qed.

End Dense.

(** ** Sparse lag operators: [generate_Psi] *)

Module Lag.

Import RSum Dense.
Local Open Scope Z_scope.

(** A SciPy matrix in coordinate format: [data[k]] sits at
    [(row[k], col[k])]; entries listed twice add up. *)
Record coo : Type := mk_coo {
  coo_data : list R;
  coo_row : list Z;
  coo_col : list Z;
  coo_shape : Z * Z
}.

(** [np.arange(0, n)] *)
Definition arange (n : Z) : list Z := map Z.of_nat (seq 0 (Z.to_nat n)).

(** [np.ones(n)]: a negative length is refused. *)
Definition ones (n : Z) : result (list R) :=
  if n <? 0 then Error ValueError else Ok (repeat 1%R (Z.to_nat n)).

(** [np.max(l)]: an empty array has no maximum. *)
Definition np_max (l : list Z) : result Z :=
  match l with
  | [] => Error ValueError
  | a :: l' => Ok (fold_left Z.max l' a)
  end.

(** [sparse.coo_matrix((data, (row, col)), shape = shape)] with the checks
    of its constructor: a shape without negative entries, index arrays as
    long as the data, and, when there is an entry at all, indices inside
    the shape. *)
Definition in_range (bound : Z) (l : list Z) : bool :=
  forallb (fun x => (0 <=? x) && (x <? bound)) l.

Definition coo_matrix (data : list R) (row col : list Z) (shape : Z * Z)
  : result coo :=
  let '(r, c) := shape in
  if (r <? 0) || (c <? 0) then Error ValueError
  else if negb (Nat.eqb (length row) (length data) && Nat.eqb (length col) (length data))
  then Error ValueError
  else if in_range r row && in_range c col then Ok (mk_coo data row col shape)
  else Error ValueError.

(** [Psi.toarray()] *)
Definition coo_entry (P : coo) (i j : nat) : R :=
  fold_right
    (fun '(v, (r, c)) acc =>
       if (r =? Z.of_nat i) && (c =? Z.of_nat j) then (v + acc)%R else acc)
    0%R (combine (coo_data P) (combine (coo_row P) (coo_col P))).

Definition toarray (P : coo) : matrix :=
  mk_matrix (Z.to_nat (fst (coo_shape P))) (Z.to_nat (snd (coo_shape P))) (coo_entry P).

(** One pass of the loop of [generate_Psi]. *)
Definition Psi_at (dim_time : Z) (time_lags : list Z) (max_lag : Z) (i : nat)
  : result coo :=
  let row := arange (dim_time - max_lag) in
  let col :=
    if Nat.eqb i 0 then map (fun r => r + max_lag) (arange (dim_time - max_lag))
    else map (fun r => r + max_lag - nth (i - 1) time_lags 0)
             (arange (dim_time - max_lag)) in
  data <- ones (dim_time - max_lag) ;;
  coo_matrix data row col (dim_time - max_lag, dim_time).

Definition generate_Psi (dim_time : Z) (time_lags : list Z) : result (list coo) :=
  max_lag <- np_max time_lags ;;
  mapM (Psi_at dim_time time_lags max_lag) (seq 0 (length time_lags + 1)).

(** The offset of the columns selected by the [i]-th operator. *)
Definition offset (time_lags : list Z) (max_lag : Z) (i : nat) : Z :=
  if Nat.eqb i 0 then max_lag else max_lag - nth (i - 1) time_lags 0.

(** A 0/1 matrix whose row [r] has its only nonzero at column [r + off]. *)
Definition selects (P : matrix) (off : Z) : Prop :=
  forall r c, (r < nrows P)%nat -> (c < ncols P)%nat ->
    entry P r c = if Z.of_nat c =? Z.of_nat r + off then 1%R else 0%R.

Definition Psi_dflt : coo := mk_coo [] [] [] (0, 0).

(** *** Properties of the construction *)

Lemma fold_max_ge_init l : forall a, a <= fold_left Z.max l a.
Proof.
  induction l as [|b l IH]; intros a; simpl; [lia|].
  specialize (IH (Z.max a b)). lia.
Qed.

Lemma np_max_upper l : forall a x, In x (a :: l) -> x <= fold_left Z.max l a.
Proof.
  induction l as [|b l IH]; intros a x Hx.
  - destruct Hx as [Hx|[]]. simpl. lia.
  - cbn [fold_left]. destruct Hx as [Hx|[Hx|Hx]].
    + pose proof (fold_max_ge_init l (Z.max a b)). lia.
    + pose proof (fold_max_ge_init l (Z.max a b)). lia.
    + apply IH. now right.
Qed.

Lemma np_max_in l a : In (fold_left Z.max l a) (a :: l).
Proof.
  revert a. induction l as [|b l IH]; intros a; simpl.
  - now left.
  - destruct (IH (Z.max a b)) as [H|H].
    + rewrite <- H. destruct (Z.max_spec a b) as [[_ ->]|[_ ->]]; auto.
    + right. now right.
Qed.

Lemma mapM_ok {A B : Type} (f : A -> result B) (g : A -> B) l :
  (forall a, In a l -> f a = Ok (g a)) -> mapM f l = Ok (map g l).
Proof.
  induction l as [|a l IH]; intros H; [reflexivity|].
  cbn [mapM map]. rewrite (H a) by now left. cbn [bind].
  rewrite IH by (intros; apply H; now right). reflexivity.
Qed.

Lemma in_range_shifted bound n off :
  0 <= off -> off + n <= bound ->
  in_range bound (map (fun r => r + off) (arange n)) = true.
Proof.
  intros H0 Hb. unfold in_range, arange. apply forallb_forall.
  intros x Hx. apply in_map_iff in Hx. destruct Hx as [r [<- Hr]].
  apply in_map_iff in Hr. destruct Hr as [k [<- Hk]]. apply in_seq in Hk.
  apply andb_true_iff. split; [apply Z.leb_le|apply Z.ltb_lt]; lia.
Qed.

Lemma coo_entry_shifted (off : Z) (m a : nat) (i j : nat) (sh : Z * Z) :
  coo_entry (mk_coo (repeat 1%R m)
                    (map Z.of_nat (seq a m))
                    (map (fun r => r + off) (map Z.of_nat (seq a m))) sh) i j
  = if ((a <=? i)%nat && (i <? a + m)%nat) && (Z.of_nat j =? Z.of_nat i + off)
    then 1%R else 0%R.
Proof.
  unfold coo_entry. cbn [coo_data coo_row coo_col].
  revert a. induction m as [|m IH]; intros a.
  - cbn [repeat seq map combine fold_right].
    destruct (Nat.leb_spec a i), (Nat.ltb_spec i (a + 0)); try reflexivity; lia.
  - cbn [repeat seq map combine fold_right]. rewrite (IH (S a)).
    destruct (Z.eqb_spec (Z.of_nat a) (Z.of_nat i)) as [Hai|Hai].
    + assert (a = i) by lia. subst a.
      destruct (Nat.leb_spec (S i) i); [lia|].
      destruct (Nat.leb_spec i i); [|lia].
      destruct (Nat.ltb_spec i (i + S m)); [|lia].
      cbn [andb].
      destruct (Z.eqb_spec (Z.of_nat i + off) (Z.of_nat j)),
               (Z.eqb_spec (Z.of_nat j) (Z.of_nat i + off)); try lia;
        [apply Rplus_0_r|reflexivity].
    + cbn [andb].
      destruct (Nat.leb_spec (S a) i), (Nat.leb_spec a i),
               (Nat.ltb_spec i (S a + m)), (Nat.ltb_spec i (a + S m));
        try lia; reflexivity.
Qed.

Lemma Psi_at_ok dim_time time_lags max_lag i :
  0 <= offset time_lags max_lag i ->
  offset time_lags max_lag i + (dim_time - max_lag) <= dim_time ->
  0 <= dim_time - max_lag ->
  0 <= dim_time ->
  Psi_at dim_time time_lags max_lag i
  = Ok (mk_coo (repeat 1%R (Z.to_nat (dim_time - max_lag)))
               (arange (dim_time - max_lag))
               (map (fun r => r + offset time_lags max_lag i)
                    (arange (dim_time - max_lag)))
               (dim_time - max_lag, dim_time)).
Proof.
  intros Hoff Hfit Hn Hd. unfold Psi_at, ones.
  destruct (Z.ltb_spec (dim_time - max_lag) 0); [lia|]. cbn [bind].
  assert (Hcol : (if Nat.eqb i 0
                  then map (fun r => r + max_lag) (arange (dim_time - max_lag))
                  else map (fun r => r + max_lag - nth (i - 1) time_lags 0)
                           (arange (dim_time - max_lag)))
                 = map (fun r => r + offset time_lags max_lag i)
                       (arange (dim_time - max_lag))).
  { unfold offset. destruct (Nat.eqb i 0); [reflexivity|].
    apply map_ext. intros r. lia. }
  rewrite Hcol. unfold coo_matrix.
  destruct (Z.ltb_spec (dim_time - max_lag) 0); [lia|].
  destruct (Z.ltb_spec dim_time 0); [lia|]. cbn [orb].
  unfold arange at 1 2. rewrite !length_map, !length_seq, repeat_length.
  rewrite Nat.eqb_refl. cbn [andb negb].
  replace (in_range (dim_time - max_lag) (arange (dim_time - max_lag))) with true.
  - rewrite in_range_shifted by assumption. reflexivity.
  - symmetry. rewrite <- (map_id (arange (dim_time - max_lag))).
    rewrite (map_ext (fun x => x) (fun r => r + 0)) by (intros; lia).
    apply in_range_shifted; lia.
Qed.

(** With every lag between 0 and the number of columns all the operators
    are built; a lag equal to the number of columns gives operators without
    rows. *)
Lemma generate_Psi_accepts cols lags :
  lags <> [] -> (forall l, In l lags -> 0 <= l <= cols) ->
  exists Psis, generate_Psi cols lags = Ok Psis.
Proof.
  intros Hne Hlags. destruct lags as [|a L']; [contradiction|].
  set (L := a :: L') in *. set (max_lag := fold_left Z.max L' a).
  assert (Hin : In max_lag L) by apply np_max_in.
  assert (Hup : forall x, In x L -> x <= max_lag) by apply np_max_upper.
  pose proof (Hlags _ Hin) as Hmlr.
  eexists. unfold generate_Psi. cbn [np_max L bind]. fold max_lag. fold L.
  eapply mapM_ok. intros i Hi. apply in_seq in Hi.
  apply Psi_at_ok; try lia.
  - unfold offset. destruct (Nat.eqb_spec i 0); [lia|].
    assert (Hnth : In (nth (i - 1) L 0) L) by (apply nth_In; lia).
    pose proof (Hup _ Hnth). lia.
  - unfold offset. destruct (Nat.eqb_spec i 0); [lia|].
    assert (Hnth : In (nth (i - 1) L 0) L) by (apply nth_In; lia).
    pose proof (Hlags _ Hnth). lia.
Qed.

(** C4: for lags that are positive and strictly below [cols],
    [generate_Psi] returns [d + 1] operators of shape
    [(cols - max_lag) x cols]; operator 0 selects the columns
    [max_lag, cols) and operator [i >= 1] the columns
    [max_lag - l_i, cols - l_i); each is a 0/1 matrix with exactly one
    nonzero in every row.  For [cols = 5] and lags [1; 3] the three
    operators are the 2 x 5 matrices printed in the notebook. *)
Theorem generate_Psi_selection :
  (forall (cols : Z) (L : list Z) (max_lag : Z),
     np_max L = Ok max_lag ->
     (forall l, In l L -> 0 < l < cols) ->
     exists Psis,
       generate_Psi cols L = Ok Psis /\
       length Psis = S (length L) /\
       forall i, (i <= length L)%nat ->
         let P := nth i Psis Psi_dflt in
         let off := offset L max_lag i in
         coo_shape P = (cols - max_lag, cols) /\
         off = (if Nat.eqb i 0 then max_lag else max_lag - nth (i - 1) L 0) /\
         0 <= off /\ off + (cols - max_lag) <= cols /\
         selects (toarray P) off /\
         (forall r, (r < nrows (toarray P))%nat ->
            exists c, (c < ncols (toarray P))%nat /\ Z.of_nat c = Z.of_nat r + off /\
              entry (toarray P) r c = 1%R /\
              forall c', (c' < ncols (toarray P))%nat ->
                entry (toarray P) r c' <> 0%R -> c' = c)) /\
  (exists P0 P1 P2,
     generate_Psi 5 [1; 3] = Ok [P0; P1; P2] /\
     to_lists (toarray P0) = [[0; 0; 0; 1; 0]; [0; 0; 0; 0; 1]]%R /\
     to_lists (toarray P1) = [[0; 0; 1; 0; 0]; [0; 0; 0; 1; 0]]%R /\
     to_lists (toarray P2) = [[1; 0; 0; 0; 0]; [0; 1; 0; 0; 0]]%R).
Proof.
  split.
  - intros cols L max_lag Hmax Hlags.
    destruct L as [|a L']; [discriminate|]. set (L := a :: L') in *.
    assert (Hml : max_lag = fold_left Z.max L' a) by (cbn in Hmax; congruence).
    assert (Hin : In max_lag L) by (rewrite Hml; apply np_max_in).
    assert (Hup : forall x, In x L -> x <= max_lag)
      by (rewrite Hml; apply np_max_upper).
    pose proof (Hlags _ Hin) as Hmlr.
    assert (Hoff : forall i, (i <= length L)%nat ->
              0 <= offset L max_lag i /\ offset L max_lag i + (cols - max_lag) <= cols).
    { intros i Hi. unfold offset. destruct (Nat.eqb_spec i 0); [lia|].
      assert (Hnth : In (nth (i - 1) L 0) L) by (apply nth_In; lia).
      pose proof (Hlags _ Hnth). pose proof (Hup _ Hnth). lia. }
    set (g := fun i => mk_coo (repeat 1%R (Z.to_nat (cols - max_lag)))
               (arange (cols - max_lag))
               (map (fun r => r + offset L max_lag i) (arange (cols - max_lag)))
               (cols - max_lag, cols)).
    exists (map g (seq 0 (length L + 1))).
    split; [|split].
    + unfold generate_Psi. rewrite Hmax. cbn [bind].
      apply mapM_ok. intros i Hi. apply in_seq in Hi.
      destruct (Hoff i) as [H1 H2]; [lia|].
      apply Psi_at_ok; lia.
    + rewrite length_map, length_seq. lia.
    + intros i Hi P off.
      assert (HP : P = g i).
      { unfold P. rewrite (nth_indep _ Psi_dflt (g 0%nat))
          by (rewrite length_map, length_seq; lia).
        rewrite (map_nth g (seq 0 (length L + 1)) 0%nat).
        rewrite seq_nth by lia. reflexivity. }
      destruct (Hoff i Hi) as [H1 H2]. fold off in H1, H2.
      assert (Hsel : selects (toarray P) off).
      { rewrite HP. unfold g. intros r c Hr Hc.
        cbn [toarray coo_shape fst snd nrows ncols entry] in *.
        unfold arange. rewrite coo_entry_shifted.
        destruct (Nat.leb_spec 0 r); [|lia].
        destruct (Nat.ltb_spec r (0 + Z.to_nat (cols - max_lag))); [|lia].
        reflexivity. }
      split; [now rewrite HP|]. split; [reflexivity|].
      split; [exact H1|]. split; [exact H2|]. split; [exact Hsel|].
      intros r Hr.
      assert (Hdims : nrows (toarray P) = Z.to_nat (cols - max_lag) /\
                      ncols (toarray P) = Z.to_nat cols) by (now rewrite HP).
      destruct Hdims as [Hnr Hnc].
      exists (Z.to_nat (Z.of_nat r + off)).
      assert (Hc : (Z.to_nat (Z.of_nat r + off) < ncols (toarray P))%nat) by lia.
      split; [exact Hc|]. split; [lia|]. split.
      * rewrite (Hsel _ _ Hr Hc).
        destruct (Z.eqb_spec (Z.of_nat (Z.to_nat (Z.of_nat r + off)))
                             (Z.of_nat r + off)); [reflexivity|lia].
      * intros c' Hc' Hnz. rewrite (Hsel _ _ Hr Hc') in Hnz.
        destruct (Z.eqb_spec (Z.of_nat c') (Z.of_nat r + off)); [lia|].
        now contradiction Hnz.
  - do 3 eexists. split; [reflexivity|].
    unfold to_lists, toarray, coo_entry; simpl.
    repeat split; repeat (f_equal; try apply Rplus_0_r).
Qed.

Lemma generate_Psi_selection_witness :
  exists Psis, generate_Psi 5 [1; 3] = Ok Psis /\ length Psis = 3%nat /\
    selects (toarray (nth 1 Psis Psi_dflt)) 2.
Proof.
  destruct (proj1 generate_Psi_selection 5 [1; 3] 3 eq_refl) as [Psis [H1 [H2 H3]]].
  - intros l [<-|[<-|[]]]; lia.
  - exists Psis. split; [exact H1|]. split; [exact H2|].
    exact (proj1 (proj2 (proj2 (proj2 (proj2 (H3 1%nat (le_S _ _ (le_n 1))))))) ).
Defined.


(** *** Which lags [generate_Psi] accepts *)

Lemma mapM_In_ok {A B : Type} (f : A -> result B) l : forall bs,
  mapM f l = Ok bs -> forall a, In a l -> exists b, f a = Ok b.
Proof.
  induction l as [|x l IH]; intros bs H a Ha; [contradiction|].
  cbn [mapM] in H. destruct (f x) as [b|e] eqn:E; cbn [bind] in H; [|discriminate].
  destruct (mapM f l) as [bs'|e] eqn:E2; cbn [bind] in H; [|discriminate].
  destruct Ha as [<-|Ha]; [eauto|]. exact (IH bs' eq_refl a Ha).
Qed.

Lemma mapM_error {A B : Type} (f : A -> result B) l e :
  mapM f l = Error e -> exists a, In a l /\ f a = Error e.
Proof.
  induction l as [|x l IH]; intros H; [discriminate|].
  cbn [mapM] in H. destruct (f x) as [b|e'] eqn:E; cbn [bind] in H.
  - destruct (mapM f l) as [bs'|e'] eqn:E2; cbn [bind] in H; [discriminate|].
    injection H as ->. destruct (IH eq_refl) as [a [Ha Hf]].
    exists a. split; [now right|exact Hf].
  - injection H as ->. exists x. split; [now left|exact E].
Qed.

Lemma mapM_map {A B : Type} (f : A -> result B) (g : A -> B) l : forall bs,
  mapM f l = Ok bs -> (forall a b, In a l -> f a = Ok b -> b = g a) ->
  bs = map g l.
Proof.
  induction l as [|x l IH]; intros bs H Hg.
  - cbn in H. now injection H as <-.
  - cbn [mapM] in H. destruct (f x) as [b|e] eqn:E; cbn [bind] in H; [|discriminate].
    destruct (mapM f l) as [bs'|e] eqn:E2; cbn [bind] in H; [|discriminate].
    injection H as <-. cbn [map]. f_equal.
    + apply Hg; [now left|exact E].
    + apply IH; [reflexivity|]. intros a b' Ha. apply Hg. now right.
Qed.

Lemma Psi_at_col dim_time time_lags max_lag i :
  (if Nat.eqb i 0
   then map (fun r => r + max_lag) (arange (dim_time - max_lag))
   else map (fun r => r + max_lag - nth (i - 1) time_lags 0)
            (arange (dim_time - max_lag)))
  = map (fun r => r + offset time_lags max_lag i) (arange (dim_time - max_lag)).
Proof.
  unfold offset. destruct (Nat.eqb i 0); [reflexivity|].
  apply map_ext. intros r. lia.
Qed.

(** What a pass of the loop has checked when it returns an operator. *)
Lemma Psi_at_inv dim_time time_lags max_lag i P :
  Psi_at dim_time time_lags max_lag i = Ok P ->
  0 <= dim_time - max_lag /\ 0 <= dim_time /\
  P = mk_coo (repeat 1%R (Z.to_nat (dim_time - max_lag)))
             (arange (dim_time - max_lag))
             (map (fun r => r + offset time_lags max_lag i)
                  (arange (dim_time - max_lag)))
             (dim_time - max_lag, dim_time) /\
  in_range dim_time
    (map (fun r => r + offset time_lags max_lag i) (arange (dim_time - max_lag)))
  = true.
Proof.
  unfold Psi_at, ones. rewrite Psi_at_col.
  destruct (Z.ltb_spec (dim_time - max_lag) 0); [discriminate|]. cbn [bind].
  unfold coo_matrix.
  destruct (Z.ltb_spec (dim_time - max_lag) 0); [lia|].
  destruct (Z.ltb_spec dim_time 0); [discriminate|]. cbn [orb].
  destruct (negb _); [discriminate|].
  destruct (in_range (dim_time - max_lag) _); [|discriminate]. cbn [andb].
  destruct (in_range dim_time _) eqn:E; [|discriminate].
  intros Heq. injection Heq as <-. repeat split; assumption.
Qed.

Lemma Psi_at_error dim_time time_lags max_lag i e :
  Psi_at dim_time time_lags max_lag i = Error e -> e = ValueError.
Proof.
  unfold Psi_at, ones.
  destruct (dim_time - max_lag <? 0); cbn [bind]; [congruence|].
  unfold coo_matrix.
  destruct (_ || _); [congruence|]. destruct (negb _); [congruence|].
  destruct (_ && _); [discriminate|congruence].
Qed.

Lemma Psi_at_empty dim_time time_lags i :
  0 <= dim_time ->
  Psi_at dim_time time_lags dim_time i = Ok (mk_coo [] [] [] (0, dim_time)).
Proof.
  intros Hd. unfold Psi_at. rewrite Psi_at_col, Z.sub_diag.
  cbn [ones arange Z.to_nat seq map repeat Z.ltb Z.compare bind].
  unfold coo_matrix. destruct (Z.ltb_spec dim_time 0); [lia|]. reflexivity.
Qed.

Lemma in_range_last bound n off :
  0 < n -> in_range bound (map (fun r => r + off) (arange n)) = true ->
  0 <= off /\ n - 1 + off < bound.
Proof.
  intros Hn H. unfold in_range in H. rewrite forallb_forall in H.
  assert (Hin : forall k, (k < Z.to_nat n)%nat ->
            In (Z.of_nat k + off) (map (fun r => r + off) (arange n))).
  { intros k Hk. apply in_map_iff. exists (Z.of_nat k). split; [reflexivity|].
    unfold arange. apply in_map_iff. exists k. split; [reflexivity|].
    apply in_seq. lia. }
  pose proof (H _ (Hin 0%nat ltac:(lia))) as H0.
  pose proof (H _ (Hin (Z.to_nat (n - 1)) ltac:(lia))) as H1.
  apply andb_true_iff in H0, H1. destruct H0 as [H0 _], H1 as [_ H1].
  apply Z.leb_le in H0. apply Z.ltb_lt in H1. lia.
Qed.

(** The operators that a successful call returns. *)
Lemma generate_Psi_value cols lags ml Psis :
  np_max lags = Ok ml -> generate_Psi cols lags = Ok Psis ->
  0 <= cols - ml /\ 0 <= cols /\
  Psis = map (fun i => mk_coo (repeat 1%R (Z.to_nat (cols - ml)))
                         (arange (cols - ml))
                         (map (fun r => r + offset lags ml i) (arange (cols - ml)))
                         (cols - ml, cols))
             (seq 0 (length lags + 1)) /\
  (0 < cols - ml -> forall i, (i <= length lags)%nat ->
     0 <= offset lags ml i /\ offset lags ml i + (cols - ml) <= cols).
Proof.
  intros Hmax H. unfold generate_Psi in H. rewrite Hmax in H. cbn [bind] in H.
  destruct (mapM_In_ok _ _ H 0%nat) as [P0 HP0]; [apply in_seq; lia|].
  destruct (Psi_at_inv _ _ _ _ HP0) as (Hn & Hc & _ & _).
  split; [exact Hn|]. split; [exact Hc|]. split.
  - apply (mapM_map _ _ _ H). intros i P _ HP.
    now destruct (Psi_at_inv _ _ _ _ HP) as (_ & _ & -> & _).
  - intros Hpos i Hi.
    destruct (mapM_In_ok _ _ H i) as [P HP]; [apply in_seq; lia|].
    destruct (Psi_at_inv _ _ _ _ HP) as (_ & _ & _ & Hr).
    pose proof (in_range_last _ _ Hpos Hr). lia.
Qed.

(** X6: for a non-negative [dim_time], [generate_Psi] returns operators
    exactly when there is a lag, none exceeds [dim_time], and either the
    largest lag equals [dim_time] (the operators then have no row) or no
    lag is negative; whenever it fails it raises [ValueError]. *)
Theorem generate_Psi_accepts_iff cols lags :
  0 <= cols ->
  ((exists Psis, generate_Psi cols lags = Ok Psis) <->
   (exists max_lag, np_max lags = Ok max_lag /\ max_lag <= cols /\
      (max_lag = cols \/ forall l, In l lags -> 0 <= l))) /\
  (forall e, generate_Psi cols lags = Error e -> e = ValueError).
Proof.
  intros Hcols. split; [split|].
  - intros [Psis H].
    destruct (np_max lags) as [ml|e] eqn:Hmax;
      [|unfold generate_Psi in H; rewrite Hmax in H; discriminate].
    destruct (generate_Psi_value _ _ Hmax H) as (Hn & _ & _ & Hoff).
    exists ml. split; [reflexivity|]. split; [lia|].
    destruct (Z.eq_dec ml cols) as [E|E]; [now left|right].
    intros l Hl. destruct (In_nth _ _ 0 Hl) as [k [Hk Hnth]].
    destruct (Hoff ltac:(lia) (S k) ltac:(lia)) as [_ H2].
    unfold offset in H2. cbn [Nat.eqb] in H2.
    replace (S k - 1)%nat with k in H2 by lia. rewrite Hnth in H2. lia.
  - intros (ml & Hmax & Hle & Hcase).
    destruct Hcase as [->|Hpos].
    + eexists. unfold generate_Psi. rewrite Hmax. cbn [bind].
      apply (mapM_ok _ (fun _ => mk_coo [] [] [] (0, cols))).
      intros i _. now apply Psi_at_empty.
    + apply generate_Psi_accepts.
      * intros ->. discriminate.
      * intros l Hl. split; [now apply Hpos|].
        destruct lags as [|a L']; [contradiction|]. cbn in Hmax. injection Hmax as <-.
        pose proof (@np_max_upper L' a l Hl). lia.
  - intros e H. unfold generate_Psi in H.
    destruct lags as [|a L']; [cbn in H; congruence|].
    cbn [np_max bind] in H. destruct (mapM_error _ _ H) as [i [_ Hi]].
    exact (Psi_at_error _ _ _ _ Hi).
Qed.

(** *** The operators as windows of a series *)

Lemma Psi_shape cols lags ml Psis i :
  np_max lags = Ok ml -> generate_Psi cols lags = Ok Psis ->
  (i <= length lags)%nat ->
  nrows (toarray (nth i Psis Psi_dflt)) = Z.to_nat (cols - ml) /\
  ncols (toarray (nth i Psis Psi_dflt)) = Z.to_nat cols.
Proof.
  intros Hmax H Hi.
  destruct (generate_Psi_value _ _ Hmax H) as (_ & _ & -> & _).
  match goal with |- context [map ?f _] => set (g := f) end.
  rewrite (nth_indep _ Psi_dflt (g 0%nat)) by (rewrite length_map, length_seq; lia).
  rewrite (map_nth g (seq 0 (length lags + 1)) 0%nat), seq_nth by lia.
  split; reflexivity.
Qed.

Lemma Psi_matvec cols lags ml Psis i (z : vector) t :
  np_max lags = Ok ml -> generate_Psi cols lags = Ok Psis ->
  (i <= length lags)%nat -> (t < Z.to_nat (cols - ml))%nat ->
  0 <= Z.of_nat t + offset lags ml i < cols /\
  vget (matvec (toarray (nth i Psis Psi_dflt)) z) t
  = vget z (Z.to_nat (Z.of_nat t + offset lags ml i)).
Proof.
  intros Hmax H Hi Ht.
  destruct (generate_Psi_value _ _ Hmax H) as (Hn & Hc & -> & Hoff).
  destruct (Hoff ltac:(lia) i Hi) as [H1 H2].
  split; [lia|].
  match goal with |- context [map ?f _] => set (g := f) end.
  rewrite (nth_indep _ Psi_dflt (g 0%nat)) by (rewrite length_map, length_seq; lia).
  rewrite (map_nth g (seq 0 (length lags + 1)) 0%nat), seq_nth by lia.
  cbn [Nat.add g matvec vget toarray coo_shape fst snd nrows ncols entry].
  unfold arange.
  rewrite (@sum_n_ext _ _
             (fun j => (delta j (Z.to_nat (Z.of_nat t + offset lags ml i))
                        * vget z j)%R)).
  - rewrite sum_n_delta_l.
    destruct (Nat.ltb_spec (Z.to_nat (Z.of_nat t + offset lags ml i)) (Z.to_nat cols));
      [reflexivity|lia].
  - intros j Hj. unfold g, arange. rewrite coo_entry_shifted. unfold delta.
    destruct (Nat.leb_spec 0 t); [|lia].
    destruct (Nat.ltb_spec t (0 + Z.to_nat (cols - ml))); [|lia]. cbn [andb].
    destruct (Z.eqb_spec (Z.of_nat j) (Z.of_nat t + offset lags ml i)),
             (Nat.eqb_spec j (Z.to_nat (Z.of_nat t + offset lags ml i)));
      try lia; reflexivity.
Qed.

(** X7: applied to a series [z] of length [dim_time], operator [i] of
    [generate_Psi] returns the window of [z] that starts at its offset:
    entry [t] of [Psi_0 z] is [z[t + max_lag]] and entry [t] of [Psi_i z]
    is [z[t + max_lag - time_lags[i - 1]]], for every [t] below
    [dim_time - max_lag]; the positions read lie inside [z]. *)
Theorem Psi_applies_as_shift cols lags max_lag Psis i (z : vector) :
  np_max lags = Ok max_lag -> generate_Psi cols lags = Ok Psis ->
  (i <= length lags)%nat -> vlen z = Z.to_nat cols ->
  let P := toarray (nth i Psis Psi_dflt) in
  ncols P = vlen z /\
  vlen (matvec P z) = Z.to_nat (cols - max_lag) /\
  forall t, (t < Z.to_nat (cols - max_lag))%nat ->
    (Z.to_nat (Z.of_nat t + offset lags max_lag i) < vlen z)%nat /\
    vget (matvec P z) t = vget z (Z.to_nat (Z.of_nat t + offset lags max_lag i)).
Proof.
  intros Hmax H Hi Hz P.
  destruct (Psi_shape _ _ Hmax H Hi) as [Hr Hc].
  split; [unfold P; now rewrite Hc|]. split; [exact Hr|].
  intros t Ht.
  destruct (@Psi_matvec cols lags max_lag Psis i z t Hmax H Hi Ht) as [Hb Hv].
  split; [lia|exact Hv].
Qed.

End Lag.

(** ** Singular value decompositions *)

Module Spectral.

Import RSum Dense.
Local Open Scope R_scope.

(** [np.sum(s > tau)] *)
Definition gt_bool (tau x : R) : bool := if Rlt_dec tau x then true else false.

Definition count_gt (s : vector) (tau : R) : nat :=
  length (filter (fun i => gt_bool tau (vget s i)) (seq 0 (vlen s))).

Definition orthonormal_cols (u : matrix) (k : nat) : Prop :=
  forall i j, (i < k)%nat -> (j < k)%nat ->
    sum_n (nrows u) (fun a => entry u a i * entry u a j) = delta i j.

Definition orthonormal_rows (v : matrix) (k : nat) : Prop :=
  forall i j, (i < k)%nat -> (j < k)%nat ->
    sum_n (ncols v) (fun b => entry v i b * entry v j b) = delta i j.

Definition nonneg (s : vector) : Prop :=
  forall i, (i < vlen s)%nat -> 0 <= vget s i.

Definition descending (s : vector) : Prop :=
  forall i j, (i <= j)%nat -> (j < vlen s)%nat -> vget s j <= vget s i.

(** The contract of [np.linalg.svd(M, full_matrices = 0)]: with
    [k = min(m, n)], [u] is [m x k] with orthonormal columns, [vh] is
    [k x n] with orthonormal rows, [s] holds [k] non-negative values in
    descending order, and [M = u diag(s) vh].  A factor that comes out
    square is an orthogonal matrix: its rows (for [u]) or columns (for
    [vh]) are orthonormal as well. *)
Definition is_svd (M : matrix) (usv : matrix * vector * matrix) : Prop :=
  let '(u, s, vh) := usv in
  let k := Nat.min (nrows M) (ncols M) in
  nrows u = nrows M /\ ncols u = k /\ vlen s = k /\
  nrows vh = k /\ ncols vh = ncols M /\
  orthonormal_cols u k /\ orthonormal_rows vh k /\
  (k = nrows M -> orthonormal_rows u k) /\
  (k = ncols M -> orthonormal_cols vh k) /\
  nonneg s /\ descending s /\
  forall a b, (a < nrows M)%nat -> (b < ncols M)%nat ->
    entry M a b = sum_n k (fun i => entry u a i * vget s i * entry vh i b).

(** A compact singular value decomposition of [M]: [k = min(m, n)]
    non-negative values in descending order, the singular vectors that
    belong to the positive ones orthonormal on both sides, and
    [M = sum_i s_i u_i v_i^T].  The vectors paired with a zero singular
    value do not contribute and are left free. *)
Definition compact_svd (M u : matrix) (s : vector) (vh : matrix) : Prop :=
  let k := Nat.min (nrows M) (ncols M) in
  vlen s = k /\ nonneg s /\ descending s /\
  (forall i j, (i < k)%nat -> (j < k)%nat -> 0 < vget s i -> 0 < vget s j ->
     sum_n (nrows M) (fun a => entry u a i * entry u a j) = delta i j) /\
  (forall i j, (i < k)%nat -> (j < k)%nat -> 0 < vget s i -> 0 < vget s j ->
     sum_n (ncols M) (fun b => entry vh i b * entry vh j b) = delta i j) /\
  forall a b, (a < nrows M)%nat -> (b < ncols M)%nat ->
    entry M a b = sum_n k (fun i => entry u a i * vget s i * entry vh i b).

(** The thresholded, truncated spectrum of the specification: with [idx]
    the number of singular values above [tau], the first [theta] kept
    values stay as they are and the other kept ones lose [tau]. *)
Definition shrunk (s : vector) (tau : R) (theta : nat) (i : nat) : R :=
  if (i <? theta)%nat then vget s i else vget s i - tau.

(** The reconstruction of the specification from the top [idx] singular
    components. *)
Definition svt_spec (m n : nat) (u : matrix) (s : vector) (vh : matrix)
  (tau : R) (theta : nat) : matrix :=
  mk_matrix m n
    (fun a b => sum_n (count_gt s tau)
                  (fun i => entry u a i * shrunk s tau theta i * entry vh i b)).


(** The Gram matrix [M M^T] of a matrix with [n] columns, entry by entry. *)
Definition gram (n : nat) (M : nat -> nat -> R) (a c : nat) : R :=
  sum_n n (fun b => M a b * M c b).

(** The singular values and right singular vectors of [M] read off a
    decomposition [u diag(e) w] of [M M^T]. *)
Definition gram_s (e : nat -> R) (i : nat) : R := sqrt (e i).

Definition gram_vh (m : nat) (M u : nat -> nat -> R) (e : nat -> R) (i b : nat) : R :=
  if Rlt_dec 0 (gram_s e i) then sum_n m (fun c => u c i * M c b) / gram_s e i else 0.




(** *** Sums and Kronecker's delta *)

Lemma delta_sym i j : delta i j = delta j i.
Proof. unfold delta. now rewrite Nat.eqb_sym. Qed.


Lemma delta_diff i j : i <> j -> delta i j = 0.
Proof. unfold delta. intros H. now destruct (Nat.eqb_spec i j). Qed.

Lemma sum_n_pick n j f :
  (j < n)%nat -> sum_n n (fun i => delta j i * f i) = f j.
Proof.
  intros Hj. rewrite (@sum_n_ext n _ (fun i => delta i j * f i))
    by (intros; now rewrite delta_sym).
  rewrite sum_n_delta_l. now destruct (Nat.ltb_spec j n); [|lia].
Qed.

Lemma sum_n_pick' n j f :
  (j < n)%nat -> sum_n n (fun i => delta i j * f i) = f j.
Proof.
  intros Hj. rewrite sum_n_delta_l. now destruct (Nat.ltb_spec j n); [|lia].
Qed.

(** *** Counting the values above the threshold *)

Lemma count_gt_le s tau : (count_gt s tau <= vlen s)%nat.
Proof.
  unfold count_gt. etransitivity; [apply filter_length_le|].
  now rewrite length_seq.
Qed.

Lemma filter_prefix (p : nat -> bool) n :
  (forall i j, (i <= j)%nat -> (j < n)%nat -> p j = true -> p i = true) ->
  forall i, (i < n)%nat ->
    (i < length (filter p (seq 0 n)))%nat <-> p i = true.
Proof.
  induction n as [|n IH]; intros Hmono i Hi; [lia|].
  rewrite seq_S, filter_app, length_app. cbn [filter Nat.add].
  assert (Hmono' : forall i j, (i <= j)%nat -> (j < n)%nat -> p j = true -> p i = true)
    by (intros; eapply Hmono; eauto; lia).
  specialize (IH Hmono').
  assert (Hlen : (length (filter p (seq 0 n)) <= n)%nat).
  { etransitivity; [apply filter_length_le|]. now rewrite length_seq. }
  destruct (p n) eqn:Hpn; cbn [length].
  - assert (Hall : forall l, (l < n)%nat -> p l = true)
      by (intros; apply (Hmono l n); auto; lia).
    assert (Hfull : length (filter p (seq 0 n)) = n).
    { rewrite (filter_ext_in p (fun _ => true)).
      - now rewrite filter_true, length_seq.
      - intros a Ha. apply in_seq in Ha. apply Hall. lia. }
    rewrite Hfull. split; intros _.
    + destruct (Nat.eq_dec i n) as [->|]; [exact Hpn|apply Hall; lia].
    + lia.
  - rewrite Nat.add_0_r. destruct (Nat.eq_dec i n) as [->|Hne].
    + split; [lia|congruence].
    + apply IH. lia.
Qed.

Lemma count_gt_spec s tau :
  descending s ->
  forall i, (i < vlen s)%nat -> (i < count_gt s tau)%nat <-> tau < vget s i.
Proof.
  intros Hd i Hi. unfold count_gt.
  rewrite (filter_prefix (fun i => gt_bool tau (vget s i))) by
    (try exact Hi; intros a b Hab Hb; unfold gt_bool;
     destruct (Rlt_dec tau (vget s b)), (Rlt_dec tau (vget s a));
     try congruence; intros _; specialize (Hd a b Hab Hb); lra).
  unfold gt_bool. destruct (Rlt_dec tau (vget s i)); split; congruence.
Qed.


(** *** Consequences of a factorisation [M = U diag(s) V] *)

Section Factor.

Variables (m n k : nat) (M U V : nat -> nat -> R) (s : nat -> R).

Hypothesis HM : forall a b, (a < m)%nat -> (b < n)%nat ->
  M a b = sum_n k (fun i => U a i * s i * V i b).
Hypothesis HU : forall i j, (i < k)%nat -> (j < k)%nat ->
  sum_n m (fun a => U a i * U a j) = delta i j.
Hypothesis HV : forall i j, (i < k)%nat -> (j < k)%nat ->
  sum_n n (fun b => V i b * V j b) = delta i j.

Lemma left_factor j b :
  (j < k)%nat -> (b < n)%nat -> sum_n m (fun a => U a j * M a b) = s j * V j b.
Proof.
  intros Hj Hb.
  rewrite (@sum_n_ext m _ (fun a => sum_n k (fun i => (U a j * U a i) * (s i * V i b)))).
  2:{ intros a Ha. rewrite HM by assumption. rewrite <- sum_n_scal_l.
      apply sum_n_ext. intros. ring. }
  rewrite sum_n_swap.
  rewrite (@sum_n_ext k _ (fun i => delta j i * (s i * V i b))).
  2:{ intros i Hi. rewrite sum_n_scal_r, HU by assumption. reflexivity. }
  now rewrite sum_n_pick.
Qed.

Lemma right_factor a j :
  (a < m)%nat -> (j < k)%nat -> sum_n n (fun b => M a b * V j b) = U a j * s j.
Proof.
  intros Ha Hj.
  rewrite (@sum_n_ext n _ (fun b => sum_n k (fun i => (U a i * s i) * (V i b * V j b)))).
  2:{ intros b Hb. rewrite HM by assumption. rewrite <- sum_n_scal_r.
      apply sum_n_ext. intros. ring. }
  rewrite sum_n_swap.
  rewrite (@sum_n_ext k _ (fun i => delta i j * (U a i * s i))).
  2:{ intros i Hi. rewrite sum_n_scal_l, HV by assumption. ring. }
  now rewrite sum_n_pick'.
Qed.


End Factor.

(** *** The decomposition of the Gram matrix [M M^T] *)

Section Gram.

Variables (m n : nat) (M u w : nat -> nat -> R) (e : nat -> R).

Hypothesis HG : forall a c, (a < m)%nat -> (c < m)%nat ->
  gram n M a c = sum_n m (fun l => u a l * e l * w l c).
Hypothesis Hu : forall i j, (i < m)%nat -> (j < m)%nat ->
  sum_n m (fun a => u a i * u a j) = delta i j.
Hypothesis Hw : forall i j, (i < m)%nat -> (j < m)%nat ->
  sum_n m (fun c => w i c * w j c) = delta i j.
Hypothesis Huu : forall a c, (a < m)%nat -> (c < m)%nat ->
  sum_n m (fun i => u a i * u c i) = delta a c.
Hypothesis He : forall i, (i < m)%nat -> 0 <= e i.

Lemma gram_sym a c : gram n M a c = gram n M c a.
Proof. unfold gram. apply sum_n_ext. intros. ring. Qed.

Lemma gram_times_w a i :
  (a < m)%nat -> (i < m)%nat -> sum_n m (fun c => gram n M a c * w i c) = u a i * e i.
Proof. intros. now apply (@right_factor m m m (gram n M) u w e HG Hw). Qed.

Lemma gram_times_u a i :
  (a < m)%nat -> (i < m)%nat -> sum_n m (fun c => gram n M a c * u c i) = e i * w i a.
Proof.
  intros Ha Hi.
  rewrite (@sum_n_ext m _ (fun c => u c i * gram n M c a))
    by (intros; rewrite (gram_sym a); ring).
  now apply (@left_factor m m m (gram n M) u w e HG Hu).
Qed.

(** [t^T (M M^T) t] is the squared norm of [M^T t]. *)
Lemma gram_quadratic (t : nat -> R) :
  sum_n m (fun a => t a * sum_n m (fun c => gram n M a c * t c))
  = sum_n n (fun b => sum_n m (fun a => t a * M a b) * sum_n m (fun a => t a * M a b)).
Proof.
  unfold gram.
  rewrite (@sum_n_ext m _ (fun a => sum_n m (fun c =>
             sum_n n (fun b => (t a * M a b) * (t c * M c b))))).
  2:{ intros a Ha. rewrite <- sum_n_scal_l. apply sum_n_ext. intros c Hc.
      rewrite <- sum_n_scal_r, <- sum_n_scal_l. apply sum_n_ext. intros. ring. }
  rewrite (@sum_n_ext m _ (fun a => sum_n n (fun b =>
             sum_n m (fun c => (t a * M a b) * (t c * M c b)))))
    by (intros; apply sum_n_swap).
  rewrite sum_n_swap. apply sum_n_ext. intros b Hb.
  rewrite <- sum_n_scal_r. apply sum_n_ext. intros a Ha.
  now rewrite sum_n_scal_l.
Qed.

(** On a positive value the two factors of the decomposition of the
    (symmetric, positive semi-definite) Gram matrix agree. *)
Lemma gram_factors_agree i a :
  (i < m)%nat -> (a < m)%nat -> 0 < e i -> u a i = w i a.
Proof.
  intros Hi Ha Hpos.
  set (t := fun a => u a i - w i a).
  assert (Ht : forall a, (a < m)%nat ->
            sum_n m (fun c => gram n M a c * t c) = - e i * t a).
  { intros a' Ha'. unfold t.
    rewrite (@sum_n_ext m _
               (fun c => gram n M a' c * u c i - gram n M a' c * w i c))
      by (intros; ring).
    rewrite sum_n_minus, gram_times_u, gram_times_w by assumption. ring. }
  assert (Hq : sum_n m (fun a => t a * sum_n m (fun c => gram n M a c * t c))
               = - e i * sum_n m (fun a => t a * t a)).
  { rewrite <- sum_n_scal_l. apply sum_n_ext. intros a' Ha'.
    rewrite Ht by assumption. ring. }
  rewrite gram_quadratic in Hq.
  assert (H1 : 0 <= sum_n n (fun b => sum_n m (fun a => t a * M a b)
                                      * sum_n m (fun a => t a * M a b)))
    by (apply sum_n_nonneg; intros; apply Rle_0_sqr).
  assert (H2 : 0 <= sum_n m (fun a => t a * t a))
    by (apply sum_n_nonneg; intros; apply Rle_0_sqr).
  assert (H3 : sum_n m (fun a => t a * t a) = 0) by nra.
  pose proof (@sum_n_nonneg_zero m (fun a => t a * t a)
                (fun a _ => Rle_0_sqr (t a)) H3 a Ha) as H4.
  cbv beta in H4. unfold t in H4.
  assert (u a i - w i a = 0) by nra. lra.
Qed.

(** The columns of [u] are eigenvectors of the Gram matrix. *)
Lemma gram_eigen_u a i :
  (a < m)%nat -> (i < m)%nat -> sum_n m (fun c => gram n M a c * u c i) = e i * u a i.
Proof.
  intros Ha Hi. rewrite gram_times_u by assumption.
  destruct (Rle_lt_or_eq_dec 0 (e i) (He Hi)) as [Hpos|Hz].
  - now rewrite (gram_factors_agree Hi Ha Hpos).
  - rewrite <- Hz. ring.
Qed.

(** [u^T M M^T u = diag(e)]. *)
Lemma gram_projected i j :
  (i < m)%nat -> (j < m)%nat ->
  sum_n n (fun b => sum_n m (fun c => u c i * M c b) * sum_n m (fun a => u a j * M a b))
  = e j * delta i j.
Proof.
  intros Hi Hj.
  rewrite (@sum_n_ext n _ (fun b => sum_n m (fun c => sum_n m (fun a =>
             u c i * (u a j * (M c b * M a b)))))).
  2:{ intros b Hb. rewrite <- sum_n_scal_r. apply sum_n_ext. intros c Hc.
      rewrite <- sum_n_scal_l. apply sum_n_ext. intros. ring. }
  rewrite sum_n_swap.
  rewrite (@sum_n_ext m _ (fun c => u c i * (e j * u c j))).
  2:{ intros c Hc. rewrite <- (gram_eigen_u Hc Hj), <- sum_n_scal_l.
      rewrite sum_n_swap. apply sum_n_ext. intros a Ha.
      unfold gram. rewrite <- sum_n_scal_r, <- sum_n_scal_l.
      apply sum_n_ext. intros. ring. }
  rewrite (@sum_n_ext m _ (fun c => e j * (u c i * u c j))) by (intros; ring).
  rewrite sum_n_scal_l, Hu by assumption. reflexivity.
Qed.

(** Completeness of the columns of [u]. *)
Lemma expand_in_u a b :
  (a < m)%nat ->
  sum_n m (fun i => u a i * sum_n m (fun c => u c i * M c b)) = M a b.
Proof.
  intros Ha.
  rewrite (@sum_n_ext m _ (fun i => sum_n m (fun c => (u a i * u c i) * M c b))).
  2:{ intros i Hi. rewrite <- sum_n_scal_l. apply sum_n_ext. intros. ring. }
  rewrite sum_n_swap.
  rewrite (@sum_n_ext m _ (fun c => delta a c * M c b)).
  2:{ intros c Hc. rewrite sum_n_scal_r, Huu by assumption. reflexivity. }
  now rewrite sum_n_pick.
Qed.

(** A direction of eigenvalue zero is annihilated by [M^T]. *)
Lemma gram_kernel i b :
  (i < m)%nat -> (b < n)%nat -> e i = 0 -> sum_n m (fun c => u c i * M c b) = 0.
Proof.
  intros Hi Hb Hz.
  pose proof (gram_projected Hi Hi) as H. rewrite Hz, Rmult_0_l in H.
  pose proof (@sum_n_nonneg_zero n _
    (fun b _ => Rle_0_sqr (sum_n m (fun c => u c i * M c b))) H b Hb) as H'.
  cbv beta in H'. destruct (Rmult_integral _ _ H'); assumption.
Qed.

Lemma gram_s_sq i : (i < m)%nat -> gram_s e i * gram_s e i = e i.
Proof. intros Hi. apply sqrt_sqrt, He, Hi. Qed.

Lemma gram_s_nonneg i : 0 <= gram_s e i.
Proof. apply sqrt_pos. Qed.

Lemma gram_s_zero i : (i < m)%nat -> ~ 0 < gram_s e i -> e i = 0.
Proof.
  intros Hi Hn. apply sqrt_eq_0; [apply He, Hi|].
  pose proof (gram_s_nonneg i). unfold gram_s in *. lra.
Qed.

Lemma gram_vh_orthonormal i j :
  (i < m)%nat -> (j < m)%nat -> 0 < gram_s e i -> 0 < gram_s e j ->
  sum_n n (fun b => gram_vh m M u e i b * gram_vh m M u e j b) = delta i j.
Proof.
  intros Hi Hj Hsi Hsj. unfold gram_vh.
  destruct (Rlt_dec 0 (gram_s e i)); [|contradiction].
  destruct (Rlt_dec 0 (gram_s e j)); [|contradiction].
  rewrite (@sum_n_ext n _ (fun b =>
     / (gram_s e i * gram_s e j) *
     (sum_n m (fun c => u c i * M c b) * sum_n m (fun a => u a j * M a b)))).
  2:{ intros b Hb. field. split; lra. }
  rewrite sum_n_scal_l, gram_projected by assumption.
  unfold delta. destruct (Nat.eqb_spec i j) as [->|Hne].
  - rewrite <- (gram_s_sq Hj). field. lra.
  - ring.
Qed.

Lemma gram_reconstructs a b :
  (a < m)%nat -> (b < n)%nat ->
  M a b = sum_n m (fun i => u a i * gram_s e i * gram_vh m M u e i b).
Proof.
  intros Ha Hb. rewrite <- (expand_in_u b Ha). apply sum_n_ext. intros i Hi.
  unfold gram_vh. destruct (Rlt_dec 0 (gram_s e i)) as [Hpos|Hz].
  - field. lra.
  - rewrite (gram_kernel Hi Hb (gram_s_zero Hi Hz)). ring.
Qed.

(** The product formed on the Gram path, written with the singular
    components read off the decomposition of [M M^T]. *)
Lemma gram_path_components (tau : R) (theta idx : nat) a b :
  (idx <= m)%nat -> (forall i, (i < idx)%nat -> 0 < gram_s e i) ->
  sum_n idx (fun i =>
    (u a i * (if (i <? theta)%nat then 1 else (gram_s e i - tau) / gram_s e i))
    * sum_n m (fun c => u c i * M c b))
  = sum_n idx (fun i =>
      u a i * (if (i <? theta)%nat then gram_s e i else gram_s e i - tau)
      * gram_vh m M u e i b).
Proof.
  intros Hidx Hpos. apply sum_n_ext. intros i Hi.
  pose proof (Hpos i Hi) as Hsi. unfold gram_vh.
  destruct (Rlt_dec 0 (gram_s e i)); [|contradiction].
  destruct (i <? theta)%nat; field; lra.
Qed.

End Gram.

(** *** Sequences in descending order with the same multiplicities *)





(** *** Two decompositions of the same matrix *)

Section Unique.

Variables (m n : nat) (M U V u w : nat -> nat -> R) (s e : nat -> R).

Hypothesis HM : forall a b, (a < m)%nat -> (b < n)%nat ->
  M a b = sum_n m (fun i => U a i * s i * V i b).
Hypothesis HU : forall i j, (i < m)%nat -> (j < m)%nat ->
  sum_n m (fun a => U a i * U a j) = delta i j.
Hypothesis HUU : forall a c, (a < m)%nat -> (c < m)%nat ->
  sum_n m (fun i => U a i * U c i) = delta a c.
Hypothesis HV : forall i j, (i < m)%nat -> (j < m)%nat ->
  sum_n n (fun b => V i b * V j b) = delta i j.
Hypothesis Hs : forall i, (i < m)%nat -> 0 <= s i.
Hypothesis Hsd : forall i j, (i <= j)%nat -> (j < m)%nat -> s j <= s i.

Hypothesis HG : forall a c, (a < m)%nat -> (c < m)%nat ->
  gram n M a c = sum_n m (fun l => u a l * e l * w l c).
Hypothesis Hu : forall i j, (i < m)%nat -> (j < m)%nat ->
  sum_n m (fun a => u a i * u a j) = delta i j.
Hypothesis Hw : forall i j, (i < m)%nat -> (j < m)%nat ->
  sum_n m (fun c => w i c * w j c) = delta i j.
Hypothesis Huu : forall a c, (a < m)%nat -> (c < m)%nat ->
  sum_n m (fun i => u a i * u c i) = delta a c.
Hypothesis He : forall i, (i < m)%nat -> 0 <= e i.
Hypothesis Hed : forall i j, (i <= j)%nat -> (j < m)%nat -> e j <= e i.










(** The Gram path and the direct path form the same matrix when no two
    equal singular values sit on either side of the cut at [theta]. *)
Section Paths.

Variables (tau : R) (theta idx : nat).

Hypothesis Htau : 0 < tau.
Hypothesis Hidx_le : (idx <= m)%nat.
Hypothesis Hidx : forall i, (i < m)%nat -> (i < idx)%nat <-> tau < s i.
Hypothesis Hcut : (0 < theta)%nat -> (theta < idx)%nat -> s theta < s (theta - 1).




End Paths.

End Unique.

End Spectral.

(** ** The imputer kernel: [svt_tnn] and [imputer] *)

Module Kernel.

Import RSum Dense Lag Spectral.
Local Open Scope R_scope.

Definition inspect {A : Type} (a : A) : {b : A | a = b} := exist _ a eq_refl.

Section Routines.

(** [np.linalg.svd(M, full_matrices = 0)], returning [(u, s, vh)]. *)
Variable svd : matrix -> matrix * vector * matrix.

(** [scipy.sparse.linalg.spsolve(A, b)]. *)
Variable spsolve : matrix -> vector -> vector.

(** [np.linalg.pinv(A)]. *)
Variable pinv : matrix -> matrix.

(** The sample drawn by [np.random.rand(r, c)]. *)
Variable rand : nat -> nat -> matrix.

(** What [np.mean] returns on an empty selection; no value is assumed. *)
Variable nan : R.

(** *** Truncated singular value thresholding *)

Definition vec_sqrt (s : vector) : vector :=
  mk_vector (vlen s) (fun i => sqrt (vget s i)).

(** The branch taken when [2 * m < n]. *)
Definition svt_gram (mat : matrix) (tau : R) (theta : nat) : matrix :=
  let '(u, s0, _) := svd (matmul mat (transpose mat)) in
  let s := vec_sqrt s0 in
  let idx := count_gt s tau in
  let mid := mk_vector idx
    (fun i => if (i <? theta)%nat then 1 else (vget s i - tau) / vget s i) in
  matmul (matmul (cols_upto u idx) (diag mid))
         (matmul (transpose (cols_upto u idx)) mat).

(** The last three lines of [svt_tnn]. *)
Definition svt_direct (mat : matrix) (tau : R) (theta : nat) : matrix :=
  let '(u, s, v) := svd mat in
  let idx := count_gt s tau in
  let vec := mk_vector idx
    (fun i => if (i <? theta)%nat then vget s i else vget s i - tau) in
  matmul (matmul (cols_upto u idx) (diag vec)) (rows_upto v idx).

Definition wide (mat : matrix) : bool := (2 * nrows mat <? ncols mat)%nat.
Definition tall (mat : matrix) : bool := (2 * ncols mat <? nrows mat)%nat.

Equations? svt_tnn (mat : matrix) (tau : R) (theta : nat) : matrix
  by wf (if wide mat then 0%nat else if tall mat then 1%nat else 0%nat) lt :=
  svt_tnn mat tau theta with inspect (wide mat) := {
    | exist _ true _ => svt_gram mat tau theta
    | exist _ false _ with inspect (tall mat) := {
      | exist _ true _ => transpose (svt_tnn (transpose mat) tau theta)
      | exist _ false _ => svt_direct mat tau theta } }.
Proof.
  unfold wide, tall in *. cbn [transpose nrows ncols].
  destruct (Nat.ltb_spec (2 * nrows mat) (ncols mat)); [discriminate|].
  destruct (Nat.ltb_spec (2 * ncols mat) (nrows mat)); [|discriminate].
  destruct (Nat.ltb_spec (2 * ncols mat) (nrows mat)); lia.
Qed.

(** *** The ADMM loop *)

(** The variables that the loop of [imputer] updates.  [X] and [tol] are
    first bound inside the loop. *)
Record state : Type := mk_state {
  st_rho : R;
  st_X : option matrix;
  st_Z : matrix;
  st_T : matrix;
  st_A : matrix;
  st_last_mat : matrix;
  st_it : Z;
  st_tol : option R
}.

(** The arguments of [imputer] and the locals that the loop only reads. *)
Record config : Type := mk_config {
  sparse_mat : matrix;
  pos_missing : mask;
  time_lags : list Z;
  lambda0 : R;
  theta : nat;
  epsilon : R;
  maxiter : Z;
  K : Z;
  Psis : list coo;
  max_lag : Z;
  snorm : R
}.

(** [dim = np.array(sparse_mat.shape)], [d = len(time_lags)] *)
Definition dim0 (c : config) : nat := nrows (sparse_mat c).
Definition dim1 (c : config) : nat := ncols (sparse_mat c).
Definition d (c : config) : nat := length (time_lags c).

(** The length [dim[1] - max_lag] of the trimmed time axis. *)
Definition trimmed (c : config) : nat := Z.to_nat (Z.of_nat (dim1 c) - max_lag c).

(** [iden]: the identity in coordinate format. *)
Definition iden (c : config) : matrix :=
  toarray (mk_coo (repeat 1 (dim1 c)) (arange (Z.of_nat (dim1 c)))
                  (arange (Z.of_nat (dim1 c)))
                  (Z.of_nat (dim1 c), Z.of_nat (dim1 c))).

(** [Psis[i]] as a dense array. *)
Definition Psi (c : config) (i : nat) : matrix := toarray (nth i (Psis c) Psi_dflt).

(** [sum(l)] for a list of sparse matrices. *)
Definition psi_sum (c : config) (l : list matrix) : matrix :=
  match l with
  | [] => zeros (trimmed c) (dim1 c)
  | P :: l' => fold_left mat_add l' P
  end.

(** [Psis0[1 :]] after the loop over [i]: [A[m, i] * Psis[i + 1]]. *)
Definition scaled_Psis (c : config) (A : matrix) (m : nat) : list matrix :=
  map (fun i => mat_scale (entry A m i) (Psi c (i + 1))) (seq 0 (d c)).

(** [B[m] = Psis0[0] - sum(Psis0[1 :])] *)
Definition B_row (c : config) (A : matrix) (m : nat) : matrix :=
  mat_sub (Psi c 0) (psi_sum c (scaled_Psis c A m)).

Definition build_B (c : config) (A : matrix) : list matrix :=
  map (B_row c A) (seq 0 (dim0 c)).

(** [B[m].T @ B[m] + rho * iden / lambda0] *)
Definition normal_matrix (c : config) (Bm : matrix) (rho : R) : matrix :=
  mat_add (matmul (transpose Bm) Bm) (mat_div (mat_scale rho (iden c)) (lambda0 c)).

(** [mat]: row [m] is the solve for row [m]. *)
Definition solve_rows (c : config) (B : list matrix) (rho : R) (temp0 : matrix)
  : matrix :=
  of_rows (dim0 c) (dim1 c)
    (fun m => spsolve (normal_matrix c (nth m B (zeros 0 0)) rho) (row temp0 m)).

(** The updates of one pass of [for k in range(K)]. *)
Definition next_rho (st : state) : R := Rmin (st_rho st * 1.05) 1e5.

Definition next_X (c : config) (st : state) : matrix :=
  svt_tnn (mat_sub (st_Z st) (mat_div (st_T st) (next_rho st)))
          (1 / next_rho st) (theta c).

Definition temp0_of (c : config) (st : state) : matrix :=
  mat_scale (next_rho st / lambda0 c)
            (mat_add (next_X c st) (mat_div (st_T st) (next_rho st))).

Definition inner_step (c : config) (B : list matrix) (st : state) : state :=
  let rho := next_rho st in
  let X := next_X c st in
  let mat := solve_rows c B rho (temp0_of c st) in
  let Z' := mask_assign (st_Z st) (pos_missing c) mat in
  let T' := mat_add (st_T st) (mat_scale rho (mat_sub X Z')) in
  mk_state rho (Some X) Z' T' (st_A st) (st_last_mat st) (st_it st) (st_tol st).

(** [k] passes of [for k in range(K)]. *)
Definition inner_loop (c : config) (B : list matrix) (k : nat) (st : state) : state :=
  Nat.iter k (inner_step c B) st.

(** [ind[i, t]]: row [i] of [ind] is
    [np.arange(max_lag - time_lags[i], dim[1] - time_lags[i])]. *)
Definition ind (c : config) (i t : nat) : Z :=
  (max_lag c - nth i (time_lags c) 0 + Z.of_nat t)%Z.

(** [Vm = Z[m, ind].T] *)
Definition Vm (c : config) (Zm : matrix) (m : nat) : matrix :=
  mk_matrix (trimmed c) (d c) (fun t i => entry Zm m (Z.to_nat (ind c i t))).

(** [A[m, :] = np.linalg.pinv(Vm) @ Z[m, max_lag :]] for every row. *)
Definition update_A (c : config) (Zm : matrix) : matrix :=
  of_rows (dim0 c) (d c)
    (fun m => matvec (pinv (Vm c Zm m))
                     (vec_from (row Zm m) (Z.to_nat (max_lag c)))).

(** [tol = np.linalg.norm((X - last_mat), 'fro') / snorm] *)
Definition tol_of (c : config) (X last_mat : matrix) : R :=
  frobenius (mat_sub X last_mat) / snorm c.

(** The body of [while True] up to [it += 1]. *)
Definition outer_body (c : config) (st : state) : result state :=
  let B := build_B c (st_A st) in
  let st1 := inner_loop c B (Z.to_nat (K c)) st in
  let A' := update_A c (st_Z st1) in
  X <- of_option UnboundLocalError (st_X st1) ;;
  Ok (mk_state (st_rho st1) (Some X) (st_Z st1) (st_T st1) A' X
               (st_it st1 + 1)%Z (Some (tol_of c X (st_last_mat st1)))).

(** [tol < epsilon and tol != 0] *)
Definition converged (c : config) (tol : R) : bool :=
  (if Rlt_dec tol (epsilon c) then true else false) && nonzero tol.

(** [(tol < epsilon and tol != 0) or (it >= maxiter)] *)
Definition stop (c : config) (st : state) : bool :=
  match st_tol st with
  | Some tol => converged c tol
  | None => false
  end || (maxiter c <=? st_it st)%Z.

(** [while True: ... if ...: break].  [None] means that the fuel ran out
    before the loop ended. *)
Fixpoint outer_loop (c : config) (fuel : nat) (st : state) : option (result state) :=
  match fuel with
  | O => None
  | S fuel' =>
      match outer_body c st with
      | Error e => Some (Error e)
      | Ok st' => if stop c st' then Some (Ok st') else outer_loop c fuel' st'
      end
  end.

(** The state after [n] passes of the loop body started in [st], when the
    loop makes that many passes: none of the earlier ones raised or left
    the loop. *)
Fixpoint iterate (c : config) (n : nat) (st : state) : option state :=
  match n with
  | O => Some st
  | S n' =>
      match outer_body c st with
      | Error _ => None
      | Ok st' =>
          match n' with
          | O => Some st'
          | S _ => if stop c st' then None else iterate c n' st'
          end
      end
  end.

(** *** Set-up and entry point *)

(** [np.mean(l)] *)
Definition np_mean (l : list R) : R :=
  match l with
  | [] => nan
  | _ => list_sum l / INR (length l)
  end.

(** [Z = sparse_mat.copy(); Z[pos_missing] = np.mean(sparse_mat[sparse_mat != 0])] *)
Definition initial_Z (sparse_mat : matrix) (pos_missing : mask) : matrix :=
  mask_fill sparse_mat pos_missing (np_mean (select_nonzero sparse_mat)).

Definition check (b : bool) (e : error) : result unit :=
  if b then Ok tt else Error e.

(** What [imputer] does before [while True]. *)
Definition setup (dense_mat sparse_mat : matrix) (time_lags : list Z)
  (rho0 lambda0 : R) (theta : nat) (epsilon : R) (maxiter K : Z)
  (pos_missing : mask) : result (config * state) :=
  max_lag <- np_max time_lags ;;
  _ <- check (same_shape dense_mat pos_missing) IndexError ;;
  _ <- check (same_shape sparse_mat pos_missing) IndexError ;;
  let T := zeros (nrows sparse_mat) (ncols sparse_mat) in
  let Z0 := initial_Z sparse_mat pos_missing in
  let A := mat_scale 0.001 (rand (nrows sparse_mat) (length time_lags)) in
  Psis <- generate_Psi (Z.of_nat (ncols sparse_mat)) time_lags ;;
  Ok (mk_config sparse_mat pos_missing time_lags lambda0 theta epsilon maxiter K
                Psis max_lag (frobenius sparse_mat),
      mk_state rho0 None Z0 T A sparse_mat 0%Z None).

Definition imputer (fuel : nat) (dense_mat sparse_mat : matrix)
  (time_lags : list Z) (rho0 lambda0 : R) (theta : nat) (epsilon : R)
  (maxiter K : Z) (pos_missing : mask) : option (result matrix) :=
  match setup dense_mat sparse_mat time_lags rho0 lambda0 theta epsilon maxiter K
              pos_missing with
  | Error e => Some (Error e)
  | Ok (c, st0) =>
      match outer_loop c fuel st0 with
      | None => None
      | Some (Error e) => Some (Error e)
      | Some (Ok st) => Some (of_option UnboundLocalError (st_X st))
      end
  end.

(** *** Predicates of the statements *)

(** The matrix that [svt_tnn] hands to [np.linalg.svd]. *)
Definition decomposed (mat : matrix) : matrix :=
  if wide mat then matmul mat (transpose mat)
  else if tall mat then matmul (transpose mat) (transpose (transpose mat))
  else mat.

(** [Zm] has the shape of [S] and agrees with it off the mask. *)
Definition observed_kept (S : matrix) (msk : mask) (Zm : matrix) : Prop :=
  forall i j, (i < nrows S)%nat -> (j < ncols S)%nat ->
    mentry msk i j = false -> entry Zm i j = entry S i j.



(** *** The branches of [svt_tnn] *)

Lemma svt_tnn_branches mat tau theta :
  svt_tnn mat tau theta =
  if wide mat then svt_gram mat tau theta
  else if tall mat then transpose (svt_tnn (transpose mat) tau theta)
  else svt_direct mat tau theta.
Proof.
  funelim (svt_tnn mat tau theta).
  - rewrite e. reflexivity.
  - rewrite e0, e. reflexivity.
  - rewrite e0, e. reflexivity.
Qed.

(** *** Set-up: what it binds *)

Lemma setup_ok dense_mat sparse lags rho0 lam th eps mi Kk msk c st0 :
  setup dense_mat sparse lags rho0 lam th eps mi Kk msk = Ok (c, st0) ->
  exists Ps ml,
    np_max lags = Ok ml /\
    same_shape dense_mat msk = true /\ same_shape sparse msk = true /\
    generate_Psi (Z.of_nat (ncols sparse)) lags = Ok Ps /\
    c = mk_config sparse msk lags lam th eps mi Kk Ps ml (frobenius sparse) /\
    st0 = mk_state rho0 None (initial_Z sparse msk)
            (zeros (nrows sparse) (ncols sparse))
            (mat_scale 0.001 (rand (nrows sparse) (length lags))) sparse 0%Z None.
Proof.
  unfold setup. intros H.
  destruct (np_max lags) as [ml|]; [|discriminate]. cbn [bind] in H.
  destruct (same_shape dense_mat msk); [|discriminate]. cbn [check bind] in H.
  destruct (same_shape sparse msk); [|discriminate]. cbn [check bind] in H.
  destruct (generate_Psi (Z.of_nat (ncols sparse)) lags) as [Ps|]; [|discriminate].
  cbn [bind] in H. injection H as <- <-. exists Ps, ml. repeat split; reflexivity.
Qed.

(** *** The initial fill *)

(** C10: the set-up fills every missing entry of [Z] with the mean of the
    nonzero entries of the observed matrix and keeps the others.  The
    selection does not consult the missing set: the mean is the sum of all
    entries over the number of nonzero ones, so an observed zero is left
    out of it.  For an all-zero matrix the selection is empty and the fill
    is whatever the mean of nothing is. *)
Theorem initial_fill_is_nonzero_mean dense_mat sparse lags rho0 lam th eps mi Kk msk c st0 :
  setup dense_mat sparse lags rho0 lam th eps mi Kk msk = Ok (c, st0) ->
  (forall i j, (i < nrows sparse)%nat -> (j < ncols sparse)%nat ->
     entry (st_Z st0) i j
     = if mentry msk i j then np_mean (select_nonzero sparse) else entry sparse i j) /\
  (forall x, In x (select_nonzero sparse) <-> (x <> 0 /\ In x (flatten sparse))) /\
  (select_nonzero sparse <> [] ->
     np_mean (select_nonzero sparse)
     = sum_n (nrows sparse) (fun i => sum_n (ncols sparse) (fun j => entry sparse i j))
       / sum_n (nrows sparse) (fun i => sum_n (ncols sparse)
                 (fun j => if nonzero (entry sparse i j) then 1 else 0))) /\
  ((forall i j, (i < nrows sparse)%nat -> (j < ncols sparse)%nat ->
      entry sparse i j = 0) ->
     select_nonzero sparse = [] /\ np_mean (select_nonzero sparse) = nan).
Proof.
  intros H. destruct (setup_ok _ _ _ _ _ _ _ _ _ _ H)
    as [Ps [ml [_ [_ [_ [_ [_ ->]]]]]]].
  cbn [st_Z]. split; [|split; [|split]].
  - intros i j _ _. reflexivity.
  - intros x. unfold select_nonzero. rewrite filter_In. split.
    + intros [Hin Hnz]. split; [now apply nonzero_true|exact Hin].
    + intros [Hnz Hin]. split; [exact Hin|].
      unfold nonzero. now destruct (Req_dec_T x 0).
  - intros Hne. unfold np_mean.
    destruct (select_nonzero sparse) as [|x l] eqn:E; [contradiction|].
    rewrite <- E. unfold select_nonzero.
    rewrite filter_nonzero_sum, filter_nonzero_length, !flatten_sum. reflexivity.
  - intros Hz.
    assert (E : select_nonzero sparse = []).
    { unfold select_nonzero.
      rewrite (filter_ext_in nonzero (fun _ => false)).
      - induction (flatten sparse) as [|x l IH]; [reflexivity|exact IH].
      - intros x Hx. apply in_flatten in Hx. destruct Hx as [i [j [Hi [Hj ->]]]].
        rewrite (Hz i j Hi Hj). unfold nonzero.
        destruct (Req_dec_T 0 0); [reflexivity|contradiction]. }
    split; [exact E|]. now rewrite E.
Qed.

(** *** Observed entries *)

Lemma inner_step_kept c B st :
  observed_kept (sparse_mat c) (pos_missing c) (st_Z st) ->
  observed_kept (sparse_mat c) (pos_missing c) (st_Z (inner_step c B st)).
Proof.
  intros H i j Hi Hj Hm. cbn [inner_step st_Z mask_assign entry].
  rewrite Hm. now apply H.
Qed.

Lemma inner_loop_kept c B k st :
  observed_kept (sparse_mat c) (pos_missing c) (st_Z st) ->
  observed_kept (sparse_mat c) (pos_missing c) (st_Z (inner_loop c B k st)).
Proof.
  intros H. induction k as [|k IH]; [exact H|].
  unfold inner_loop in *. cbn [Nat.iter]. now apply inner_step_kept.
Qed.

Lemma outer_body_kept c st st' :
  outer_body c st = Ok st' ->
  observed_kept (sparse_mat c) (pos_missing c) (st_Z st) ->
  observed_kept (sparse_mat c) (pos_missing c) (st_Z st').
Proof.
  unfold outer_body. intros H Hk.
  destruct (st_X (inner_loop c (build_B c (st_A st)) (Z.to_nat (K c)) st));
    [|discriminate].
  cbn [of_option bind] in H. injection H as <-. cbn [st_Z].
  now apply inner_loop_kept.
Qed.

Lemma iterate_kept c n : forall st st',
  iterate c n st = Some st' ->
  observed_kept (sparse_mat c) (pos_missing c) (st_Z st) ->
  observed_kept (sparse_mat c) (pos_missing c) (st_Z st').
Proof.
  induction n as [|n IH]; intros st st' H Hk.
  - injection H as <-. exact Hk.
  - cbn [iterate] in H. destruct (outer_body c st) as [st1|] eqn:E; [|discriminate].
    pose proof (@outer_body_kept c st st1 E Hk) as Hk1.
    destruct n as [|n'].
    + injection H as <-. exact Hk1.
    + destruct (stop c st1); [discriminate|]. exact (IH _ _ H Hk1).
Qed.

(** C1: after any number of completed outer passes and any number of inner
    passes of the next one, [Z] equals the observed matrix at every
    position outside the missing set; an inner pass writes the row solves
    into [Z] at the positions of the missing set and nowhere else. *)
Theorem observed_entries_never_change dense_mat sparse lags rho0 lam th eps mi Kk msk c st0 :
  setup dense_mat sparse lags rho0 lam th eps mi Kk msk = Ok (c, st0) ->
  (forall n k st, iterate c n st0 = Some st ->
     forall i j, (i < nrows sparse)%nat -> (j < ncols sparse)%nat ->
       mentry msk i j = false ->
       entry (st_Z (inner_loop c (build_B c (st_A st)) k st)) i j = entry sparse i j) /\
  (forall B st i j,
     entry (st_Z (inner_step c B st)) i j
     = if mentry msk i j
       then entry (solve_rows c B (next_rho st) (temp0_of c st)) i j
       else entry (st_Z st) i j).
Proof.
  intros H. destruct (setup_ok _ _ _ _ _ _ _ _ _ _ H)
    as [Ps [ml [_ [_ [_ [_ [Hc Hst]]]]]]].
  assert (Hs : sparse_mat c = sparse) by now rewrite Hc.
  assert (Hm : pos_missing c = msk) by now rewrite Hc.
  split.
  - intros n k st Hn. rewrite <- Hs, <- Hm.
    change (observed_kept (sparse_mat c) (pos_missing c)
              (st_Z (inner_loop c (build_B c (st_A st)) k st))).
    apply inner_loop_kept. eapply iterate_kept; [exact Hn|].
    rewrite Hst, Hs, Hm. cbn [st_Z].
    intros i j _ _ Hmij. cbn [initial_Z mask_fill entry]. now rewrite Hmij.
  - intros B st i j. rewrite <- Hm. reflexivity.
Qed.


(** *** One pass of the loops *)

Lemma inner_loop_frame c B k st :
  st_A (inner_loop c B k st) = st_A st /\
  st_last_mat (inner_loop c B k st) = st_last_mat st /\
  st_it (inner_loop c B k st) = st_it st /\
  st_tol (inner_loop c B k st) = st_tol st.
Proof.
  induction k as [|k IH]; [repeat split|].
  unfold inner_loop in *. cbn [Nat.iter inner_step st_A st_last_mat st_it st_tol].
  exact IH.
Qed.

Lemma inner_loop_binds_X c B k st :
  (1 <= k)%nat -> exists X, st_X (inner_loop c B k st) = Some X.
Proof.
  intros Hk. destruct k as [|k]; [lia|].
  unfold inner_loop. cbn [Nat.iter inner_step st_X]. eexists. reflexivity.
Qed.


Lemma outer_body_ok c st :
  (1 <= K c)%Z ->
  exists st' X,
    outer_body c st = Ok st' /\ st_X st' = Some X /\ st_last_mat st' = X /\
    st_it st' = (st_it st + 1)%Z /\
    st_tol st' = Some (tol_of c X (st_last_mat st)).
Proof.
  intros HK. unfold outer_body.
  set (B := build_B c (st_A st)). set (k := Z.to_nat (K c)).
  destruct (@inner_loop_binds_X c B k st) as [X HX]; [lia|].
  destruct (inner_loop_frame c B k st) as [_ [Hl [Hi _]]].
  rewrite HX. cbn [of_option bind]. do 2 eexists.
  split; [reflexivity|]. cbn [st_X st_last_mat st_it st_tol].
  rewrite Hl, Hi. repeat split.
Qed.

Lemma outer_body_inv c st st' :
  outer_body c st = Ok st' ->
  exists X,
    st_X st' = Some X /\ st_last_mat st' = X /\
    st_it st' = (st_it st + 1)%Z /\
    st_tol st' = Some (tol_of c X (st_last_mat st)).
Proof.
  unfold outer_body.
  set (B := build_B c (st_A st)). set (k := Z.to_nat (K c)).
  destruct (inner_loop_frame c B k st) as [_ [Hl [Hi _]]].
  destruct (st_X (inner_loop c B k st)) as [X|]; [|discriminate].
  cbn [of_option bind]. intros H. injection H as <-.
  exists X. cbn [st_X st_last_mat st_it st_tol]. rewrite Hl, Hi. repeat split.
Qed.


(** The pass before the last one. *)
Lemma iterate_last c n : forall st st',
  iterate c (S n) st = Some st' ->
  exists st_n, iterate c n st = Some st_n /\ outer_body c st_n = Ok st' /\
               ((1 <= n)%nat -> stop c st_n = false).
Proof.
  induction n as [|n IH]; intros st st' H.
  - exists st. cbn [iterate] in *.
    destruct (outer_body c st) as [st1|]; [|discriminate].
    injection H as <-. repeat split. lia.
  - change (iterate c (S (S n)) st) with
      (match outer_body c st with
       | Error _ => None
       | Ok st1 => if stop c st1 then None else iterate c (S n) st1
       end) in H.
    destruct (outer_body c st) as [st1|] eqn:E; [|discriminate].
    destruct (stop c st1) eqn:Es; [discriminate|].
    destruct (IH _ _ H) as [st_n [H1 [H2 H3]]].
    exists st_n. split; [|split; [exact H2|]].
    + cbn [iterate]. rewrite E. destruct n as [|n'].
      * cbn [iterate] in H1. injection H1 as <-. reflexivity.
      * rewrite Es. exact H1.
    + intros _. destruct n as [|n'].
      * cbn [iterate] in H1. injection H1 as <-. exact Es.
      * apply H3. lia.
Qed.

(** *** Termination of the outer loop *)

Lemma converged_iff c tol : converged c tol = true <-> (tol < epsilon c /\ tol <> 0).
Proof.
  unfold converged, nonzero.
  destruct (Rlt_dec tol (epsilon c)), (Req_dec_T tol 0); cbn; split;
    try tauto; try discriminate; intros [? ?]; try contradiction.
Qed.

Lemma stop_spec c st tol :
  st_tol st = Some tol ->
  stop c st = true <-> ((tol < epsilon c /\ tol <> 0) \/ (maxiter c <= st_it st)%Z).
Proof.
  intros Ht. unfold stop. rewrite Ht, orb_true_iff, converged_iff, Z.leb_le.
  reflexivity.
Qed.

Lemma outer_loop_terminates c :
  (1 <= K c)%Z ->
  forall fuel st,
    (1 <= fuel)%nat -> (maxiter c - st_it st <= Z.of_nat fuel)%Z ->
    exists n st',
      (1 <= n <= fuel)%nat /\
      outer_loop c fuel st = Some (Ok st') /\
      iterate c n st = Some st' /\
      stop c st' = true /\
      st_it st' = (st_it st + Z.of_nat n)%Z /\
      (forall j st_j, (1 <= j < n)%nat -> iterate c j st = Some st_j ->
         stop c st_j = false).
Proof.
  intros HK. induction fuel as [|fuel IH]; intros st Hf Hm; [lia|].
  destruct (outer_body_ok c st HK) as [st1 [X [Hb [HX [Hl [Hi Ht]]]]]].
  cbn [outer_loop]. rewrite Hb.
  destruct (stop c st1) eqn:Es.
  - exists 1%nat, st1. split; [lia|]. split; [reflexivity|].
    split; [cbn [iterate]; now rewrite Hb|]. split; [exact Es|].
    split; [lia|]. intros j st_j Hj. lia.
  - assert (Hlt : (st_it st1 < maxiter c)%Z).
    { destruct (Z.ltb_spec (st_it st1) (maxiter c)) as [|Hge]; [assumption|].
      exfalso. unfold stop in Es. apply orb_false_iff in Es.
      destruct Es as [_ Es]. apply Z.leb_gt in Es. lia. }
    destruct (IH st1) as [n [st' [Hn [Hloop [Hit [Hstop [Hcount Hearlier]]]]]]];
      [lia|lia|].
    exists (S n), st'. split; [lia|]. split; [exact Hloop|]. split.
    { cbn [iterate]. rewrite Hb. destruct n as [|n']; [lia|].
      rewrite Es. exact Hit. }
    split; [exact Hstop|]. split; [lia|].
    intros j st_j Hj Hjit. destruct j as [|j]; [lia|].
    cbn [iterate] in Hjit. rewrite Hb in Hjit. destruct j as [|j'].
    + injection Hjit as <-. exact Es.
    + rewrite Es in Hjit. apply (Hearlier (S j') st_j); [lia|exact Hjit].
Qed.


(** *** The relative change [tol] *)

(** C7 (amended): in the first outer pass [tol] compares the new [X] with
    the observed matrix itself; in every later pass it compares the new [X]
    with the [X] of the pass before.  Both are divided by the Frobenius
    norm of the observed matrix. *)
Theorem tol_is_relative_change dense_mat sparse lags rho0 lam th eps mi Kk msk c st0 :
  setup dense_mat sparse lags rho0 lam th eps mi Kk msk = Ok (c, st0) ->
  (forall st1, iterate c 1 st0 = Some st1 ->
     exists X1, st_X st1 = Some X1 /\
       st_tol st1 = Some (frobenius (mat_sub X1 sparse) / frobenius sparse)) /\
  (forall n st_n st_next, (1 <= n)%nat ->
     iterate c n st0 = Some st_n -> iterate c (S n) st0 = Some st_next ->
     exists Xprev Xcur, st_X st_n = Some Xprev /\ st_X st_next = Some Xcur /\
       st_tol st_next = Some (frobenius (mat_sub Xcur Xprev) / frobenius sparse)).
Proof.
  intros H.
  destruct (setup_ok _ _ _ _ _ _ _ _ _ _ H) as [Ps [ml [_ [_ [_ [_ [Hc Hst]]]]]]].
  assert (Hsn : snorm c = frobenius sparse) by now rewrite Hc.
  assert (Hl0 : st_last_mat st0 = sparse) by now rewrite Hst.
  split.
  - intros st1 H1. destruct (@iterate_last c 0 st0 st1 H1) as [s [Hs [Hb _]]].
    cbn [iterate] in Hs. injection Hs as <-.
    destruct (outer_body_inv _ _ Hb) as [X [HX [_ [_ Htol]]]].
    exists X. split; [exact HX|]. rewrite Htol. unfold tol_of.
    now rewrite Hsn, Hl0.
  - intros n st_n st_next Hn Hin Hnext.
    destruct (@iterate_last c n st0 st_next Hnext) as [s [Hs [Hb _]]].
    rewrite Hin in Hs. injection Hs as <-.
    destruct n as [|n']; [lia|].
    destruct (@iterate_last c n' st0 st_n Hin) as [sp [_ [Hbp _]]].
    destruct (outer_body_inv _ _ Hbp) as [Xp [HXp [Hlp _]]].
    destruct (outer_body_inv _ _ Hb) as [Xc [HXc [_ [_ Htol]]]].
    exists Xp, Xc. split; [exact HXp|]. split; [exact HXc|].
    rewrite Htol. unfold tol_of. now rewrite Hsn, Hlp.
Qed.

(** *** Outcomes of a call *)

Lemma setup_succeeds dense_mat sparse lags rho0 lam th eps mi Kk msk ml Ps :
  np_max lags = Ok ml ->
  same_shape dense_mat msk = true -> same_shape sparse msk = true ->
  generate_Psi (Z.of_nat (ncols sparse)) lags = Ok Ps ->
  setup dense_mat sparse lags rho0 lam th eps mi Kk msk
  = Ok (mk_config sparse msk lags lam th eps mi Kk Ps ml (frobenius sparse),
        mk_state rho0 None (initial_Z sparse msk)
          (zeros (nrows sparse) (ncols sparse))
          (mat_scale 0.001 (rand (nrows sparse) (length lags))) sparse 0%Z None).
Proof.
  intros Hmax Hd Hs Hgen. unfold setup.
  rewrite Hmax. cbn [bind]. rewrite Hd, Hs. cbn [check bind].
  rewrite Hgen. reflexivity.
Qed.


(** With an inner pass and a positive budget the call returns a matrix. *)
Lemma imputer_returns dense_mat sparse lags rho0 lam th eps mi Kk msk c st0 fuel :
  setup dense_mat sparse lags rho0 lam th eps mi Kk msk = Ok (c, st0) ->
  (1 <= mi)%Z -> (1 <= Kk)%Z -> (Z.to_nat mi <= fuel)%nat ->
  exists X, imputer fuel dense_mat sparse lags rho0 lam th eps mi Kk msk = Some (Ok X).
Proof.
  intros H Hmi HK Hfuel.
  destruct (setup_ok _ _ _ _ _ _ _ _ _ _ H) as [Ps [ml [_ [_ [_ [_ [Hc Hst]]]]]]].
  assert (HKc : K c = Kk) by now rewrite Hc.
  assert (Hmc : maxiter c = mi) by now rewrite Hc.
  assert (Hit0 : st_it st0 = 0%Z) by now rewrite Hst.
  destruct (@outer_loop_terminates c ltac:(lia) fuel st0)
    as [n [st [Hn [Hloop [Hiter _]]]]]; [lia|lia|].
  destruct (@iterate_last c (n - 1) st0 st) as [st_p [_ [Hbody _]]].
  { replace (S (n - 1)) with n by lia. exact Hiter. }
  destruct (outer_body_inv _ _ Hbody) as [X [HX _]].
  exists X. unfold imputer. rewrite H, Hloop, HX. reflexivity.
Qed.

(** *** Inputs rejected before the loop *)

Lemma generate_Psi_negative cols lags ml :
  np_max lags = Ok ml -> (cols < ml)%Z -> generate_Psi cols lags = Error ValueError.
Proof.
  intros Hmax Hlt. unfold generate_Psi. rewrite Hmax. cbn [bind].
  rewrite Nat.add_1_r. cbn [seq mapM]. unfold Psi_at at 1, ones.
  destruct (Z.ltb_spec (cols - ml) 0); [reflexivity|lia].
Qed.

(** C8 (amended): [imputer] has no validation step of its own.  It fails
    before the first pass when a library call of its set-up raises: when
    there is no time lag, when the mask of missing positions does not have
    the shape of the matrices, or when some time lag is strictly greater
    than the number of columns.  A time lag equal to the number of columns
    is not rejected: with matching shapes and every lag between 0 and the
    number of columns, the set-up succeeds and the loop is entered. *)
Theorem imputer_fails_before_loop dense_mat sparse lags rho0 lam th eps mi Kk msk :
  ((lags = [] \/ same_shape dense_mat msk = false \/ same_shape sparse msk = false \/
    exists l, In l lags /\ (Z.of_nat (ncols sparse) < l)%Z) ->
   exists e,
     setup dense_mat sparse lags rho0 lam th eps mi Kk msk = Error e /\
     forall fuel,
       imputer fuel dense_mat sparse lags rho0 lam th eps mi Kk msk = Some (Error e)) /\
  (lags <> [] ->
   same_shape dense_mat msk = true -> same_shape sparse msk = true ->
   (forall l, In l lags -> (0 <= l <= Z.of_nat (ncols sparse))%Z) ->
   exists c st0,
     setup dense_mat sparse lags rho0 lam th eps mi Kk msk = Ok (c, st0)).
Proof.
  split.
  2:{ intros Hne E1 E2 Hlags.
      destruct (generate_Psi_accepts Hne Hlags) as [Ps HPs].
      destruct lags as [|a lags'] eqn:El; [contradiction|]. rewrite <- El in *.
      assert (Hmax : exists ml, np_max lags = Ok ml)
        by (rewrite El; eexists; reflexivity).
      destruct Hmax as [ml Hmax].
      eexists. eexists. apply setup_succeeds; eassumption. }
  intros Hbad.
  assert (Hsetup : exists e,
            setup dense_mat sparse lags rho0 lam th eps mi Kk msk = Error e).
  { unfold setup. destruct lags as [|a lags'] eqn:El.
    - eexists. reflexivity.
    - rewrite <- El in *. destruct (np_max lags) as [ml|e] eqn:Hmax.
      2:{ eexists. reflexivity. }
      cbn [bind]. destruct (same_shape dense_mat msk) eqn:E1.
      2:{ eexists. reflexivity. }
      cbn [check bind]. destruct (same_shape sparse msk) eqn:E2.
      2:{ eexists. reflexivity. }
      cbn [check bind].
      destruct Hbad as [Hb|[Hb|[Hb|[l [Hin Hl]]]]]; try congruence.
      rewrite (@generate_Psi_negative _ lags ml Hmax).
      + eexists. reflexivity.
      + rewrite El in Hmax, Hin. cbn in Hmax. injection Hmax as <-.
        pose proof (@np_max_upper lags' a l Hin). lia. }
  destruct Hsetup as [e He]. exists e. split; [exact He|].
  intros fuel. unfold imputer. now rewrite He.
Qed.

(** *** The per-row linear systems *)




Lemma iden_entry c j l :
  (j < dim1 c)%nat -> (l < dim1 c)%nat -> entry (iden c) j l = delta j l.
Proof.
  intros Hj Hl. unfold iden, toarray. cbn [entry]. unfold arange.
  rewrite Nat2Z.id.
  rewrite <- (map_id (map Z.of_nat (seq 0 (dim1 c)))) at 2.
  rewrite (map_ext (fun x : Z => x) (fun r => (r + 0)%Z)) by (intros; lia).
  rewrite coo_entry_shifted. unfold delta.
  destruct (Nat.leb_spec 0 j); [|lia].
  destruct (Nat.ltb_spec j (0 + dim1 c)); [|lia]. cbn [andb].
  destruct (Z.eqb_spec (Z.of_nat l) (Z.of_nat j + 0)), (Nat.eqb_spec j l);
    try lia; reflexivity.
Qed.

Lemma fold_mat_add_entry l : forall P t j,
  entry (fold_left mat_add l P) t j
  = entry P t j + list_sum (map (fun Q => entry Q t j) l).
Proof.
  induction l as [|Q l IH]; intros P t j; simpl.
  - lra.
  - rewrite IH. cbn [mat_add entry]. lra.
Qed.

Lemma psi_sum_entry c l t j :
  entry (psi_sum c l) t j = list_sum (map (fun Q => entry Q t j) l).
Proof.
  destruct l as [|P l]; [reflexivity|].
  cbn [psi_sum]. rewrite fold_mat_add_entry. reflexivity.
Qed.

Lemma B_row_entry c A m t j :
  entry (B_row c A m) t j
  = entry (Psi c 0) t j
    - sum_n (d c) (fun i => entry A m i * entry (Psi c (i + 1)) t j).
Proof.
  unfold B_row. cbn [mat_sub entry]. rewrite psi_sum_entry.
  unfold scaled_Psis. rewrite map_map. cbn [mat_scale entry].
  now rewrite list_sum_map_seq.
Qed.

Lemma B_row_shape c A m : nrows (B_row c A m) = nrows (Psi c 0) /\
                          ncols (B_row c A m) = ncols (Psi c 0).
Proof. split; reflexivity. Qed.




(** *** What the branches of [svt_tnn] compute *)

Lemma diag_pick (U : nat -> nat -> R) (w : vector) kk a i :
  (vlen w <= kk)%nat -> (i < vlen w)%nat ->
  sum_n (Nat.min (vlen w) kk) (fun l => U a l * entry (diag w) l i) = U a i * vget w i.
Proof.
  intros Hk Hi. rewrite Nat.min_l by exact Hk. cbn [diag entry].
  rewrite (@sum_n_ext (vlen w) _ (fun l => delta l i * (U a l * vget w l))).
  - now rewrite sum_n_pick'.
  - intros l Hl. unfold delta. destruct (Nat.eqb l i); ring.
Qed.

Lemma svt_direct_entries mat tau th u s v a b :
  svd mat = (u, s, v) -> vlen s = ncols u ->
  nrows (svt_direct mat tau th) = nrows u /\
  ncols (svt_direct mat tau th) = ncols v /\
  entry (svt_direct mat tau th) a b
  = sum_n (count_gt s tau)
      (fun i => (entry u a i * (if (i <? th)%nat then vget s i else vget s i - tau))
                * entry v i b).
Proof.
  intros E Hlen. unfold svt_direct. rewrite E.
  split; [reflexivity|]. split; [reflexivity|].
  cbn [matmul entry ncols nrows diag cols_upto rows_upto vlen].
  apply sum_n_ext. intros i Hi. f_equal.
  set (vec := mk_vector (count_gt s tau)
                (fun i => if (i <? th)%nat then vget s i else vget s i - tau)).
  change (sum_n (Nat.min (vlen vec) (ncols u))
            (fun l => entry u a l * entry (diag vec) l i)
          = entry u a i * vget vec i).
  apply diag_pick; [|exact Hi].
  cbn [vec vlen]. rewrite <- Hlen. apply count_gt_le.
Qed.

Lemma svt_gram_entries mat tau th u s0 w a b :
  svd (matmul mat (transpose mat)) = (u, s0, w) -> vlen s0 = ncols u ->
  nrows (svt_gram mat tau th) = nrows u /\
  ncols (svt_gram mat tau th) = ncols mat /\
  entry (svt_gram mat tau th) a b
  = sum_n (count_gt (vec_sqrt s0) tau)
      (fun i => (entry u a i
                 * (if (i <? th)%nat then 1
                    else (sqrt (vget s0 i) - tau) / sqrt (vget s0 i)))
                * sum_n (nrows u) (fun c => entry u c i * entry mat c b)).
Proof.
  intros E Hlen. unfold svt_gram. rewrite E.
  split; [reflexivity|]. split; [reflexivity|].
  cbn [matmul entry ncols nrows diag cols_upto transpose vlen].
  apply sum_n_ext. intros i Hi. f_equal.
  set (mid := mk_vector (count_gt (vec_sqrt s0) tau)
                (fun i => if (i <? th)%nat then 1
                          else (vget (vec_sqrt s0) i - tau) / vget (vec_sqrt s0) i)).
  change (sum_n (Nat.min (vlen mid) (ncols u))
            (fun l => entry u a l * entry (diag mid) l i)
          = entry u a i * vget mid i).
  apply diag_pick; [|exact Hi].
  cbn [mid vlen]. rewrite <- Hlen.
  change (vlen s0) with (vlen (vec_sqrt s0)). apply count_gt_le.
Qed.

Lemma vec_sqrt_nonneg s : nonneg (vec_sqrt s).
Proof. intros i _. apply sqrt_pos. Qed.

Lemma vec_sqrt_descending s : descending s -> descending (vec_sqrt s).
Proof.
  intros Hd i j Hij Hj. cbn [vec_sqrt vget vlen] in *.
  apply sqrt_le_1_alt. now apply Hd.
Qed.

(** The singular values above a positive threshold are positive. *)
Lemma kept_positive s tau i :
  0 < tau -> descending s -> (i < count_gt s tau)%nat -> 0 < vget s i.
Proof.
  intros Htau Hd Hi.
  assert (Hlen : (i < vlen s)%nat) by (pose proof (count_gt_le s tau); lia).
  apply (count_gt_spec tau Hd Hlen) in Hi. lra.
Qed.

Lemma is_svd_compact M u s vh : is_svd M (u, s, vh) -> compact_svd M u s vh.
Proof.
  intros (Hnu & Hcu & Hls & Hnv & Hcv & Hou & Hov & _ & _ & Hnn & Hd & HM).
  unfold compact_svd. repeat split; try assumption.
  - intros i j Hi Hj _ _. rewrite <- Hnu. now apply Hou.
  - intros i j Hi Hj _ _. rewrite <- Hcv. now apply Hov.
Qed.

Lemma compact_svd_transpose M u s vh :
  compact_svd M u s vh -> compact_svd (transpose M) (transpose vh) s (transpose u).
Proof.
  intros (Hls & Hnn & Hd & Hou & Hov & HM).
  unfold compact_svd. cbn [transpose nrows ncols entry].
  rewrite Nat.min_comm. repeat split; try assumption.
  intros a b Ha Hb. rewrite (HM b a Hb Ha). apply sum_n_ext. intros. ring.
Qed.

Lemma svt_spec_transpose m n u s vh tau th :
  mat_eq (transpose (svt_spec n m u s vh tau th))
         (svt_spec m n (transpose vh) s (transpose u) tau th).
Proof.
  unfold mat_eq. cbn [transpose svt_spec nrows ncols entry].
  repeat split. intros i j _ _. apply sum_n_ext. intros. ring.
Qed.

Lemma mat_eq_transpose A B : mat_eq A B -> mat_eq (transpose A) (transpose B).
Proof.
  intros (Hr & Hc & He). unfold mat_eq. cbn [transpose nrows ncols entry].
  repeat split; try assumption. intros i j Hi Hj. now apply He.
Qed.

Lemma mat_eq_trans A B C : mat_eq A B -> mat_eq B C -> mat_eq A C.
Proof.
  intros (Hr & Hc & He) (Hr' & Hc' & He'). unfold mat_eq.
  repeat split; try congruence.
  intros i j Hi Hj. rewrite He by assumption. apply He'; congruence.
Qed.

(** The Gram branch reconstructs from a compact decomposition of [mat]. *)
Lemma svt_gram_is_spec mat tau th :
  0 < tau -> wide mat = true ->
  is_svd (matmul mat (transpose mat)) (svd (matmul mat (transpose mat))) ->
  exists u s vh,
    compact_svd mat u s vh /\
    mat_eq (svt_gram mat tau th) (svt_spec (nrows mat) (ncols mat) u s vh tau th).
Proof.
  intros Htau Hw Hsvd.
  destruct (svd (matmul mat (transpose mat))) as [[u e] w] eqn:E.
  destruct Hsvd as (Hnu & Hcu & Hls & Hnw & Hcw & Hou & Hov & Hsq & _ & Hnn & Hd & HG).
  cbn [matmul transpose nrows ncols entry] in *.
  rewrite Nat.min_id in *. specialize (Hsq eq_refl).
  set (m := nrows mat) in *. set (n := ncols mat) in *.
  assert (Hmn : (m <= n)%nat).
  { unfold wide in Hw. apply Nat.ltb_lt in Hw. fold m n in Hw. lia. }
  assert (HG' : forall a c, (a < m)%nat -> (c < m)%nat ->
            gram n (entry mat) a c
            = sum_n m (fun l => entry u a l * vget e l * entry w l c))
    by (intros a c Ha Hc; exact (HG a c Ha Hc)).
  assert (Hu : forall i j, (i < m)%nat -> (j < m)%nat ->
            sum_n m (fun a => entry u a i * entry u a j) = delta i j)
    by (intros i j Hi Hj; rewrite <- Hnu; now apply Hou).
  assert (Hw' : forall i j, (i < m)%nat -> (j < m)%nat ->
            sum_n m (fun c => entry w i c * entry w j c) = delta i j)
    by (intros i j Hi Hj; rewrite <- Hcw; now apply Hov).
  assert (Huu : forall a c, (a < m)%nat -> (c < m)%nat ->
            sum_n m (fun i => entry u a i * entry u c i) = delta a c)
    by (intros a c Ha Hc; rewrite <- Hcu; now apply Hsq).
  assert (He : forall i, (i < m)%nat -> 0 <= vget e i)
    by (intros i Hi; apply Hnn; lia).
  set (vh := mk_matrix m n (gram_vh m (entry mat) (entry u) (vget e))).
  exists u, (vec_sqrt e), vh.
  assert (Hdesc : descending (vec_sqrt e)) by now apply vec_sqrt_descending.
  split.
  - unfold compact_svd. fold m n. rewrite (Nat.min_l _ _ Hmn).
    cbn [vec_sqrt vlen vget vh entry].
    split; [exact Hls|]. split; [apply vec_sqrt_nonneg|]. split; [exact Hdesc|].
    split; [|split].
    + intros i j Hi Hj _ _. now apply Hu.
    + intros i j Hi Hj Hpi Hpj.
      exact (@gram_vh_orthonormal m n (entry mat) (entry u) (entry w) (vget e)
               HG' Hu Hw' He i j Hi Hj Hpi Hpj).
    + intros a b Ha Hb.
      exact (@gram_reconstructs m n (entry mat) (entry u) (entry w) (vget e)
               HG' Hu Hw' Huu He a b Ha Hb).
  - destruct (@svt_gram_entries mat tau th u e w 0%nat 0%nat E ltac:(lia))
      as (Hr & Hc & _).
    unfold mat_eq. cbn [svt_spec nrows ncols entry].
    split; [now rewrite Hr|]. split; [exact Hc|].
    intros a b Ha Hb.
    destruct (@svt_gram_entries mat tau th u e w a b E ltac:(lia)) as (_ & _ & ->).
    rewrite Hnu. fold m.
    apply (@gram_path_components m (entry mat) (entry u) (vget e) tau th).
    + pose proof (count_gt_le (vec_sqrt e) tau) as Hle. cbn [vec_sqrt vlen] in Hle. lia.
    + intros i Hi. exact (@kept_positive (vec_sqrt e) tau i Htau Hdesc Hi).
Qed.

(** C2: for a positive threshold, [svt_tnn] returns the reconstruction
    from a singular value decomposition of its argument in which, with the
    singular values in descending order, exactly the components whose
    singular value exceeds [tau] are kept, the first [theta] kept values
    are left as they are and the other kept values lose [tau]. *)
Theorem svt_tnn_thresholds_singular_values mat tau th :
  0 < tau ->
  is_svd (decomposed mat) (svd (decomposed mat)) ->
  exists u s vh,
    compact_svd mat u s vh /\
    mat_eq (svt_tnn mat tau th) (svt_spec (nrows mat) (ncols mat) u s vh tau th) /\
    (forall i, (i < vlen s)%nat -> (i < count_gt s tau)%nat <-> tau < vget s i) /\
    (forall a b,
       entry (svt_spec (nrows mat) (ncols mat) u s vh tau th) a b
       = sum_n (count_gt s tau)
           (fun i => entry u a i
                     * (if (i <? th)%nat then vget s i else vget s i - tau)
                     * entry vh i b)).
Proof.
  intros Htau Hsvd. unfold decomposed in Hsvd.
  rewrite svt_tnn_branches.
  assert (Hfin : forall M u s vh R,
            compact_svd M u s vh ->
            mat_eq R (svt_spec (nrows M) (ncols M) u s vh tau th) ->
            compact_svd M u s vh /\
            mat_eq R (svt_spec (nrows M) (ncols M) u s vh tau th) /\
            (forall i, (i < vlen s)%nat -> (i < count_gt s tau)%nat <-> tau < vget s i) /\
            (forall a b,
               entry (svt_spec (nrows M) (ncols M) u s vh tau th) a b
               = sum_n (count_gt s tau)
                   (fun i => entry u a i
                             * (if (i <? th)%nat then vget s i else vget s i - tau)
                             * entry vh i b))).
  { intros M u s vh R Hc He. split; [exact Hc|]. split; [exact He|]. split.
    - intros i Hi. apply count_gt_spec; [|exact Hi].
      destruct Hc as (_ & _ & Hd & _). exact Hd.
    - intros a b. reflexivity. }
  destruct (wide mat) eqn:Hw.
  - destruct (@svt_gram_is_spec mat tau th Htau Hw Hsvd) as (u & s & vh & Hc & He).
    exists u, s, vh. now apply Hfin.
  - destruct (tall mat) eqn:Ht.
    + rewrite svt_tnn_branches.
      assert (Hw' : wide (transpose mat) = true) by exact Ht.
      rewrite Hw'.
      destruct (@svt_gram_is_spec (transpose mat) tau th Htau Hw' Hsvd)
        as (u & s & vh & Hc & He).
      exists (transpose vh), s, (transpose u). apply Hfin.
      * exact (@compact_svd_transpose _ _ _ _ Hc).
      * eapply mat_eq_trans; [apply mat_eq_transpose, He|].
        apply svt_spec_transpose.
    + destruct (svd mat) as [[u s] v] eqn:E.
      exists u, s, v. apply Hfin.
      * now apply is_svd_compact.
      * destruct Hsvd as (Hnu & Hcu & Hls & Hnv & Hcv & _).
        destruct (@svt_direct_entries mat tau th u s v 0%nat 0%nat E ltac:(congruence))
          as (Hr & Hc & _).
        unfold mat_eq. cbn [svt_spec nrows ncols entry].
        split; [congruence|]. split; [congruence|].
        intros a b _ _.
        destruct (@svt_direct_entries mat tau th u s v a b E ltac:(congruence))
          as (_ & _ & ->).
        apply sum_n_ext. intros. unfold shrunk. ring.
Qed.


(** *** The three branches against each other *)








(** *** The penalty parameter *)

Lemma cap_once y : Rmin (Rmin y 1e5 * 1.05) 1e5 = Rmin (y * 1.05) 1e5.
Proof.
  unfold Rmin. destruct (Rle_dec y 1e5) as [H1|H1]; [reflexivity|].
  destruct (Rle_dec (1e5 * 1.05) 1e5), (Rle_dec (y * 1.05) 1e5); lra.
Qed.

Lemma cap_iter x (k : nat) : Rmin (Rmin x 1e5 * 1.05 ^ k) 1e5 = Rmin (x * 1.05 ^ k) 1e5.
Proof.
  induction k as [|k IH].
  - cbn [pow]. rewrite !Rmult_1_r. apply Rmin_left, Rmin_r.
  - replace (Rmin x 1e5 * 1.05 ^ S k) with (Rmin x 1e5 * 1.05 ^ k * 1.05)
      by (cbn [pow]; ring).
    replace (x * 1.05 ^ S k) with (x * 1.05 ^ k * 1.05) by (cbn [pow]; ring).
    rewrite <- cap_once, IH. apply cap_once.
Qed.

Lemma cap_step r (k : nat) :
  Rmin (Rmin (r * 1.05 ^ k) 1e5 * 1.05) 1e5 = Rmin (r * 1.05 ^ S k) 1e5.
Proof.
  rewrite cap_once. f_equal. cbn [pow]. ring.
Qed.

Lemma inner_loop_rho c B k st :
  st_rho (inner_loop c B (S k) st) = Rmin (st_rho st * 1.05 ^ S k) 1e5.
Proof.
  induction k as [|k IH].
  - change (st_rho (inner_loop c B 1 st)) with (next_rho st). unfold next_rho.
    f_equal. cbn [pow]. ring.
  - change (inner_loop c B (S (S k)) st)
      with (inner_step c B (inner_loop c B (S k) st)).
    change (st_rho (inner_step c B (inner_loop c B (S k) st)))
      with (next_rho (inner_loop c B (S k) st)).
    unfold next_rho. rewrite IH. apply cap_step.
Qed.

Lemma cap_compose r (a b : nat) :
  Rmin (Rmin (r * 1.05 ^ a) 1e5 * 1.05 ^ b) 1e5 = Rmin (r * 1.05 ^ (a + b)) 1e5.
Proof. rewrite cap_iter. f_equal. rewrite pow_add. ring. Qed.

Lemma outer_body_rho c st st' k :
  Z.to_nat (K c) = S k -> outer_body c st = Ok st' ->
  st_rho st' = Rmin (st_rho st * 1.05 ^ S k) 1e5.
Proof.
  intros HK. unfold outer_body. rewrite HK.
  destruct (st_X _); cbn [of_option bind]; [|discriminate].
  intros H. injection H as <-. cbn [st_rho]. apply inner_loop_rho.
Qed.

Lemma iterate_rho c k n : forall st st',
  Z.to_nat (K c) = S k -> iterate c (S n) st = Some st' ->
  st_rho st' = Rmin (st_rho st * 1.05 ^ (S n * S k)) 1e5.
Proof.
  induction n as [|n IH]; intros st st' HK H.
  - cbn [iterate] in H. destruct (outer_body c st) as [st1|] eqn:E; [|discriminate].
    injection H as <-. rewrite (@outer_body_rho c st st1 k HK E). f_equal. f_equal. f_equal. lia.
  - change (iterate c (S (S n)) st)
      with (match outer_body c st with
            | Error _ => None
            | Ok st1 => if stop c st1 then None else iterate c (S n) st1
            end) in H.
    destruct (outer_body c st) as [st1|] eqn:E; [|discriminate].
    destruct (stop c st1); [discriminate|].
    rewrite (IH _ _ HK H), (@outer_body_rho c st st1 k HK E).
    rewrite cap_compose. reflexivity.
Qed.

(** X8: with [K >= 1] inner passes per outer pass, the penalty parameter
    after [n >= 1] outer passes is [min(rho0 * 1.05 ^ (n * K), 1e5)]: it
    grows by 5 % with every inner pass and is capped at [1e5]. *)
Theorem rho_schedule dense_mat sparse lags rho0 lam th eps mi Kk msk c st0 n st :
  setup dense_mat sparse lags rho0 lam th eps mi Kk msk = Ok (c, st0) ->
  (1 <= Kk)%Z -> (1 <= n)%nat ->
  iterate c n st0 = Some st ->
  st_rho st = Rmin (rho0 * 1.05 ^ (n * Z.to_nat Kk)) 1e5 /\ st_rho st <= 1e5.
Proof.
  intros Hs HK Hn Hit.
  destruct (setup_ok _ _ _ _ _ _ _ _ _ _ Hs) as (Ps & ml & _ & _ & _ & _ & Ec & Est).
  destruct n as [|n]; [lia|].
  assert (HKc : Z.to_nat (K c) = S (Z.to_nat Kk - 1)) by (rewrite Ec; cbn [K]; lia).
  rewrite (@iterate_rho c (Z.to_nat Kk - 1) n st0 st HKc Hit).
  replace (st_rho st0) with rho0 by (rewrite Est; reflexivity).
  replace (S (Z.to_nat Kk - 1)) with (Z.to_nat Kk) by lia.
  split; [reflexivity|apply Rmin_r].
Qed.

(** *** Edge values of [maxiter] and [K] *)



(** *** A pass that changes nothing *)

Lemma frobenius_zero A :
  (forall i j, (i < nrows A)%nat -> (j < ncols A)%nat -> entry A i j = 0) ->
  frobenius A = 0.
Proof.
  intros H. unfold frobenius. rewrite sum_n_zero; [apply sqrt_0|].
  intros i Hi. apply sum_n_zero. intros j Hj. rewrite H by assumption. ring.
Qed.

(** X11: a pass whose [X] equals the previous one entry by entry gives
    [tol = 0] (the norm of the observed matrix not being zero), which the
    test [tol != 0] keeps from counting as convergence: after such a pass
    the loop stops only if [it] has reached [maxiter]. *)
Theorem unchanged_X_is_not_convergence c st st' X :
  snorm c <> 0 ->
  outer_body c st = Ok st' -> st_X st' = Some X ->
  (forall i j, (i < nrows X)%nat -> (j < ncols X)%nat ->
     entry X i j = entry (st_last_mat st) i j) ->
  st_tol st' = Some 0 /\
  (stop c st' = true <-> (maxiter c <= st_it st')%Z).
Proof.
  intros _ Hb HX Heq.
  destruct (outer_body_inv _ _ Hb) as (X' & HX' & _ & _ & Htol).
  rewrite HX in HX'. injection HX' as <-.
  assert (Hz : tol_of c X (st_last_mat st) = 0).
  { unfold tol_of. rewrite frobenius_zero.
    - unfold Rdiv. ring.
    - intros i j Hi Hj. cbn [mat_sub entry nrows ncols] in *.
      rewrite Heq by assumption. ring. }
  rewrite Hz in Htol. split; [exact Htol|].
  rewrite (stop_spec c st' Htol). split.
  - intros [[_ Hne]|H]; [now contradiction Hne|exact H].
  - intros H. now right.
Qed.

(** *** Shapes *)

Section Shapes.

(** The outer shape of what [np.linalg.svd(M, full_matrices = 0)] returns:
    [u] has the rows of [M] and [vh] its columns. *)
Hypothesis svd_shapes : forall M,
  nrows (fst (fst (svd M))) = nrows M /\ ncols (snd (svd M)) = ncols M.

Lemma svt_gram_shape mat tau th :
  nrows (svt_gram mat tau th) = nrows mat /\ ncols (svt_gram mat tau th) = ncols mat.
Proof.
  unfold svt_gram. pose proof (svd_shapes (matmul mat (transpose mat))) as [H _].
  destruct (svd (matmul mat (transpose mat))) as [[u s0] w].
  split; [exact H|reflexivity].
Qed.

Lemma svt_direct_shape mat tau th :
  nrows (svt_direct mat tau th) = nrows mat /\ ncols (svt_direct mat tau th) = ncols mat.
Proof.
  unfold svt_direct. pose proof (svd_shapes mat) as [H1 H2].
  destruct (svd mat) as [[u s] v]. split; [exact H1|exact H2].
Qed.

Lemma svt_tnn_shape mat tau th :
  nrows (svt_tnn mat tau th) = nrows mat /\ ncols (svt_tnn mat tau th) = ncols mat.
Proof.
  rewrite svt_tnn_branches. destruct (wide mat) eqn:Ew; [apply svt_gram_shape|].
  destruct (tall mat) eqn:Et; [|apply svt_direct_shape].
  rewrite svt_tnn_branches.
  assert (Ewt : wide (transpose mat) = true).
  { unfold wide, tall in *. cbn [transpose nrows ncols]. exact Et. }
  rewrite Ewt. destruct (svt_gram_shape (transpose mat) tau th) as [H1 H2].
  cbn [transpose nrows ncols] in *. split; assumption.
Qed.

(** X12: whatever the branch, [svt_tnn] returns a matrix of the shape of
    its argument, as soon as the factors returned by the decomposition
    routine have the rows and the columns of the matrix they decompose. *)
Theorem svt_tnn_keeps_shape mat tau th :
  nrows (svt_tnn mat tau th) = nrows mat /\
  ncols (svt_tnn mat tau th) = ncols mat /\
  nrows (svt_tnn (transpose mat) tau th) = ncols mat /\
  ncols (svt_tnn (transpose mat) tau th) = nrows mat.
Proof.
  destruct (svt_tnn_shape mat tau th) as [H1 H2].
  destruct (svt_tnn_shape (transpose mat) tau th) as [H3 H4].
  repeat split; assumption.
Qed.






End Shapes.

(** *** The autoregressive residual *)

Lemma np_max_nonneg cols lags ml Ps :
  np_max lags = Ok ml -> generate_Psi cols lags = Ok Ps -> (0 <= ml)%Z.
Proof.
  intros Hmax H.
  destruct (generate_Psi_value _ _ Hmax H) as (Hn & Hc & _ & Hoff).
  destruct (Z.eq_dec (cols - ml) 0) as [E|E]; [lia|].
  destruct (Hoff ltac:(lia) 0%nat ltac:(lia)) as [H0 _].
  exact H0.
Qed.

(** X14: row [t] of [B[m]] applied to a series [z] of the length of the
    time axis is the residual of the autoregression with the coefficients
    of row [m] of [A]:
    [z[t + max_lag] - sum_i A[m, i] * z[t + max_lag - time_lags[i]]]. *)
Theorem B_row_is_autoregressive_residual
  dense_mat sparse lags rho0 lam th eps mi Kk msk c st0 A m (z : vector) t :
  setup dense_mat sparse lags rho0 lam th eps mi Kk msk = Ok (c, st0) ->
  vlen z = ncols sparse -> (t < trimmed c)%nat ->
  ncols (B_row c A m) = vlen z /\
  vget (matvec (B_row c A m) z) t
  = vget z (Z.to_nat (Z.of_nat t + max_lag c))
    - sum_n (length lags)
        (fun i => entry A m i
                  * vget z (Z.to_nat (Z.of_nat t + max_lag c - nth i lags 0%Z))).
Proof.
  intros Hs Hz Ht.
  destruct (setup_ok _ _ _ _ _ _ _ _ _ _ Hs)
    as (Ps & ml & Hmax & _ & _ & HPs & Ec & _).
  assert (Htr : trimmed c = Z.to_nat (Z.of_nat (ncols sparse) - ml))
    by (rewrite Ec; reflexivity).
  assert (Hml : max_lag c = ml) by (rewrite Ec; reflexivity).
  assert (Hd : d c = length lags) by (rewrite Ec; reflexivity).
  assert (HPsi : forall i, Psi c i = toarray (nth i Ps Psi_dflt))
    by (intros i; rewrite Ec; reflexivity).
  rewrite Htr in Ht. rewrite Hml.
  destruct (B_row_shape c A m) as [_ Hcols].
  assert (Hc0 : ncols (Psi c 0) = ncols sparse).
  { rewrite HPsi.
    destruct (@Psi_shape _ lags ml Ps 0%nat Hmax HPs ltac:(lia)) as [_ ->].
    apply Nat2Z.id. }
  split; [rewrite Hcols, Hc0; symmetry; exact Hz|].
  cbn [matvec vget]. rewrite Hcols, Hc0.
  rewrite (@sum_n_ext _ _
     (fun j => entry (Psi c 0) t j * vget z j
               - sum_n (length lags)
                   (fun i => entry A m i * (entry (Psi c (i + 1)) t j * vget z j)))).
  2:{ intros j Hj. rewrite B_row_entry, Hd, Rmult_minus_distr_r.
      f_equal. rewrite <- sum_n_scal_r. apply sum_n_ext. intros. ring. }
  rewrite sum_n_minus, sum_n_swap. f_equal.
  - destruct (@Psi_matvec _ lags ml Ps 0%nat z t Hmax HPs ltac:(lia) Ht) as [_ Hv].
    cbn [matvec vget] in Hv. rewrite HPsi.
    destruct (@Psi_shape _ lags ml Ps 0%nat Hmax HPs ltac:(lia)) as [_ Hc].
    rewrite Hc, Nat2Z.id in Hv. rewrite Hv. reflexivity.
  - apply sum_n_ext. intros i Hi. rewrite sum_n_scal_l. f_equal.
    destruct (@Psi_matvec _ lags ml Ps (i + 1)%nat z t Hmax HPs ltac:(lia) Ht)
      as [_ Hv].
    cbn [matvec vget] in Hv. rewrite HPsi.
    destruct (@Psi_shape _ lags ml Ps (i + 1)%nat Hmax HPs ltac:(lia)) as [_ Hc].
    rewrite Hc, Nat2Z.id in Hv. rewrite Hv.
    unfold offset. destruct (Nat.eqb_spec (i + 1) 0); [lia|].
    replace (i + 1 - 1)%nat with i by lia. f_equal. f_equal. lia.
Qed.

(** X15: the data of the regression that updates row [m] of [A] are the
    lag operators applied to row [m] of [Z]: column [i] of [Vm] is
    [Psi_(i+1) z] and the target [Z[m, max_lag :]] is [Psi_0 z]; both have
    [dim[1] - max_lag] entries. *)
Theorem regression_data_are_lag_windows
  dense_mat sparse lags rho0 lam th eps mi Kk msk c st0 Zm m :
  setup dense_mat sparse lags rho0 lam th eps mi Kk msk = Ok (c, st0) ->
  ncols Zm = ncols sparse ->
  nrows (Vm c Zm m) = trimmed c /\ ncols (Vm c Zm m) = length lags /\
  vlen (vec_from (row Zm m) (Z.to_nat (max_lag c))) = trimmed c /\
  (forall t i, (t < trimmed c)%nat -> (i < length lags)%nat ->
     entry (Vm c Zm m) t i = vget (matvec (Psi c (i + 1)) (row Zm m)) t) /\
  (forall t, (t < trimmed c)%nat ->
     vget (vec_from (row Zm m) (Z.to_nat (max_lag c))) t
     = vget (matvec (Psi c 0) (row Zm m)) t).
Proof.
  intros Hs Hz.
  destruct (setup_ok _ _ _ _ _ _ _ _ _ _ Hs)
    as (Ps & ml & Hmax & _ & _ & HPs & Ec & _).
  assert (Htr : trimmed c = Z.to_nat (Z.of_nat (ncols sparse) - ml))
    by (rewrite Ec; reflexivity).
  assert (Hml : max_lag c = ml) by (rewrite Ec; reflexivity).
  assert (Hd : d c = length lags) by (rewrite Ec; reflexivity).
  assert (Hl : time_lags c = lags) by (rewrite Ec; reflexivity).
  assert (HPsi : forall i, Psi c i = toarray (nth i Ps Psi_dflt))
    by (intros i; rewrite Ec; reflexivity).
  pose proof (@np_max_nonneg _ lags ml Ps Hmax HPs) as Hml0.
  destruct (generate_Psi_value _ _ Hmax HPs) as (Hn & _ & _ & _).
  split; [reflexivity|]. split; [exact Hd|].
  split; [cbn [vec_from row vlen]; rewrite Htr, Hml, Hz; lia|].
  split.
  - intros t i Ht Hi. rewrite Htr in Ht.
    destruct (@Psi_matvec _ lags ml Ps (i + 1)%nat (row Zm m) t Hmax HPs
                ltac:(lia) Ht) as [_ Hv].
    rewrite HPsi, Hv. cbn [Vm entry row vget]. unfold ind. rewrite Hml, Hl.
    unfold offset. destruct (Nat.eqb_spec (i + 1) 0); [lia|].
    replace (i + 1 - 1)%nat with i by lia. f_equal. lia.
  - intros t Ht. rewrite Htr in Ht.
    destruct (@Psi_matvec _ lags ml Ps 0%nat (row Zm m) t Hmax HPs
                ltac:(lia) Ht) as [_ Hv].
    rewrite HPsi, Hv. cbn [vec_from row vget offset Nat.eqb]. rewrite Hml.
    f_equal. lia.
Qed.

(** *** The row systems are well posed *)

Lemma normal_matrix_entry c Bm rho j l :
  (j < dim1 c)%nat -> (l < dim1 c)%nat ->
  entry (normal_matrix c Bm rho) j l
  = gram (nrows Bm) (fun a b => entry Bm b a) j l + rho / lambda0 c * delta j l.
Proof.
  intros Hj Hl. unfold normal_matrix.
  cbn [mat_add mat_div mat_scale matmul transpose entry nrows ncols].
  rewrite iden_entry by assumption. unfold gram, Rdiv. ring.
Qed.

(** X16: when [rho / lambda0] is positive, the system that the update of
    a row of [Z] hands to [spsolve] has at most one solution: its matrix
    [B^T B + (rho / lambda0) I] is positive definite. *)
Theorem row_system_has_one_solution c Bm rho (b z1 z2 : vector) :
  0 < rho / lambda0 c -> ncols Bm = dim1 c ->
  vlen z1 = dim1 c -> vlen z2 = dim1 c ->
  vec_eq (matvec (normal_matrix c Bm rho) z1) b ->
  vec_eq (matvec (normal_matrix c Bm rho) z2) b ->
  vec_eq z1 z2.
Proof.
  intros Hq HB H1 H2 [Hl1 He1] [Hl2 He2].
  set (n := dim1 c) in *. set (q := rho / lambda0 c) in *.
  set (w := fun l => vget z1 l - vget z2 l).
  set (G := gram (nrows Bm) (fun a b => entry Bm b a)).
  assert (Hrows : vlen (matvec (normal_matrix c Bm rho) z1) = n) by exact HB.
  assert (Hrows2 : vlen (matvec (normal_matrix c Bm rho) z2) = n) by exact HB.
  assert (Hw : forall j, (j < n)%nat ->
            sum_n n (fun l => G j l * w l) + q * w j = 0).
  { intros j Hj.
    pose proof (He1 j ltac:(rewrite Hrows; exact Hj)) as E1.
    pose proof (He2 j ltac:(rewrite Hrows2; exact Hj)) as E2.
    cbn [matvec vget] in E1, E2.
    assert (Hc : ncols (normal_matrix c Bm rho) = n) by exact HB.
    rewrite Hc in E1, E2.
    assert (Hsplit : forall z : vector,
              sum_n n (fun l => entry (normal_matrix c Bm rho) j l * vget z l)
              = sum_n n (fun l => G j l * vget z l) + q * vget z j).
    { intros z.
      rewrite (@sum_n_ext n _ (fun l => G j l * vget z l
                                        + delta j l * (q * vget z l))).
      - rewrite sum_n_plus. f_equal. now apply sum_n_pick.
      - intros l Hl. rewrite normal_matrix_entry by assumption.
        fold G q. ring. }
    rewrite Hsplit in E1, E2.
    unfold w. rewrite (@sum_n_ext n _ (fun l => G j l * vget z1 l - G j l * vget z2 l))
      by (intros; ring).
    rewrite sum_n_minus. lra. }
  assert (Hquad : sum_n n (fun j => w j * sum_n n (fun l => G j l * w l))
                  + q * sum_n n (fun j => w j * w j) = 0).
  { rewrite <- sum_n_scal_l, <- sum_n_plus. apply sum_n_zero. intros j Hj.
    replace (w j * sum_n n (fun l => G j l * w l) + q * (w j * w j))
      with (w j * (sum_n n (fun l => G j l * w l) + q * w j)) by ring.
    rewrite (Hw j Hj). ring. }
  unfold G in Hquad. rewrite gram_quadratic in Hquad.
  assert (Hpos : 0 <= sum_n (nrows Bm)
                   (fun b => sum_n n (fun a => w a * entry Bm b a)
                             * sum_n n (fun a => w a * entry Bm b a))).
  { apply sum_n_nonneg. intros. apply Rle_0_sqr. }
  assert (Hsq : 0 <= sum_n n (fun j => w j * w j)).
  { apply sum_n_nonneg. intros. apply Rle_0_sqr. }
  assert (Hzero : sum_n n (fun j => w j * w j) = 0) by nra.
  split; [now rewrite H1, H2|].
  intros i Hi. rewrite H1 in Hi.
  pose proof (@sum_n_nonneg_zero n (fun j => w j * w j)
                ltac:(intros; apply Rle_0_sqr) Hzero i Hi) as Hi0.
  cbv beta in Hi0. unfold w in Hi0.
  assert (vget z1 i - vget z2 i = 0) by nra. lra.
Qed.

(** *** Thresholds above the norm of the matrix *)

(** The squared length of the projection of the rows' combination
    [x^T M] for a unit vector [x] is at most the squared Frobenius norm. *)
Lemma unit_projection_le m n (M : nat -> nat -> R) (x : nat -> R) :
  sum_n m (fun a => x a * x a) = 1 ->
  sum_n n (fun b => sum_n m (fun a => x a * M a b) * sum_n m (fun a => x a * M a b))
  <= sum_n m (fun a => sum_n n (fun b => M a b * M a b)).
Proof.
  intros Hx. set (p := fun b => sum_n m (fun a => x a * M a b)).
  set (S1 := sum_n m (fun a => sum_n n (fun b => M a b * M a b))).
  set (P := sum_n n (fun b => p b * p b)).
  assert (Hsq : 0 <= sum_n m (fun a => sum_n n (fun b =>
                       (M a b - x a * p b) * (M a b - x a * p b)))).
  { apply sum_n_nonneg. intros. apply sum_n_nonneg. intros. apply Rle_0_sqr. }
  assert (Hexp : sum_n m (fun a => sum_n n (fun b =>
                    (M a b - x a * p b) * (M a b - x a * p b)))
                 = S1 - 2 * P + P).
  { rewrite (@sum_n_ext m _ (fun a =>
               sum_n n (fun b => M a b * M a b)
               - 2 * sum_n n (fun b => p b * (x a * M a b))
               + (x a * x a) * P)).
    2:{ intros a Ha. unfold P.
        rewrite <- sum_n_scal_l, <- sum_n_scal_l, <- sum_n_minus, <- sum_n_plus.
        apply sum_n_ext. intros. ring. }
    rewrite sum_n_plus, sum_n_minus, sum_n_scal_l, sum_n_scal_r, Hx.
    fold S1. rewrite sum_n_swap.
    rewrite (@sum_n_ext n _ (fun b => p b * p b)).
    2:{ intros b Hb. rewrite sum_n_scal_l. reflexivity. }
    fold P. ring. }
  change (P <= S1). lra.
Qed.

Lemma sqrt_le_of_square x y : 0 <= x -> x * x <= y -> x <= sqrt y.
Proof.
  intros Hx H. rewrite <- (sqrt_square x Hx). now apply sqrt_le_1_alt.
Qed.

Lemma singular_values_below_norm M u s vh i :
  is_svd M (u, s, vh) -> (i < vlen s)%nat -> vget s i <= frobenius M.
Proof.
  intros (Hnu & Hcu & Hls & Hnv & Hcv & Hou & Hov & _ & _ & Hnn & _ & HM) Hi.
  set (m := nrows M) in *. set (n := ncols M) in *. set (k := Nat.min m n) in *.
  rewrite Hls in Hi.
  assert (HU : forall i j, (i < k)%nat -> (j < k)%nat ->
            sum_n m (fun a => entry u a i * entry u a j) = delta i j)
    by (intros; rewrite <- Hnu; now apply Hou).
  assert (HV : forall i j, (i < k)%nat -> (j < k)%nat ->
            sum_n n (fun b => entry vh i b * entry vh j b) = delta i j)
    by (intros; rewrite <- Hcv; now apply Hov).
  apply sqrt_le_of_square; [apply Hnn; lia|].
  pose proof (@unit_projection_le m n (entry M) (fun a => entry u a i)) as Hb.
  cbv beta in Hb. rewrite HU in Hb by assumption.
  unfold delta in Hb. rewrite Nat.eqb_refl in Hb. specialize (Hb eq_refl).
  rewrite (@sum_n_ext n _
             (fun b => (vget s i * vget s i) * (entry vh i b * entry vh i b))) in Hb.
  - rewrite sum_n_scal_l, HV in Hb by assumption.
    unfold delta in Hb. rewrite Nat.eqb_refl, Rmult_1_r in Hb. exact Hb.
  - intros b Hbn.
    rewrite (@left_factor m n k (entry M) (entry u) (entry vh) (vget s) HM HU i b Hi Hbn).
    ring.
Qed.

Lemma gram_values_below_norm M u e w i :
  is_svd (matmul M (transpose M)) (u, e, w) -> (i < vlen e)%nat ->
  sqrt (vget e i) <= frobenius M.
Proof.
  intros (Hnu & Hcu & Hls & Hnw & Hcw & Hou & Hov & _ & _ & Hnn & _ & HG) Hi.
  cbn [matmul transpose nrows ncols entry] in *. rewrite Nat.min_id in *.
  set (m := nrows M) in *. set (n := ncols M) in *. rewrite Hls in Hi.
  assert (HG' : forall a c, (a < m)%nat -> (c < m)%nat ->
            gram n (entry M) a c
            = sum_n m (fun l => entry u a l * vget e l * entry w l c))
    by (intros a c Ha Hc; exact (HG a c Ha Hc)).
  assert (Hu : forall i j, (i < m)%nat -> (j < m)%nat ->
            sum_n m (fun a => entry u a i * entry u a j) = delta i j)
    by (intros; rewrite <- Hnu; now apply Hou).
  assert (Hw' : forall i j, (i < m)%nat -> (j < m)%nat ->
            sum_n m (fun c => entry w i c * entry w j c) = delta i j)
    by (intros; rewrite <- Hcw; now apply Hov).
  assert (He : forall i, (i < m)%nat -> 0 <= vget e i)
    by (intros j Hj; apply Hnn; lia).
  unfold frobenius. apply sqrt_le_1_alt. fold m n.
  pose proof (@unit_projection_le m n (entry M) (fun a => entry u a i)) as Hb.
  cbv beta in Hb. rewrite Hu in Hb by assumption.
  unfold delta in Hb. rewrite Nat.eqb_refl in Hb. specialize (Hb eq_refl).
  rewrite <- (@gram_quadratic m n (entry M) (fun a => entry u a i)) in Hb.
  rewrite (@sum_n_ext m _ (fun a => vget e i * (entry u a i * entry u a i))) in Hb.
  - rewrite sum_n_scal_l, Hu in Hb by assumption.
    unfold delta in Hb. rewrite Nat.eqb_refl, Rmult_1_r in Hb. exact Hb.
  - intros a Ha.
    rewrite (@gram_eigen_u m n (entry M) (entry u) (entry w) (vget e)
               HG' Hu Hw' He a i Ha Hi).
    ring.
Qed.

Lemma count_gt_none s tau :
  descending s -> (forall i, (i < vlen s)%nat -> vget s i <= tau) ->
  count_gt s tau = 0%nat.
Proof.
  intros Hd H. destruct (count_gt s tau) as [|c] eqn:E; [reflexivity|].
  pose proof (count_gt_le s tau) as Hle.
  assert (H0 : (0 < vlen s)%nat) by lia.
  pose proof (proj1 (count_gt_spec tau Hd H0) ltac:(lia)) as Hgt.
  specialize (H 0%nat H0). lra.
Qed.

Lemma frobenius_transpose M : frobenius (transpose M) = frobenius M.
Proof.
  unfold frobenius. cbn [transpose nrows ncols entry]. f_equal. apply sum_n_swap.
Qed.

Lemma svt_gram_small mat tau th :
  frobenius mat <= tau ->
  is_svd (matmul mat (transpose mat)) (svd (matmul mat (transpose mat))) ->
  mat_eq (svt_gram mat tau th) (zeros (nrows mat) (ncols mat)).
Proof.
  intros Hn Hsvd.
  destruct (svd (matmul mat (transpose mat))) as [[u e] w] eqn:E.
  assert (Hcount : count_gt (vec_sqrt e) tau = 0%nat).
  { apply count_gt_none.
    - apply vec_sqrt_descending.
      now destruct Hsvd as (_ & _ & _ & _ & _ & _ & _ & _ & _ & _ & Hd & _).
    - intros i Hi. cbn [vec_sqrt vlen vget] in *.
      pose proof (@gram_values_below_norm mat u e w i Hsvd Hi). lra. }
  destruct Hsvd as (Hnu & Hcu & Hls & _).
  cbn [matmul transpose nrows ncols] in Hnu, Hcu, Hls.
  assert (Hlen : vlen e = ncols u) by congruence.
  destruct (@svt_gram_entries mat tau th u e w 0%nat 0%nat E Hlen) as (Hr & Hc & _).
  split; [cbn [zeros nrows]; congruence|]. split; [exact Hc|].
  intros a b _ _.
  destruct (@svt_gram_entries mat tau th u e w a b E Hlen) as (_ & _ & ->).
  rewrite Hcount. reflexivity.
Qed.

Lemma svt_tnn_of_small_core mat tau th :
  frobenius mat <= tau ->
  is_svd (decomposed mat) (svd (decomposed mat)) ->
  mat_eq (svt_tnn mat tau th) (zeros (nrows mat) (ncols mat)).
Proof.
  intros Hn Hsvd. unfold decomposed in Hsvd. rewrite svt_tnn_branches.
  destruct (wide mat) eqn:Hw; [now apply svt_gram_small|].
  destruct (tall mat) eqn:Ht.
  - rewrite svt_tnn_branches.
    assert (Hw' : wide (transpose mat) = true) by exact Ht.
    rewrite Hw'.
    assert (Hn' : frobenius (transpose mat) <= tau)
      by (now rewrite frobenius_transpose).
    pose proof (@svt_gram_small (transpose mat) tau th Hn' Hsvd) as Hz.
    apply mat_eq_transpose in Hz.
    eapply mat_eq_trans; [exact Hz|].
    split; [reflexivity|]. split; [reflexivity|]. intros a b _ _. reflexivity.
  - destruct (svd mat) as [[u s] v] eqn:E.
    assert (Hcount : count_gt s tau = 0%nat).
    { apply count_gt_none.
      - now destruct Hsvd as (_ & _ & _ & _ & _ & _ & _ & _ & _ & _ & Hd & _).
      - intros i Hi. pose proof (@singular_values_below_norm mat u s v i Hsvd Hi).
        lra. }
    destruct Hsvd as (Hnu & Hcu & Hls & Hnv & Hcv & _).
    assert (Hlen : vlen s = ncols u) by congruence.
    destruct (@svt_direct_entries mat tau th u s v 0%nat 0%nat E Hlen) as (Hr & Hc & _).
    split; [cbn [zeros nrows]; congruence|]. split; [cbn [zeros ncols]; congruence|].
    intros a b _ _.
    destruct (@svt_direct_entries mat tau th u s v a b E Hlen) as (_ & _ & ->).
    rewrite Hcount. reflexivity.
Qed.

(** X24: a threshold that is not below the Frobenius norm of the matrix
    leaves nothing: no singular value of the matrix exceeds it, and
    [svt_tnn] returns the zero matrix on all three branches, whatever
    [theta] is. *)
Theorem svt_tnn_of_small_matrix mat tau th :
  frobenius mat <= tau ->
  is_svd (decomposed mat) (svd (decomposed mat)) ->
  mat_eq (svt_tnn mat tau th) (zeros (nrows mat) (ncols mat)) /\
  (forall u s vh, is_svd mat (u, s, vh) ->
     (forall i, (i < vlen s)%nat -> vget s i <= tau) /\ count_gt s tau = 0%nat).
Proof.
  intros Hn Hsvd. split; [now apply svt_tnn_of_small_core|].
  intros u s vh Hu.
  assert (Hall : forall i, (i < vlen s)%nat -> vget s i <= tau).
  { intros i Hi. pose proof (@singular_values_below_norm mat u s vh i Hu Hi). lra. }
  split; [exact Hall|]. apply count_gt_none; [|exact Hall].
  now destruct Hu as (_ & _ & _ & _ & _ & _ & _ & _ & _ & _ & Hd & _).
Qed.

(** *** The first pass under a small penalty parameter *)

Lemma frobenius_ext A B :
  nrows A = nrows B -> ncols A = ncols B ->
  (forall i j, (i < nrows A)%nat -> (j < ncols A)%nat -> entry A i j = entry B i j) ->
  frobenius A = frobenius B.
Proof.
  intros Hr Hc H. unfold frobenius. rewrite <- Hr, <- Hc. f_equal.
  apply sum_n_ext. intros i Hi. apply sum_n_ext. intros j Hj.
  now rewrite H.
Qed.

(** X25: for [rho0] not zero, the first [X] is the zero matrix when
    [1 / rho], for the [rho] of the first inner pass, is not below the
    Frobenius norm of the initial [Z]: the threshold then removes every
    singular value, observed entries included.  With [K = 1],
    [maxiter <= 1] and [lambda0] not zero this zero matrix is what
    [imputer] returns. *)
Theorem first_X_vanishes_under_small_rho
  dense_mat sparse lags rho0 lam th eps mi Kk msk c st0 :
  setup dense_mat sparse lags rho0 lam th eps mi Kk msk = Ok (c, st0) ->
  rho0 <> 0 ->
  let rho1 := Rmin (rho0 * 1.05) 1e5 in
  let W := mat_sub (st_Z st0) (mat_div (st_T st0) rho1) in
  frobenius (initial_Z sparse msk) <= 1 / rho1 ->
  is_svd (decomposed W) (svd (decomposed W)) ->
  (forall B, exists X,
     st_X (inner_step c B st0) = Some X /\
     mat_eq X (zeros (nrows sparse) (ncols sparse))) /\
  (Kk = 1%Z -> (mi <= 1)%Z -> lam <> 0 -> forall fuel, (1 <= fuel)%nat ->
   exists X,
     imputer fuel dense_mat sparse lags rho0 lam th eps mi Kk msk = Some (Ok X) /\
     mat_eq X (zeros (nrows sparse) (ncols sparse))).
Proof.
  intros Hs _ rho1 W Hn Hsvd.
  destruct (setup_ok _ _ _ _ _ _ _ _ _ _ Hs) as (Ps & ml & _ & _ & _ & _ & Ec & Est).
  assert (Hrho : next_rho st0 = rho1) by (rewrite Est; reflexivity).
  assert (HX : next_X c st0 = svt_tnn W (1 / rho1) th).
  { unfold next_X. rewrite Hrho, Ec. reflexivity. }
  assert (HW : frobenius W = frobenius (initial_Z sparse msk)).
  { apply frobenius_ext; unfold W; rewrite Est; try reflexivity.
    intros i j _ _. cbn [mat_sub mat_div zeros entry st_Z st_T]. unfold Rdiv. ring. }
  assert (Hz : mat_eq (next_X c st0) (zeros (nrows sparse) (ncols sparse))).
  { rewrite HX.
    assert (HshW : nrows W = nrows sparse /\ ncols W = ncols sparse)
      by (unfold W; rewrite Est; split; reflexivity).
    destruct HshW as [<- <-].
    apply svt_tnn_of_small_core; [rewrite HW; exact Hn|exact Hsvd]. }
  split.
  - intros B. exists (next_X c st0). split; [reflexivity|exact Hz].
  - intros HK Hmi _ fuel Hfuel.
    assert (Hb : outer_body c st0
                 = Ok (mk_state (next_rho st0) (Some (next_X c st0))
                         (st_Z (inner_step c (build_B c (st_A st0)) st0))
                         (st_T (inner_step c (build_B c (st_A st0)) st0))
                         (update_A c (st_Z (inner_step c (build_B c (st_A st0)) st0)))
                         (next_X c st0) (st_it st0 + 1)%Z
                         (Some (tol_of c (next_X c st0) (st_last_mat st0))))).
    { assert (HKc : Z.to_nat (K c) = 1%nat) by (rewrite Ec; cbn [K]; lia).
      unfold outer_body. rewrite HKc. reflexivity. }
    exists (next_X c st0). split; [|exact Hz].
    unfold imputer. rewrite Hs.
    destruct fuel as [|fuel]; [lia|]. cbn [outer_loop]. rewrite Hb.
    assert (Hstop : stop c (mk_state (next_rho st0) (Some (next_X c st0))
                         (st_Z (inner_step c (build_B c (st_A st0)) st0))
                         (st_T (inner_step c (build_B c (st_A st0)) st0))
                         (update_A c (st_Z (inner_step c (build_B c (st_A st0)) st0)))
                         (next_X c st0) (st_it st0 + 1)%Z
                         (Some (tol_of c (next_X c st0) (st_last_mat st0)))) = true).
    { unfold stop. apply orb_true_iff. right. apply Z.leb_le.
      cbn [st_it]. rewrite Ec, Est. cbn [maxiter st_it]. lia. }
    rewrite Hstop. reflexivity.
Qed.

End Routines.

End Kernel.

(** * Error measures: [compute_mae], [compute_rmse], [evaluate] *)

Module Metrics.

Import RSum Dense Kernel.
Local Open Scope R_scope.

Section Measures.

(** What NumPy returns for the mean of nothing and for [0.0 / 0]; no value
    is assumed. *)
Variable nan : R.

(** [a - b] for one-dimensional arrays: element by element when the
    lengths agree, an array of length 1 being stretched to the length of
    the other; other lengths cannot be broadcast together. *)
Definition zip_sub (a b : list R) : list R :=
  map (fun xy => fst xy - snd xy) (combine a b).

Definition np_sub (a b : list R) : result (list R) :=
  if Nat.eqb (length a) (length b) then Ok (zip_sub a b)
  else if Nat.eqb (length a) 1 then Ok (zip_sub (repeat (hd 0 a) (length b)) b)
  else if Nat.eqb (length b) 1 then Ok (zip_sub a (repeat (hd 0 b) (length a)))
  else Error ValueError.

(** [np.mean(np.abs(var - var_hat))], for the one-dimensional arrays that
    indexing by a boolean mask returns. *)
Definition compute_mae (var var_hat : list R) : result R :=
  diff <- np_sub var var_hat ;;
  Ok (np_mean nan (map Rabs diff)).

(** [np.sqrt(np.sum((var - var_hat) ** 2) / var.shape[0])]: the sum is
    divided by the length of [var]; for an empty [var] this is [0.0 / 0]. *)
Definition compute_rmse (var var_hat : list R) : result R :=
  diff <- np_sub var var_hat ;;
  Ok (match var with
      | [] => nan
      | _ => sqrt (list_sum (map (fun x => x ^ 2) diff) / INR (length var))
      end).

(** [A[m]] for a boolean mask [m]: the entries where the mask holds, in
    row-major order. *)
Definition mask_select (A : matrix) (m : mask) : result (list R) :=
  _ <- check (same_shape A m) IndexError ;;
  Ok (concat (map (fun i => map (entry A i)
                              (filter (mentry m i) (seq 0 (ncols A))))
                  (seq 0 (nrows A)))).

(** The two measures that [imputer] prints for its result [X]:
    [compute_mae(dense_test, X[pos_test])] and
    [compute_rmse(dense_test, X[pos_test])] with
    [dense_test = dense_mat[pos_test]]. *)
Definition report (dense_mat X : matrix) (pos_test : mask) : result (R * R) :=
  dense_test <- mask_select dense_mat pos_test ;;
  X_test <- mask_select X pos_test ;;
  mae <- compute_mae dense_test X_test ;;
  rmse <- compute_rmse dense_test X_test ;;
  Ok (mae, rmse).

(** [A[mask].flatten()]; the index [None] adds an axis and keeps every
    entry. *)
Definition index_flat (A : matrix) (m : option mask) : result (list R) :=
  match m with
  | None => Ok (flatten A)
  | Some m => mask_select A m
  end.

(** [sklearn.metrics.mean_squared_error] and [mean_absolute_error] on
    one-dimensional arrays: the arrays must have the same, non-zero,
    number of samples. *)
Definition consistent (y_true y_pred : list R) : bool :=
  Nat.eqb (length y_true) (length y_pred) && negb (Nat.eqb (length y_true) 0).

Definition mean_squared_error (y_true y_pred : list R) : result R :=
  _ <- check (consistent y_true y_pred) ValueError ;;
  Ok (list_sum (map (fun x => x ^ 2) (zip_sub y_true y_pred)) / INR (length y_true)).

Definition mean_absolute_error (y_true y_pred : list R) : result R :=
  _ <- check (consistent y_true y_pred) ValueError ;;
  Ok (list_sum (map Rabs (zip_sub y_true y_pred)) / INR (length y_true)).

(** [evaluate(raw_data, prediction, mask, seasonal)].  In the branch for
    a seasonal component the name [concated_prediction] is read before
    anything was assigned to it. *)
Definition evaluate (raw_data prediction : matrix) (mask : option mask)
  (seasonal : option matrix) : result (R * R * list R) :=
  prediction' <- index_flat prediction mask ;;
  missed_raw_data <- index_flat raw_data mask ;;
  match seasonal with
  | Some season =>
      missed_seasonal <- index_flat season mask ;;
      Error UnboundLocalError
  | None =>
      mse <- mean_squared_error missed_raw_data prediction' ;;
      mae <- mean_absolute_error missed_raw_data prediction' ;;
      Ok (sqrt mse, mae, prediction')
  end.


(** ** Sums of differences *)

Lemma zip_sub_length a b : length a = length b -> length (zip_sub a b) = length a.
Proof.
  intros H. unfold zip_sub. rewrite length_map, length_combine, <- H.
  apply Nat.min_id.
Qed.

Lemma np_sub_same_length a b :
  length a = length b -> np_sub a b = Ok (zip_sub a b).
Proof. intros H. unfold np_sub. now rewrite H, Nat.eqb_refl. Qed.

Lemma list_sum_nonneg l : (forall x, In x l -> 0 <= x) -> 0 <= list_sum l.
Proof.
  induction l as [|x l IH]; intros H; cbn [list_sum fold_right]; [lra|].
  fold (list_sum l).
  assert (0 <= x) by (apply H; now left).
  assert (0 <= list_sum l) by (apply IH; intros; apply H; now right). lra.
Qed.

Lemma list_sum_nonneg_zero l :
  (forall x, In x l -> 0 <= x) -> list_sum l = 0 -> forall x, In x l -> x = 0.
Proof.
  induction l as [|y l IH]; intros Hpos Hs x Hx; [contradiction|].
  cbn [list_sum fold_right] in Hs. fold (list_sum l) in Hs.
  assert (0 <= y) by (apply Hpos; now left).
  assert (0 <= list_sum l) by (apply list_sum_nonneg; intros; apply Hpos; now right).
  destruct Hx as [<-|Hx]; [lra|].
  apply IH; [intros; apply Hpos; now right|lra|exact Hx].
Qed.

Lemma list_sum_zero l : (forall x, In x l -> x = 0) -> list_sum l = 0.
Proof.
  induction l as [|y l IH]; intros H; [reflexivity|].
  cbn [list_sum fold_right]. fold (list_sum l).
  rewrite (H y) by now left. rewrite IH by (intros; apply H; now right). lra.
Qed.

Lemma zip_sub_zero_iff a : forall b,
  length a = length b ->
  ((forall x, In x (zip_sub a b) -> x = 0) <-> a = b).
Proof.
  induction a as [|x a IH]; intros [|y b] Hl; try discriminate.
  - split; [reflexivity|intros _ z []].
  - cbn [length] in Hl. injection Hl as Hl. unfold zip_sub in *.
    cbn [combine map fst snd]. split.
    + intros H. f_equal.
      * specialize (H (x - y) ltac:(now left)). lra.
      * apply (proj1 (IH b Hl)). intros z Hz. apply H. now right.
    + intros E. injection E as -> ->. intros z [<-|Hz]; [lra|].
      exact (proj2 (IH b eq_refl) eq_refl z Hz).
Qed.

Lemma in_map_Rabs_nonneg l x : In x (map Rabs l) -> 0 <= x.
Proof.
  intros H. apply in_map_iff in H. destruct H as [y [<- _]]. apply Rabs_pos.
Qed.

Lemma in_map_sq_nonneg l x : In x (map (fun x => x ^ 2) l) -> 0 <= x.
Proof.
  intros H. apply in_map_iff in H. destruct H as [y [<- _]]. apply pow2_ge_0.
Qed.

(** The sum of the absolute values against the sum of the squares. *)
Lemma abs_sum_cross l : forall a,
  2 * a * list_sum (map Rabs l)
  <= list_sum (map (fun x => x ^ 2) l) + INR (length l) * (a * a).
Proof.
  induction l as [|x l IH]; intros a.
  - cbn. lra.
  - cbn [map list_sum fold_right length]. rewrite S_INR.
    fold (list_sum (map Rabs l)). fold (list_sum (map (fun x => x ^ 2) l)).
    specialize (IH a).
    assert (Hx : x ^ 2 = Rabs x * Rabs x).
    { unfold Rabs. destruct (Rcase_abs x); ring. }
    rewrite Hx.
    generalize dependent (list_sum (map Rabs l)).
    generalize (list_sum (map (fun x => x ^ 2) l)) (INR (length l)) (Rabs x).
    intros Q n ax S IH.
    assert (0 <= (ax - a) * (ax - a)) by apply Rle_0_sqr.
    nra.
Qed.

Lemma abs_sum_squared l :
  list_sum (map Rabs l) * list_sum (map Rabs l)
  <= INR (length l) * list_sum (map (fun x => x ^ 2) l).
Proof.
  induction l as [|x l IH].
  - cbn. lra.
  - cbn [map list_sum fold_right length]. rewrite S_INR.
    fold (list_sum (map Rabs l)). fold (list_sum (map (fun x => x ^ 2) l)).
    pose proof (abs_sum_cross l (Rabs x)) as Hc.
    assert (Hx : x ^ 2 = Rabs x * Rabs x).
    { unfold Rabs. destruct (Rcase_abs x); ring. }
    rewrite Hx.
    generalize dependent (list_sum (map Rabs l)).
    generalize (list_sum (map (fun x => x ^ 2) l)) (INR (length l)) (Rabs x).
    intros Q n ax S IH Hc.
    nra.
Qed.

Lemma np_mean_cons x l :
  np_mean nan (x :: l) = list_sum (x :: l) / INR (length (x :: l)).
Proof. reflexivity. Qed.

Lemma np_mean_nonempty l :
  l <> [] -> np_mean nan l = list_sum l / INR (length l).
Proof. destruct l; [contradiction|reflexivity]. Qed.

(** ** The measures on arrays of the same length *)

Lemma measures_values var var_hat :
  length var = length var_hat -> var <> [] ->
  compute_mae var var_hat
  = Ok (list_sum (map Rabs (zip_sub var var_hat)) / INR (length var)) /\
  compute_rmse var var_hat
  = Ok (sqrt (list_sum (map (fun x => x ^ 2) (zip_sub var var_hat))
              / INR (length var))).
Proof.
  intros Hl Hne. unfold compute_mae, compute_rmse.
  rewrite (@np_sub_same_length var var_hat Hl). cbn [bind]. split.
  - rewrite np_mean_nonempty.
    + now rewrite length_map, zip_sub_length.
    + destruct var; [contradiction|]. destruct var_hat; [discriminate|]. discriminate.
  - destruct var; [contradiction|reflexivity].
Qed.

(** X17: on two arrays of the same non-zero length both measures are
    computed, neither is negative, and each vanishes exactly when the two
    arrays are equal. *)
Theorem measures_vanish_iff_equal var var_hat :
  length var = length var_hat -> var <> [] ->
  exists mae rmse,
    compute_mae var var_hat = Ok mae /\ compute_rmse var var_hat = Ok rmse /\
    0 <= mae /\ 0 <= rmse /\
    (mae = 0 <-> var = var_hat) /\ (rmse = 0 <-> var = var_hat).
Proof.
  intros Hl Hne. destruct (@measures_values var var_hat Hl Hne) as [Ha Hr].
  do 2 eexists. split; [exact Ha|]. split; [exact Hr|].
  assert (Hn : 0 < INR (length var)).
  { apply lt_0_INR. destruct var; [contradiction|cbn; lia]. }
  set (A := list_sum (map Rabs (zip_sub var var_hat))).
  set (Q := list_sum (map (fun x => x ^ 2) (zip_sub var var_hat))).
  assert (HA : 0 <= A) by (apply list_sum_nonneg, in_map_Rabs_nonneg).
  assert (HQ : 0 <= Q) by (apply list_sum_nonneg, in_map_sq_nonneg).
  assert (HAz : A = 0 <-> var = var_hat).
  { rewrite <- (@zip_sub_zero_iff var var_hat Hl). split.
    - intros H0 x Hx.
      pose proof (list_sum_nonneg_zero _ (@in_map_Rabs_nonneg _) H0 (Rabs x)
                    (in_map Rabs _ _ Hx)) as Hz.
      destruct (Req_dec x 0) as [E|E]; [exact E|].
      now apply Rabs_no_R0 in E.
    - intros H0. apply list_sum_zero. intros y Hy.
      apply in_map_iff in Hy. destruct Hy as [x [<- Hx]].
      rewrite (H0 x Hx). apply Rabs_R0. }
  assert (HQz : Q = 0 <-> var = var_hat).
  { rewrite <- (@zip_sub_zero_iff var var_hat Hl). split.
    - intros H0 x Hx.
      pose proof (list_sum_nonneg_zero _ (@in_map_sq_nonneg _) H0 (x ^ 2)
                    (in_map (fun x => x ^ 2) _ _ Hx)) as Hz.
      cbn [pow] in Hz. nra.
    - intros H0. apply list_sum_zero. intros y Hy.
      apply in_map_iff in Hy. destruct Hy as [x [<- Hx]].
      rewrite (H0 x Hx). cbn [pow]. ring. }
  assert (Hdiv : forall x, 0 <= x -> 0 <= x / INR (length var)).
  { intros x Hx. apply Rmult_le_pos; [exact Hx|].
    left. now apply Rinv_0_lt_compat. }
  assert (Hdz : forall x, x / INR (length var) = 0 <-> x = 0).
  { intros x. split.
    - intros H0. apply (Rmult_eq_reg_r (/ INR (length var))).
      + unfold Rdiv in H0. rewrite H0. ring.
      + apply Rinv_neq_0_compat. lra.
    - intros ->. unfold Rdiv. ring. }
  split; [now apply Hdiv|]. split; [apply sqrt_pos|].
  split.
  - rewrite Hdz. exact HAz.
  - rewrite <- HQz, <- (Hdz Q). split.
    + intros H0. apply sqrt_eq_0; [now apply Hdiv|exact H0].
    + intros ->. apply sqrt_0.
Qed.

(** X18: on two arrays of the same non-zero length the mean absolute
    error is at most the root mean square error. *)
Theorem mae_le_rmse var var_hat :
  length var = length var_hat -> var <> [] ->
  exists mae rmse,
    compute_mae var var_hat = Ok mae /\ compute_rmse var var_hat = Ok rmse /\
    mae <= rmse.
Proof.
  intros Hl Hne. destruct (@measures_values var var_hat Hl Hne) as [Ha Hr].
  do 2 eexists. split; [exact Ha|]. split; [exact Hr|].
  assert (Hn : 0 < INR (length var)).
  { apply lt_0_INR. destruct var; [contradiction|cbn; lia]. }
  set (d := zip_sub var var_hat).
  assert (Hlen : length d = length var) by (now apply zip_sub_length).
  pose proof (abs_sum_squared d) as Hcs. rewrite Hlen in Hcs.
  set (A := list_sum (map Rabs d)) in *.
  set (Q := list_sum (map (fun x => x ^ 2) d)) in *.
  set (n := INR (length var)) in *.
  assert (HA : 0 <= A) by (apply list_sum_nonneg, in_map_Rabs_nonneg).
  assert (Hin : 0 < / n) by (now apply Rinv_0_lt_compat).
  assert (Hq : 0 <= A / n) by (apply Rmult_le_pos; lra).
  rewrite <- (sqrt_square (A / n) Hq).
  apply sqrt_le_1_alt.
  unfold Rdiv. 
  assert (Hnn : n * / n = 1) by (apply Rinv_r; lra).
  assert (A * A * / n <= Q).
  { apply (Rmult_le_reg_r n); [exact Hn|].
    replace (A * A * / n * n) with (A * A * (n * / n)) by ring.
    rewrite Hnn. lra. }
  replace (A * / n * (A * / n)) with (A * A * / n * / n) by ring.
  apply Rmult_le_compat_r; lra.
Qed.

(** ** Arrays of different lengths *)

Lemma zip_sub_repeat_l x w :
  zip_sub (repeat x (length w)) w = map (fun y => x - y) w.
Proof.
  unfold zip_sub. induction w as [|y w IH]; [reflexivity|].
  cbn [length repeat combine map fst snd]. now rewrite IH.
Qed.

Lemma zip_sub_repeat_r x w :
  zip_sub w (repeat x (length w)) = map (fun y => y - x) w.
Proof.
  unfold zip_sub. induction w as [|y w IH]; [reflexivity|].
  cbn [length repeat combine map fst snd]. now rewrite IH.
Qed.

(** X19: arrays whose lengths differ, neither being 1, make both measures
    raise [ValueError].  An array of length 1 is compared with every
    element of the other one, and [compute_rmse] divides by the length of
    its first argument: with the single value first the sum of the squares
    is not averaged at all, with the single value second it is averaged
    over the other array. *)
Theorem measures_on_unequal_lengths var var_hat x :
  (length var <> length var_hat -> length var <> 1%nat -> length var_hat <> 1%nat ->
   compute_mae var var_hat = Error ValueError /\
   compute_rmse var var_hat = Error ValueError) /\
  ((2 <= length var_hat)%nat ->
   compute_mae [x] var_hat
   = Ok (list_sum (map Rabs (map (fun y => x - y) var_hat)) / INR (length var_hat)) /\
   compute_rmse [x] var_hat
   = Ok (sqrt (list_sum (map (fun d => d ^ 2) (map (fun y => x - y) var_hat)))) /\
   compute_rmse var_hat [x]
   = Ok (sqrt (list_sum (map (fun d => d ^ 2) (map (fun y => y - x) var_hat))
               / INR (length var_hat)))).
Proof.
  split.
  - intros H1 H2 H3. unfold compute_mae, compute_rmse, np_sub.
    destruct (Nat.eqb_spec (length var) (length var_hat)); [contradiction|].
    destruct (Nat.eqb_spec (length var) 1); [contradiction|].
    destruct (Nat.eqb_spec (length var_hat) 1); [contradiction|].
    split; reflexivity.
  - intros Hlen. unfold compute_mae, compute_rmse, np_sub. cbn [length hd].
    destruct (Nat.eqb_spec 1 (length var_hat)); [lia|].
    destruct (Nat.eqb_spec (length var_hat) 1); [lia|].
    cbn [Nat.eqb bind]. rewrite zip_sub_repeat_l, zip_sub_repeat_r.
    split; [|split].
    + rewrite np_mean_nonempty.
      * now rewrite !length_map.
      * destruct var_hat; [cbn in Hlen; lia|discriminate].
    + f_equal. f_equal. cbn [INR]. unfold Rdiv. rewrite Rinv_1. ring.
    + destruct var_hat; [cbn in Hlen; lia|reflexivity].
Qed.

(** ** Selections by a mask *)

Lemma select_rows_length (f g : nat -> nat -> R) (F : nat -> list nat) l :
  length (concat (map (fun i => map (f i) (F i)) l))
  = length (concat (map (fun i => map (g i) (F i)) l)).
Proof.
  induction l as [|i l IH]; [reflexivity|].
  cbn [map concat]. rewrite !length_app, !length_map, IH. reflexivity.
Qed.

Lemma mask_select_ok A m :
  same_shape A m = true ->
  mask_select A m
  = Ok (concat (map (fun i => map (entry A i) (filter (mentry m i) (seq 0 (mcols m))))
                    (seq 0 (mrows m)))).
Proof.
  intros H. unfold mask_select. rewrite H. cbn [check bind].
  unfold same_shape in H. apply andb_true_iff in H. destruct H as [Hr Hc].
  apply Nat.eqb_eq in Hr, Hc. now rewrite Hr, Hc.
Qed.

Lemma mask_select_error A m e : mask_select A m = Error e -> e = IndexError.
Proof.
  unfold mask_select. destruct (same_shape A m); cbn [check bind]; congruence.
Qed.

Lemma mask_select_ext A B m :
  same_shape A m = true -> same_shape B m = true ->
  (forall i j, (i < mrows m)%nat -> (j < mcols m)%nat -> mentry m i j = true ->
     entry A i j = entry B i j) ->
  mask_select A m = mask_select B m.
Proof.
  intros HA HB H. rewrite (mask_select_ok _ _ HA), (mask_select_ok _ _ HB).
  f_equal. f_equal. apply map_ext_in. intros i Hi. apply in_seq in Hi.
  apply map_ext_in. intros j Hj. apply filter_In in Hj. destruct Hj as [Hj Hm].
  apply in_seq in Hj. apply H; [lia|lia|exact Hm].
Qed.

Lemma mask_select_nonempty A m i j :
  (i < mrows m)%nat -> (j < mcols m)%nat -> mentry m i j = true ->
  concat (map (fun i => map (entry A i) (filter (mentry m i) (seq 0 (mcols m))))
              (seq 0 (mrows m))) <> [].
Proof.
  intros Hi Hj Hm E.
  assert (Hin : In (entry A i j)
            (concat (map (fun i => map (entry A i)
                                     (filter (mentry m i) (seq 0 (mcols m))))
                         (seq 0 (mrows m))))).
  { apply in_concat. eexists. split.
    - apply in_map_iff. exists i. split; [reflexivity|]. apply in_seq. lia.
    - apply in_map. apply filter_In. split; [apply in_seq; lia|exact Hm]. }
  rewrite E in Hin. exact Hin.
Qed.

(** X20: when [dense_mat] and [X] have the shape of the mask, the two
    measures that [imputer] prints are computed without an error, and they
    depend on [X] only through its entries at the masked positions. *)
Theorem report_reads_masked_entries dense_mat X X' (m : mask) :
  same_shape dense_mat m = true -> same_shape X m = true -> same_shape X' m = true ->
  (forall i j, (i < mrows m)%nat -> (j < mcols m)%nat -> mentry m i j = true ->
     entry X i j = entry X' i j) ->
  (exists mae rmse, report dense_mat X m = Ok (mae, rmse)) /\
  report dense_mat X m = report dense_mat X' m.
Proof.
  intros HD HX HX' Hagree. split.
  - unfold report. rewrite (mask_select_ok _ _ HD), (mask_select_ok _ _ HX).
    cbn [bind]. unfold compute_mae, compute_rmse.
    rewrite np_sub_same_length by apply select_rows_length.
    cbn [bind]. do 2 eexists. reflexivity.
  - unfold report. now rewrite (@mask_select_ext X X' m HX HX' Hagree).
Qed.

(** ** [evaluate] *)

Lemma index_flat_error A m e : index_flat A m = Error e -> e = IndexError.
Proof. destruct m as [m|]; [apply mask_select_error|discriminate]. Qed.

(** X21: a call of [evaluate] with a seasonal component never returns a
    result: it raises [IndexError] if a boolean mask does not fit one of
    the arrays, and otherwise [UnboundLocalError] at
    [concated_prediction += missed_seasonal]. *)
Theorem evaluate_with_seasonal_raises raw_data prediction mask season :
  (exists e, evaluate raw_data prediction mask (Some season) = Error e /\
             (e = IndexError \/ e = UnboundLocalError)) /\
  (forall l1 l2 l3,
     index_flat prediction mask = Ok l1 -> index_flat raw_data mask = Ok l2 ->
     index_flat season mask = Ok l3 ->
     evaluate raw_data prediction mask (Some season) = Error UnboundLocalError).
Proof.
  split.
  - unfold evaluate.
    destruct (index_flat prediction mask) as [l1|e1] eqn:E1; cbn [bind].
    2:{ exists e1. split; [reflexivity|left; exact (@index_flat_error _ _ _ E1)]. }
    destruct (index_flat raw_data mask) as [l2|e2] eqn:E2; cbn [bind].
    2:{ exists e2. split; [reflexivity|left; exact (@index_flat_error _ _ _ E2)]. }
    destruct (index_flat season mask) as [l3|e3] eqn:E3; cbn [bind].
    2:{ exists e3. split; [reflexivity|left; exact (@index_flat_error _ _ _ E3)]. }
    exists UnboundLocalError. split; [reflexivity|now right].
  - intros l1 l2 l3 E1 E2 E3. unfold evaluate. now rewrite E1, E2, E3.
Qed.

(** X22: without a seasonal component and with a mask that fits both
    arrays and selects at least one entry, [evaluate] returns the selected
    predictions together with the root mean square error and the mean
    absolute error of the selections, the values that [compute_rmse] and
    [compute_mae] give on them; a mask that selects nothing makes it raise
    [ValueError]. *)
Theorem evaluate_agrees_with_measures raw_data prediction (m : mask) :
  same_shape raw_data m = true -> same_shape prediction m = true ->
  exists sel_raw sel_pred,
    mask_select raw_data m = Ok sel_raw /\ mask_select prediction m = Ok sel_pred /\
    ((exists i j, (i < mrows m)%nat /\ (j < mcols m)%nat /\ mentry m i j = true) ->
     exists rmse mae,
       evaluate raw_data prediction (Some m) None = Ok (rmse, mae, sel_pred) /\
       compute_rmse sel_raw sel_pred = Ok rmse /\
       compute_mae sel_raw sel_pred = Ok mae) /\
    (sel_raw = [] ->
     evaluate raw_data prediction (Some m) None = Error ValueError).
Proof.
  intros HR HP.
  do 2 eexists. split; [exact (mask_select_ok _ _ HR)|].
  split; [exact (mask_select_ok _ _ HP)|].
  match goal with |- context [compute_rmse ?a ?b] => set (sr := a); set (sp := b) end.
  assert (Hlen : length sr = length sp) by apply select_rows_length.
  split.
  - intros (i & j & Hi & Hj & Hm).
    assert (Hne : sr <> []) by (exact (@mask_select_nonempty raw_data m i j Hi Hj Hm)).
    destruct (@measures_values sr sp Hlen Hne) as [Ha Hr].
    do 2 eexists. split; [|split; [exact Hr|exact Ha]].
    unfold evaluate. cbn [index_flat].
    rewrite (mask_select_ok _ _ HR), (mask_select_ok _ _ HP). cbn [bind].
    fold sr sp. unfold mean_squared_error, mean_absolute_error, consistent.
    rewrite Hlen, Nat.eqb_refl.
    destruct (Nat.eqb_spec (length sp) 0) as [E0|E0].
    { rewrite <- Hlen in E0. destruct sr; [contradiction|discriminate]. }
    cbn [andb negb check bind]. rewrite <- Hlen. reflexivity.
  - intros E. unfold evaluate. cbn [index_flat].
    rewrite (mask_select_ok _ _ HR), (mask_select_ok _ _ HP). cbn [bind].
    fold sr sp. unfold mean_squared_error, consistent.
    rewrite E. cbn [length]. rewrite <- Hlen, E. reflexivity.
Qed.

End Measures.

End Metrics.

(** * The run of the notebook *)

Module Notebook.

Import RSum Dense Lag Kernel.
Local Open Scope R_scope.





Section Run.

Variable svd : matrix -> matrix * vector * matrix.
Variable spsolve : matrix -> vector -> vector.
Variable pinv : matrix -> matrix.
Variable rand : nat -> nat -> matrix.
Variable nan : R.





End Run.

End Notebook.

(** * Worked instances

    Concrete inputs on which the definitions above are evaluated: a tensor
    and its unfoldings, a 2 x 2 imputation problem, and two small matrices
    with hand-made singular value decompositions. *)

Module Instances.

Import Index Tensor RSum Dense Lag Spectral Kernel.

(** ** Inputs *)

(** *** Tensors *)

(** The 2 x 2 x 2 tensor [np.arange(8).reshape(2, 2, 2)]. *)
Definition arange_222 : ndarray nat := mk_ndarray [2; 2; 2] [0; 1; 2; 3; 4; 5; 6; 7].

(** A tensor of shape (0, 3): it has no element. *)
Definition empty_03 : ndarray nat := mk_ndarray [0; 3] [].

Local Open Scope R_scope.

(** *** Library routines *)

(** Stand-ins for the library routines: they have the right shapes, and
    [spsolve_diag] solves diagonal systems. *)
Definition svd_none (M : matrix) : matrix * vector * matrix :=
  (M, mk_vector 0 (fun _ => 0), M).

Definition spsolve_diag (N : matrix) (b : vector) : vector :=
  mk_vector (vlen b) (fun j => vget b j / entry N j j).

Definition pinv_none (M : matrix) : matrix := transpose M.

Definition rand_zero (r c : nat) : matrix := zeros r c.

(** *** A 2 x 2 imputation problem *)

(** A 2 x 2 matrix observed everywhere but at [(1, 1)]; the entry at
    [(0, 0)] is an observed zero. *)
Definition sparse_ex : matrix := of_lists 2 2 [[0; 2]; [4; 0]].
Definition dense_ex : matrix := of_lists 2 2 [[0; 2]; [4; 6]].
Definition mask_ex : mask := mk_mask 2 2 (fun i j => Nat.eqb i 1 && Nat.eqb j 1).

Definition Psis_ex : list coo :=
  [mk_coo [1] [0%Z] [1%Z] (1%Z, 2%Z); mk_coo [1] [0%Z] [0%Z] (1%Z, 2%Z)].

Definition state_ex : state :=
  mk_state 1 None (initial_Z 0 sparse_ex mask_ex) (zeros 2 2)
           (mat_scale 0.001 (rand_zero 2 1)) sparse_ex 0%Z None.

(** [imputer(dense_ex, sparse_ex, [1], 1, 1, 1, 1e-4, maxiter, K, mask_ex)] *)
Definition config_ex (mi Kk : Z) : config :=
  mk_config sparse_ex mask_ex [1%Z] 1 1 0.0001 mi Kk Psis_ex 1%Z (frobenius sparse_ex).

(** The first row system of the first pass on it. *)
Definition B0_ex : matrix :=
  nth 0 (build_B (config_ex 2 1) (st_A state_ex)) (zeros 0 0).



(** *** A 1 x 3 matrix *)

(** [[3, 0, 4]] has the single singular value 5; its Gram matrix is [[25]]. *)
Definition mat_w : matrix := of_lists 1 3 [[3; 0; 4]].

Definition eye1 : matrix := of_lists 1 1 [[1]].

(** A decomposition routine that is right on [mat_w] and on its Gram
    matrix. *)
Definition svd_w (M : matrix) : matrix * vector * matrix :=
  if Nat.eqb (ncols M) 3
  then (eye1, of_list [5], of_lists 1 3 [[3 / 5; 0; 4 / 5]])
  else (eye1, of_list [25], eye1).

Ltac index_cases i :=
  destruct i as [|[|[|[|[|i]]]]]; try lia.

(** *** A matrix with a repeated singular value *)




Local Close Scope R_scope.

(** ** Evaluations *)

(** *** Unfolding and folding *)

Example ten2mat_arange_222_mode0 :
  ten2mat 0 arange_222 0 = Ok (mk_ndarray [2; 4] [0; 2; 1; 3; 4; 6; 5; 7]).
Proof. reflexivity. Qed.

Example ten2mat_arange_222_mode1 :
  ten2mat 0 arange_222 1 = Ok (mk_ndarray [2; 4] [0; 4; 1; 5; 2; 6; 3; 7]).
Proof. reflexivity. Qed.

Example ten2mat_arange_222_mode2 :
  ten2mat 0 arange_222 2 = Ok (mk_ndarray [2; 4] [0; 4; 2; 6; 1; 5; 3; 7]).
Proof. reflexivity. Qed.

Lemma mat2ten_ten2mat_witness :
  exists M, ten2mat 0 arange_222 1 = Ok M /\ mat2ten 0 M (shape arange_222) 1 = Ok arange_222.
Proof.
  apply (@mat2ten_ten2mat_nonempty_mode nat 0 arange_222 1).
  - reflexivity.
  - simpl. lia.
  - simpl. lia.
Defined.

(** C9 as stated fails on a tensor with an empty axis: on shape (0, 3) and
    mode 0 the inferred dimension of the reshape is ambiguous and [ten2mat]
    raises, so nothing can be folded back. *)
Lemma mat2ten_ten2mat_empty_mode :
  wf empty_03 /\ 0 < length (shape empty_03) /\
  ten2mat 0 empty_03 0 = Error ValueError /\
  ~ (exists M, ten2mat 0 empty_03 0 = Ok M /\ mat2ten 0 M (shape empty_03) 0 = Ok empty_03).
Proof.
  split; [reflexivity|]. split; [simpl; lia|]. split; [reflexivity|].
  intros [M [H _]]. discriminate H.
Qed.

Local Open Scope R_scope.

(** *** The imputer on the 2 x 2 problem *)

Lemma setup_ex mi Kk :
  setup rand_zero 0 dense_ex sparse_ex [1%Z] 1 1 1%nat 0.0001 mi Kk mask_ex
  = Ok (config_ex mi Kk, state_ex).
Proof. apply setup_succeeds; reflexivity. Qed.

Lemma nonzero_of_neq x : x <> 0 -> nonzero x = true.
Proof. intros H. unfold nonzero. now destruct (Req_dec_T x 0). Qed.

Lemma nonzero_zero : nonzero 0 = false.
Proof. unfold nonzero. destruct (Req_dec_T 0 0); [reflexivity|contradiction]. Qed.

Lemma initial_fill_witness :
  entry (st_Z state_ex) 1 1 = 3 /\ entry (st_Z state_ex) 0 0 = 0.
Proof.
  destruct (@initial_fill_is_nonzero_mean rand_zero 0 dense_ex sparse_ex [1%Z] 1 1
              1%nat 0.0001 2%Z 1%Z mask_ex _ _ (setup_ex 2 1))
    as (Hfill & Hsel & Hmean & _).
  split.
  - rewrite (Hfill 1%nat 1%nat) by (simpl; lia). cbn [mask_ex mentry Nat.eqb andb].
    rewrite Hmean.
    + cbn [sparse_ex of_lists nrows ncols entry sum_n nth].
      rewrite nonzero_zero, !nonzero_of_neq by lra. lra.
    + intros E.
      assert (Hin : In 2 (select_nonzero sparse_ex)).
      { apply Hsel. split; [lra|]. cbn. auto. }
      rewrite E in Hin. exact Hin.
  - rewrite (Hfill 0%nat 0%nat) by (simpl; lia). reflexivity.
Defined.

Lemma observed_entries_witness :
  entry (st_Z (inner_loop svd_none spsolve_diag (config_ex 2 1)
                 (build_B (config_ex 2 1) (st_A state_ex)) 1 state_ex)) 0 1
  = entry sparse_ex 0 1.
Proof.
  apply (proj1 (@observed_entries_never_change svd_none spsolve_diag pinv_none
                  rand_zero 0 dense_ex sparse_ex [1%Z] 1 1 1%nat 0.0001 2%Z 1%Z
                  mask_ex _ _ (setup_ex 2 1)) 0%nat 1%nat state_ex eq_refl).
  - simpl. lia.
  - simpl. lia.
  - reflexivity.
Defined.



Lemma tol_witness :
  exists st1 X1,
    iterate svd_none spsolve_diag pinv_none (config_ex 2 1) 1 state_ex = Some st1 /\
    st_X st1 = Some X1 /\
    st_tol st1 = Some (frobenius (mat_sub X1 sparse_ex) / frobenius sparse_ex).
Proof.
  destruct (@outer_body_ok svd_none spsolve_diag pinv_none (config_ex 2 1) state_ex
              ltac:(simpl; lia)) as (st1 & X & Hb & _).
  assert (Hit : iterate svd_none spsolve_diag pinv_none (config_ex 2 1) 1 state_ex
                = Some st1) by (cbn [iterate]; now rewrite Hb).
  destruct (proj1 (@tol_is_relative_change svd_none spsolve_diag pinv_none rand_zero 0
                     dense_ex sparse_ex [1%Z] 1 1 1%nat 0.0001 2%Z 1%Z mask_ex _ _
                     (setup_ex 2 1)) st1 Hit) as (X1 & HX1 & Htol).
  exists st1, X1. repeat split; assumption.
Defined.

(** C7 as stated fails in the first outer pass: no [X] has been produced
    before it, and [tol] compares the new [X] with the observed matrix. *)
Lemma tol_first_pass_has_no_previous_X :
  st_X state_ex = None /\
  st_last_mat state_ex = sparse_ex /\
  (exists st1,
     iterate svd_none spsolve_diag pinv_none (config_ex 2 1) 1 state_ex = Some st1) /\
  ~ (exists st1 Xprev Xcur,
       iterate svd_none spsolve_diag pinv_none (config_ex 2 1) 1 state_ex = Some st1 /\
       st_X state_ex = Some Xprev /\ st_X st1 = Some Xcur /\
       st_tol st1 = Some (frobenius (mat_sub Xcur Xprev) / frobenius sparse_ex)).
Proof.
  split; [reflexivity|]. split; [reflexivity|]. split.
  - destruct (@outer_body_ok svd_none spsolve_diag pinv_none (config_ex 2 1) state_ex
                ltac:(simpl; lia)) as (st1 & X & Hb & _).
    exists st1. cbn [iterate]. now rewrite Hb.
  - intros (st1 & Xp & Xc & _ & Hp & _). discriminate Hp.
Qed.

Lemma imputer_fails_witness :
  (exists e,
     setup rand_zero 0 dense_ex sparse_ex [3%Z] 1 1 1%nat 0.0001 2%Z 1%Z mask_ex
     = Error e /\
     imputer svd_none spsolve_diag pinv_none rand_zero 0 0 dense_ex sparse_ex
             [3%Z] 1 1 1%nat 0.0001 2%Z 1%Z mask_ex = Some (Error e)) /\
  (exists c st0,
     setup rand_zero 0 dense_ex sparse_ex [2%Z] 1 1 1%nat 0.0001 2%Z 1%Z mask_ex
     = Ok (c, st0)).
Proof.
  split.
  - destruct (proj1 (@imputer_fails_before_loop svd_none spsolve_diag pinv_none
                       rand_zero 0 dense_ex sparse_ex [3%Z] 1 1 1%nat 0.0001 2%Z 1%Z
                       mask_ex))
      as (e & He & Himp).
    + right. right. right. exists 3%Z. split; [now left|simpl; lia].
    + exists e. split; [exact He|apply Himp].
  - apply (proj2 (@imputer_fails_before_loop svd_none spsolve_diag pinv_none
                    rand_zero 0 dense_ex sparse_ex [2%Z] 1 1 1%nat 0.0001 2%Z 1%Z
                    mask_ex)).
    + discriminate.
    + reflexivity.
    + reflexivity.
    + intros l [<-|[]]. simpl. lia.
Defined.

(** C8 as stated fails for a time lag equal to the number of columns: the
    lag operators are empty, nothing raises, and the loop runs. *)
Lemma imputer_accepts_lag_equal_to_columns :
  In 2%Z [2%Z] /\ (Z.of_nat (ncols sparse_ex) <= 2)%Z /\
  (exists c st0,
     setup rand_zero 0 dense_ex sparse_ex [2%Z] 1 1 1%nat 0.0001 2%Z 1%Z mask_ex
     = Ok (c, st0)) /\
  exists X,
    imputer svd_none spsolve_diag pinv_none rand_zero 0 2 dense_ex sparse_ex
            [2%Z] 1 1 1%nat 0.0001 2%Z 1%Z mask_ex = Some (Ok X).
Proof.
  assert (Hs : setup rand_zero 0 dense_ex sparse_ex [2%Z] 1 1 1%nat 0.0001 2%Z 1%Z mask_ex
               = Ok (mk_config sparse_ex mask_ex [2%Z] 1 1 0.0001 2%Z 1%Z
                       [mk_coo [] [] [] (0%Z, 2%Z); mk_coo [] [] [] (0%Z, 2%Z)]
                       2%Z (frobenius sparse_ex), state_ex))
    by (apply setup_succeeds; reflexivity).
  split; [now left|]. split; [simpl; lia|]. split; [eauto|].
  apply (@imputer_returns svd_none spsolve_diag pinv_none rand_zero 0 _ _ _ _ _ _ _ _ _ _
           _ _ 2%nat Hs); simpl; lia.
Qed.

(** *** A row system *)






(** *** Thresholding the 1 x 3 matrix *)

Lemma svd_w_on_mat : is_svd mat_w (svd_w mat_w).
Proof.
  unfold is_svd, orthonormal_cols, orthonormal_rows, nonneg, descending.
  cbn [svd_w mat_w of_lists of_list eye1 ncols nrows vlen vget entry Nat.eqb
       Nat.min length].
  repeat split; try reflexivity; try discriminate.
  - intros i j Hi Hj. index_cases i. index_cases j. simpl. unfold delta. simpl. lra.
  - intros i j Hi Hj. index_cases i. index_cases j. simpl. unfold delta. simpl. lra.
  - intros _ i j Hi Hj. index_cases i. index_cases j. simpl. unfold delta. simpl. lra.
  - intros i Hi. index_cases i. simpl. lra.
  - intros i j Hij Hj. index_cases j. index_cases i. simpl. lra.
  - intros a b Ha Hb. index_cases a. index_cases b; simpl; lra.
Qed.

Lemma svd_w_on_gram : is_svd (decomposed mat_w) (svd_w (decomposed mat_w)).
Proof.
  unfold is_svd, orthonormal_cols, orthonormal_rows, nonneg, descending.
  cbn [decomposed wide tall svd_w mat_w of_lists of_list eye1 ncols nrows vlen vget
       entry Nat.eqb Nat.min length matmul transpose Nat.mul Nat.add Nat.ltb Nat.leb].
  repeat split; try reflexivity; try discriminate.
  - intros i j Hi Hj. index_cases i. index_cases j. simpl. unfold delta. simpl. lra.
  - intros i j Hi Hj. index_cases i. index_cases j. simpl. unfold delta. simpl. lra.
  - intros _ i j Hi Hj. index_cases i. index_cases j. simpl. unfold delta. simpl. lra.
  - intros _ i j Hi Hj. index_cases i. index_cases j. simpl. unfold delta. simpl. lra.
  - intros i Hi. index_cases i. simpl. lra.
  - intros i j Hij Hj. index_cases j. index_cases i. simpl. lra.
  - intros a b Ha Hb. index_cases a. index_cases b. simpl. lra.
Qed.

Lemma gt_bool_true tau x : tau < x -> gt_bool tau x = true.
Proof. intros H. unfold gt_bool. now destruct (Rlt_dec tau x). Qed.

Lemma sqrt_25 : sqrt 25 = 5.
Proof. replace 25 with (5 * 5) by lra. apply sqrt_square. lra. Qed.

Lemma count_w_sqrt : count_gt (vec_sqrt (of_list [25])) 1 = 1%nat.
Proof.
  unfold count_gt. cbn [vec_sqrt of_list vlen vget length seq filter nth].
  rewrite sqrt_25, gt_bool_true by lra. reflexivity.
Qed.

(** With [theta = 0] the singular value 5 loses [tau = 1]: the Gram branch
    returns [mat_w] scaled by 4/5. *)
Example svt_tnn_shrinks_mat_w :
  entry (svt_tnn svd_w mat_w 1 0) 0 0 = 12 / 5 /\
  entry (svt_tnn svd_w mat_w 1 0) 0 1 = 0 /\
  entry (svt_tnn svd_w mat_w 1 0) 0 2 = 16 / 5.
Proof.
  rewrite svt_tnn_branches. change (wide mat_w) with true. cbv iota.
  repeat split.
  - destruct (@svt_gram_entries svd_w mat_w 1 0%nat eye1 (of_list [25]) eye1
                0%nat 0%nat eq_refl eq_refl) as (_ & _ & ->).
    rewrite count_w_sqrt. simpl. rewrite sqrt_25. lra.
  - destruct (@svt_gram_entries svd_w mat_w 1 0%nat eye1 (of_list [25]) eye1
                0%nat 1%nat eq_refl eq_refl) as (_ & _ & ->).
    rewrite count_w_sqrt. simpl. rewrite sqrt_25. lra.
  - destruct (@svt_gram_entries svd_w mat_w 1 0%nat eye1 (of_list [25]) eye1
                0%nat 2%nat eq_refl eq_refl) as (_ & _ & ->).
    rewrite count_w_sqrt. simpl. rewrite sqrt_25. lra.
Qed.

Lemma svt_tnn_thresholds_witness :
  exists u s vh,
    compact_svd mat_w u s vh /\
    mat_eq (svt_tnn svd_w mat_w 1 1) (svt_spec 1 3 u s vh 1 1).
Proof.
  destruct (@svt_tnn_thresholds_singular_values svd_w mat_w 1 1%nat
              Rlt_0_1 svd_w_on_gram) as (u & s & vh & H1 & H2 & _).
  exists u, s, vh. split; [exact H1|exact H2].
Defined.


(** *** A tie across the cut *)








End Instances.

(** * Further worked instances *)

Module Cases.

Import Index Tensor RSum Dense Lag Spectral Kernel Metrics Notebook Instances.

(** ** Inputs *)

(** The mode-1 unfolding of [arange_222], and a 2 x 2 array. *)
Definition mat_24 : ndarray nat := mk_ndarray [2; 4] [0; 4; 1; 5; 2; 6; 3; 7].
Definition square_22 : ndarray nat := mk_ndarray [2; 2] [1; 2; 3; 4].

Local Open Scope R_scope.

(** A series of length 5 and one of length 2. *)
Definition z5_ex : vector := of_list [10; 20; 30; 40; 50].
Definition z2_ex : vector := of_list [7; 9].

(** [state_ex] once more, with [last_mat] already equal to the [X] that
    the next pass computes. *)
Definition state_rep : state :=
  mk_state 1 None (initial_Z 0 sparse_ex mask_ex) (zeros 2 2)
           (mat_scale 0.001 (rand_zero 2 1))
           (next_X svd_none (config_ex 5 1) state_ex) 0%Z None.

(** A matrix that agrees with [sparse_ex] at the masked position only. *)
Definition other_ex : matrix := of_lists 2 2 [[9; 9]; [9; 0]].

(** A 1 x 1 problem without missing entry, and the decomposition of a
    1 x 1 matrix. *)
Definition sparse_one : matrix := of_lists 1 1 [[2]].
Definition mask_none : mask := mk_mask 1 1 (fun _ _ => false).
Definition svd_one (M : matrix) : matrix * vector * matrix :=
  (eye1, of_list [entry M 0 0], eye1).


Local Close Scope R_scope.

(** ** Evaluations *)

(** *** Tensors *)

Lemma ten2mat_places_entries_witness :
  exists M, ten2mat 0 arange_222 1 = Ok M /\ shape M = [2; 4] /\
    get 0 M [1; 2] = get 0 arange_222 [0; 1; 1].
Proof.
  destruct (@ten2mat_places_entries nat 0 arange_222 1) as (M & H1 & H2 & _ & H4).
  - reflexivity.
  - simpl. lia.
  - simpl. lia.
  - exists M. split; [exact H1|]. split; [exact H2|].
    apply (H4 [0; 1; 1]). repeat constructor.
Defined.

Lemma ten2mat_mat2ten_witness :
  exists T, mat2ten 0 mat_24 [2; 2; 2] 1 = Ok T /\ shape T = [2; 2; 2] /\
    ten2mat 0 T 1 = Ok mat_24.
Proof.
  destruct (@ten2mat_mat2ten nat 0 mat_24 [2; 2; 2] 1) as (T & H1 & H2 & _ & H4).
  - reflexivity.
  - simpl. lia.
  - simpl. lia.
  - reflexivity.
  - exists T. split; [exact H1|]. split; [exact H2|exact H4].
Defined.

Lemma ten2mat_errors_witness :
  ten2mat 0 arange_222 3 = Error AxisError /\
  ten2mat 0 empty_03 0 = Error ValueError.
Proof.
  split.
  - apply (proj1 (@ten2mat_errors nat 0 arange_222 3)). simpl. lia.
  - apply (proj2 (@ten2mat_errors nat 0 empty_03 0)); [simpl; lia|reflexivity].
Defined.

Lemma mat2ten_errors_witness :
  mat2ten 0 arange_222 [2; 2; 2] 3 = Error IndexError /\
  mat2ten 0 arange_222 [2; 2] 0 = Error ValueError.
Proof.
  split.
  - apply (proj1 (@mat2ten_errors nat 0 arange_222 [2; 2; 2] 3)). simpl. lia.
  - apply (proj2 (@mat2ten_errors nat 0 arange_222 [2; 2] 0)); simpl; lia.
Defined.

Lemma ten2mat_of_matrix_witness :
  ten2mat 0 square_22 0 = Ok square_22 /\
  ten2mat 0 square_22 1 = Ok (mk_ndarray [2; 2] [1; 3; 2; 4]).
Proof.
  apply (@ten2mat_of_matrix nat 0 square_22 2 2); try reflexivity; lia.
Defined.

(** *** Lag operators *)

Lemma generate_Psi_accepts_witness :
  (exists Psis, generate_Psi 5 [1; 3]%Z = Ok Psis) /\
  generate_Psi 5 [(-3)%Z; 1%Z] = Error ValueError.
Proof.
  split.
  - apply (proj2 (proj1 (@generate_Psi_accepts_iff 5%Z [1; 3]%Z ltac:(lia)))).
    exists 3%Z. split; [reflexivity|]. split; [lia|]. right.
    intros l [<-|[<-|[]]]; lia.
  - destruct (generate_Psi 5 [(-3)%Z; 1%Z]) as [Ps|e] eqn:E.
    + exfalso.
      destruct (proj1 (proj1 (@generate_Psi_accepts_iff 5%Z [(-3)%Z; 1%Z] ltac:(lia)))
                  (ex_intro _ Ps E)) as (ml & Hml & _ & Hcase).
      cbn in Hml. injection Hml as <-. destruct Hcase as [Hc|Hc]; [lia|].
      specialize (Hc (-3)%Z (or_introl eq_refl)). lia.
    + f_equal.
      exact (proj2 (@generate_Psi_accepts_iff 5%Z [(-3)%Z; 1%Z] ltac:(lia)) e E).
Defined.

Lemma Psi_applies_as_shift_witness :
  exists Psis, generate_Psi 5 [1; 3]%Z = Ok Psis /\
    vget (matvec (toarray (nth 1 Psis Psi_dflt)) z5_ex) 0 = 30%R.
Proof.
  destruct (@generate_Psi_accepts 5%Z [1; 3]%Z) as [Psis HPs].
  - discriminate.
  - intros l [<-|[<-|[]]]; lia.
  - exists Psis. split; [exact HPs|].
    destruct (@Psi_applies_as_shift 5%Z [1; 3]%Z 3%Z Psis 1 z5_ex eq_refl HPs)
      as (_ & _ & H).
    + simpl. lia.
    + reflexivity.
    + exact (proj2 (H 0 ltac:(simpl; lia))).
Defined.

Local Open Scope R_scope.

(** *** The loop *)

Lemma rho_schedule_witness :
  exists st,
    iterate svd_none spsolve_diag pinv_none (config_ex 2 1) 1 state_ex = Some st /\
    st_rho st = Rmin (1 * 1.05 ^ (1 * Z.to_nat 1)) 1e5 /\ st_rho st <= 1e5.
Proof.
  destruct (@outer_body_ok svd_none spsolve_diag pinv_none (config_ex 2 1) state_ex
              ltac:(simpl; lia)) as (st1 & X & Hb & _).
  assert (Hit : iterate svd_none spsolve_diag pinv_none (config_ex 2 1) 1 state_ex
                = Some st1) by (cbn [iterate]; now rewrite Hb).
  exists st1. split; [exact Hit|].
  apply (@rho_schedule svd_none spsolve_diag pinv_none rand_zero 0 dense_ex sparse_ex
           [1%Z] 1 1 1%nat 0.0001 2%Z 1%Z mask_ex _ _ 1%nat st1 (setup_ex 2 1));
    [lia|lia|exact Hit].
Defined.



Lemma snorm_ex : snorm (config_ex 5 1) <> 0.
Proof.
  cbn [config_ex snorm]. unfold frobenius.
  cbn [sparse_ex of_lists nrows ncols entry sum_n nth].
  replace (0 + (0 + 0 * 0 + 2 * 2) + (0 + 4 * 4 + 0 * 0)) with 20 by ring.
  intros H. apply sqrt_eq_0 in H; lra.
Qed.

Lemma unchanged_X_is_not_convergence_witness :
  exists st',
    outer_body svd_none spsolve_diag pinv_none (config_ex 5 1) state_rep = Ok st' /\
    st_tol st' = Some 0 /\
    (stop (config_ex 5 1) st' = true <-> (5 <= st_it st')%Z).
Proof.
  eexists. split; [reflexivity|].
  apply (@unchanged_X_is_not_convergence svd_none spsolve_diag pinv_none
           (config_ex 5 1) state_rep _ _ snorm_ex eq_refl eq_refl).
  intros i j _ _. reflexivity.
Defined.

(** *** Shapes *)

Lemma svd_none_shapes M :
  nrows (fst (fst (svd_none M))) = nrows M /\ ncols (snd (svd_none M)) = ncols M.
Proof. split; reflexivity. Qed.

Lemma svt_tnn_keeps_shape_witness :
  nrows (svt_tnn svd_none mat_w 1 1) = 1%nat /\
  ncols (svt_tnn svd_none mat_w 1 1) = 3%nat /\
  nrows (svt_tnn svd_none (transpose mat_w) 1 1) = 3%nat /\
  ncols (svt_tnn svd_none (transpose mat_w) 1 1) = 1%nat.
Proof.
  exact (@svt_tnn_keeps_shape svd_none svd_none_shapes mat_w 1 1%nat).
Defined.


(** *** The autoregression *)

Lemma B_row_is_autoregressive_residual_witness :
  vget (matvec (B_row (config_ex 2 1) (st_A state_ex) 0) z2_ex) 0
  = 9 - (0 + entry (st_A state_ex) 0 0 * 7).
Proof.
  exact (proj2 (@B_row_is_autoregressive_residual rand_zero 0 dense_ex sparse_ex
                  [1%Z] 1 1 1%nat 0.0001 2%Z 1%Z mask_ex _ _ (st_A state_ex) 0%nat
                  z2_ex 0%nat (setup_ex 2 1) eq_refl (le_n 1))).
Defined.

Lemma regression_data_are_lag_windows_witness :
  entry (Vm (config_ex 2 1) dense_ex 1) 0 0
  = vget (matvec (Psi (config_ex 2 1) 1) (row dense_ex 1)) 0 /\
  vget (vec_from (row dense_ex 1) 1) 0
  = vget (matvec (Psi (config_ex 2 1) 0) (row dense_ex 1)) 0.
Proof.
  destruct (@regression_data_are_lag_windows rand_zero 0 dense_ex sparse_ex
              [1%Z] 1 1 1%nat 0.0001 2%Z 1%Z mask_ex _ _ dense_ex 1%nat
              (setup_ex 2 1) eq_refl) as (_ & _ & _ & H4 & H5).
  split; [exact (H4 0%nat 0%nat (le_n 1) (le_n 1))|exact (H5 0%nat (le_n 1))].
Defined.

Lemma row_system_has_one_solution_witness :
  vec_eq z2_ex z2_ex.
Proof.
  apply (@row_system_has_one_solution (config_ex 2 1) B0_ex 1
           (matvec (normal_matrix (config_ex 2 1) B0_ex 1) z2_ex) z2_ex z2_ex).
  - cbn [config_ex lambda0]. lra.
  - reflexivity.
  - reflexivity.
  - reflexivity.
  - split; [reflexivity|intros; reflexivity].
  - split; [reflexivity|intros; reflexivity].
Defined.

(** *** Thresholding *)

Lemma frobenius_mat_w : frobenius mat_w = 5.
Proof.
  unfold frobenius. cbn [mat_w of_lists nrows ncols entry sum_n nth].
  replace (0 + (0 + 3 * 3 + 0 * 0 + 4 * 4)) with 25 by ring.
  apply sqrt_25.
Qed.

Lemma svt_tnn_of_small_matrix_witness :
  mat_eq (svt_tnn svd_w mat_w 6 1) (zeros 1 3) /\
  count_gt (snd (fst (svd_w mat_w))) 6 = 0%nat.
Proof.
  destruct (@svt_tnn_of_small_matrix svd_w mat_w 6 1%nat) as [H1 H2].
  - rewrite frobenius_mat_w. lra.
  - exact svd_w_on_gram.
  - split; [exact H1|].
    exact (proj2 (H2 _ _ _ svd_w_on_mat)).
Defined.

(** *** Error measures *)

Lemma measures_vanish_iff_equal_witness :
  exists mae rmse,
    compute_mae 0 [1; 2] [1; 4] = Ok mae /\ compute_rmse 0 [1; 2] [1; 4] = Ok rmse /\
    0 <= mae /\ 0 <= rmse /\
    (mae = 0 <-> [1; 2] = [1; 4]) /\ (rmse = 0 <-> [1; 2] = [1; 4]).
Proof.
  apply (@measures_vanish_iff_equal 0 [1; 2] [1; 4]); [reflexivity|discriminate].
Defined.

Lemma mae_le_rmse_witness :
  exists mae rmse,
    compute_mae 0 [1; 2] [1; 4] = Ok mae /\ compute_rmse 0 [1; 2] [1; 4] = Ok rmse /\
    mae <= rmse.
Proof.
  apply (@mae_le_rmse 0 [1; 2] [1; 4]); [reflexivity|discriminate].
Defined.

Lemma measures_on_unequal_lengths_witness :
  (compute_mae 0 [1; 2; 3] [1; 2] = Error ValueError /\
   compute_rmse 0 [1; 2; 3] [1; 2] = Error ValueError) /\
  compute_rmse 0 [5] [1; 2]
  = Ok (sqrt (list_sum (map (fun d => d ^ 2) (map (fun y => 5 - y) [1; 2])))).
Proof.
  split.
  - apply (proj1 (@measures_on_unequal_lengths 0 [1; 2; 3] [1; 2] 0)); simpl; lia.
  - apply (proj2 (@measures_on_unequal_lengths 0 [] [1; 2] 5)). simpl. lia.
Defined.

Lemma report_reads_masked_entries_witness :
  (exists mae rmse, report 0 dense_ex sparse_ex mask_ex = Ok (mae, rmse)) /\
  report 0 dense_ex sparse_ex mask_ex = report 0 dense_ex other_ex mask_ex.
Proof.
  apply (@report_reads_masked_entries 0 dense_ex sparse_ex other_ex mask_ex);
    try reflexivity.
  intros i j Hi Hj Hm. cbn [mask_ex mrows mcols mentry] in *.
  destruct i as [|[|i]]; destruct j as [|[|j]]; try lia;
    try discriminate Hm; reflexivity.
Defined.

Lemma evaluate_with_seasonal_raises_witness :
  evaluate dense_ex sparse_ex (Some mask_ex) (Some dense_ex)
  = Error UnboundLocalError.
Proof.
  apply (proj2 (@evaluate_with_seasonal_raises dense_ex sparse_ex (Some mask_ex)
                  dense_ex) _ _ _ eq_refl eq_refl eq_refl).
Defined.

Lemma evaluate_agrees_with_measures_witness :
  exists sel_raw sel_pred rmse mae,
    mask_select dense_ex mask_ex = Ok sel_raw /\
    evaluate dense_ex sparse_ex (Some mask_ex) None = Ok (rmse, mae, sel_pred) /\
    compute_rmse 0 sel_raw sel_pred = Ok rmse /\
    compute_mae 0 sel_raw sel_pred = Ok mae.
Proof.
  destruct (@evaluate_agrees_with_measures 0 dense_ex sparse_ex mask_ex
              eq_refl eq_refl) as (sr & sp & H1 & _ & H3 & _).
  destruct H3 as (rmse & mae & He & Hr & Ha).
  { exists 1%nat, 1%nat. repeat split; simpl; lia. }
  exists sr, sp, rmse, mae. repeat split; assumption.
Defined.

(** *** The run of the notebook *)


(** *** The first pass *)

Lemma setup_one :
  setup rand_zero 0 sparse_one sparse_one [1%Z] 0.1 1 1%nat 0.0001 1%Z 1%Z mask_none
  = Ok (mk_config sparse_one mask_none [1%Z] 1 1 0.0001 1%Z 1%Z
          [mk_coo [] [] [] (0%Z, 1%Z); mk_coo [] [] [] (0%Z, 1%Z)]
          1%Z (frobenius sparse_one),
        mk_state 0.1 None (initial_Z 0 sparse_one mask_none) (zeros 1 1)
          (mat_scale 0.001 (rand_zero 1 1)) sparse_one 0%Z None).
Proof. apply setup_succeeds; reflexivity. Qed.

Lemma rho1_one : Rmin (0.1 * 1.05) 1e5 = 0.105.
Proof. unfold Rmin. destruct (Rle_dec (0.1 * 1.05) 1e5); lra. Qed.

Lemma frobenius_initial_one : frobenius (initial_Z 0 sparse_one mask_none) = 2.
Proof.
  unfold frobenius.
  cbn [initial_Z mask_fill mask_none mentry sparse_one of_lists nrows ncols entry
       sum_n nth].
  replace (0 + (0 + 2 * 2)) with (2 * 2) by ring.
  apply sqrt_square. lra.
Qed.

Lemma svd_one_valid M :
  nrows M = 1%nat -> ncols M = 1%nat -> wide M = false -> tall M = false ->
  0 <= entry M 0 0 -> is_svd (decomposed M) (svd_one (decomposed M)).
Proof.
  intros Hr Hc Hw Ht Hpos. unfold decomposed. rewrite Hw, Ht.
  unfold is_svd, svd_one, orthonormal_cols, orthonormal_rows, nonneg, descending.
  rewrite Hr, Hc.
  cbn [of_lists of_list eye1 ncols nrows vlen vget entry Nat.min length].
  repeat split; try reflexivity.
  - intros i j Hi Hj. index_cases i. index_cases j. simpl. unfold delta. simpl. lra.
  - intros i j Hi Hj. index_cases i. index_cases j. simpl. unfold delta. simpl. lra.
  - intros _ i j Hi Hj. index_cases i. index_cases j. simpl. unfold delta. simpl. lra.
  - intros _ i j Hi Hj. index_cases i. index_cases j. simpl. unfold delta. simpl. lra.
  - intros i Hi. index_cases i. simpl. exact Hpos.
  - intros i j Hij Hj. index_cases j. index_cases i. simpl. lra.
  - intros a b Ha Hb. index_cases a. index_cases b. simpl. lra.
Qed.

Lemma first_X_vanishes_witness :
  exists X,
    imputer svd_one spsolve_diag pinv_none rand_zero 0 1 sparse_one sparse_one
            [1%Z] 0.1 1 1%nat 0.0001 1%Z 1%Z mask_none = Some (Ok X) /\
    mat_eq X (zeros 1 1).
Proof.
  apply (proj2 (@first_X_vanishes_under_small_rho svd_one spsolve_diag pinv_none
                  rand_zero 0 sparse_one sparse_one [1%Z] 0.1 1 1%nat 0.0001 1%Z 1%Z
                  mask_none _ _ setup_one ltac:(lra)
                  ltac:(rewrite frobenius_initial_one, rho1_one; lra)
                  ltac:(apply svd_one_valid;
                        [reflexivity|reflexivity|reflexivity|reflexivity|];
                        simpl; unfold Rdiv; rewrite Rmult_0_l; lra)));
    [reflexivity|lia|lra|lia].
Defined.

End Cases.

